(** * big_numbers.c: arbitrary-size non-negative integers in base 2^32

    A [Bnum] of the C library is a doubly linked chain of [Block]s, each
    holding one [uint32_t] digit, together with a cached block count.  The
    first part of this development reads the chain as the list of its digits,
    least significant first: following [next] from [least_significant] walks
    the list, following [prev] from [most_significant] walks its reverse.
    The second part ([Module Mem]) keeps the pointers and the allocator. *)

From stdpp Require Import base numbers list option gmap.
From Stdlib Require Import ZArith Lia.
From Stdlib Require Import Ascii DecimalString.
From stdpp Require Import strings.

Local Open Scope Z_scope.

(** ** Machine integers *)

Definition BLOCK_SIZE : Z := 32.
Definition BLOCK_MASK : Z := 4294967295.

(** Conversion to [uint32_t] and [uint64_t]: reduction modulo the width. *)
Definition to_uint32 (x : Z) : Z := x mod 2 ^ 32.
Definition to_uint64 (x : Z) : Z := x mod 2 ^ 64.

(** [(uint32_t) x & BLOCK_MASK], passed to a [uint32_t] parameter: the cast
    binds tighter than [&], the mask is a 64-bit constant, and the argument is
    converted back to 32 bits at the call. *)
Definition low_block (x : Z) : Z :=
  to_uint32 (Z.land (to_uint32 x) BLOCK_MASK).

(** ** The digit sequence *)

(** [num_blocks] is the C [int] counter; it is kept as a mathematical integer
    (a chain of 2^31 blocks is out of reach of the counter's type). *)
Record Bnum : Type := mkBnum {
  num_blocks : Z;
  blocks : list Z
}.

(** [add_block]: the new block becomes the most significant one. *)
Definition add_block (big_num : Bnum) (val : Z) : Bnum :=
  mkBnum (num_blocks big_num + 1) (blocks big_num ++ [val]).

(** The loop [for (; num > 0; num >>= BLOCK_SIZE)] of [Bnum_create].  The
    fuel bounds the number of iterations; see [create_loop_fuel]. *)
Fixpoint create_loop (fuel : nat) (num : Z) (big_num : Bnum) : Bnum :=
  match fuel with
  | O => big_num
  | S fuel' =>
      if 0 <? num
      then create_loop fuel' (to_uint64 (Z.shiftr num BLOCK_SIZE))
             (add_block big_num (low_block num))
      else big_num
  end.

Definition Bnum_create (num : Z) : Bnum :=
  let big_num := mkBnum 0 [] in
  if num =? 0 then big_num
  else create_loop 64 num big_num.

(** ** Comparisons *)

(** The loop of [Bnum_eq], over the two chains from [least_significant]. *)
Fixpoint eq_loop (cur_block_a cur_block_b : list Z) : bool :=
  match cur_block_a, cur_block_b with
  | va :: next_a, vb :: next_b =>
      if negb (va =? vb) then false else eq_loop next_a next_b
  | [], [] => true
  | _, _ => false
  end.

Definition Bnum_eq (a b : Bnum) : bool := eq_loop (blocks a) (blocks b).

Definition Bnum_ne (a b : Bnum) : bool := negb (Bnum_eq a b).

(** The loops of [Bnum_le] and [Bnum_ge], over the two chains from
    [most_significant] along [prev]. *)
Fixpoint le_loop (cur_block_a cur_block_b : list Z) : bool :=
  match cur_block_a, cur_block_b with
  | va :: prev_a, vb :: prev_b =>
      if negb (va =? vb) then va <? vb else le_loop prev_a prev_b
  | _, _ => true
  end.

Fixpoint ge_loop (cur_block_a cur_block_b : list Z) : bool :=
  match cur_block_a, cur_block_b with
  | va :: prev_a, vb :: prev_b =>
      if negb (va =? vb) then va >? vb else ge_loop prev_a prev_b
  | _, _ => true
  end.

Definition Bnum_le (a b : Bnum) : bool :=
  if negb (num_blocks a =? num_blocks b) then num_blocks a <? num_blocks b
  else le_loop (rev (blocks a)) (rev (blocks b)).

Definition Bnum_ge (a b : Bnum) : bool :=
  if negb (num_blocks a =? num_blocks b) then num_blocks a >? num_blocks b
  else ge_loop (rev (blocks a)) (rev (blocks b)).

Definition Bnum_lt (a b : Bnum) : bool := negb (Bnum_ge a b).

Definition Bnum_gt (a b : Bnum) : bool := negb (Bnum_le a b).

(** ** Addition *)

(** Second loop of [Bnum_sum]: the rest of the longer operand. *)
Fixpoint sum_rest (cur_block : list Z) (carry : Z) (sum : Bnum) : Bnum :=
  match cur_block with
  | [] => sum
  | v :: next =>
      let block_sum := to_uint64 (v + carry) in
      let carry := Z.shiftr block_sum BLOCK_SIZE in
      sum_rest next carry (add_block sum (low_block block_sum))
  end.

(** First loop of [Bnum_sum], while both chains have a block, followed by
    the choice [cur_block_a ? cur_block_a : cur_block_b]. *)
Fixpoint sum_both (cur_block_a cur_block_b : list Z) (carry : Z) (sum : Bnum)
  : Bnum :=
  match cur_block_a, cur_block_b with
  | va :: next_a, vb :: next_b =>
      let block_sum := to_uint64 (va + vb + carry) in
      let carry := Z.shiftr block_sum BLOCK_SIZE in
      sum_both next_a next_b carry (add_block sum (low_block block_sum))
  | _ :: _, [] => sum_rest cur_block_a carry sum
  | [], _ => sum_rest cur_block_b carry sum
  end.

Definition Bnum_sum (a b : Bnum) : Bnum :=
  sum_both (blocks a) (blocks b) 0 (Bnum_create 0).

(** ** Multiplication *)

(** [for (int i = 0; i < shift; i++) add_block(cur_product, 0)]. *)
Fixpoint shift_loop (fuel : nat) (i shift : Z) (cur_product : Bnum) : Bnum :=
  match fuel with
  | O => cur_product
  | S fuel' =>
      if i <? shift
      then shift_loop fuel' (i + 1) shift (add_block cur_product (to_uint32 0))
      else cur_product
  end.

(** Inner loop of [Bnum_mult] over the blocks of [b], and the final
    [if (carry) add_block(cur_product, (uint32_t) carry)]. *)
Fixpoint mult_row (val_a : Z) (cur_block_b : list Z) (carry : Z)
    (cur_product : Bnum) : Bnum :=
  match cur_block_b with
  | [] =>
      if negb (carry =? 0) then add_block cur_product (to_uint32 carry)
      else cur_product
  | vb :: next_b =>
      let block_product := to_uint64 (val_a * vb + carry) in
      let carry := Z.shiftr block_product BLOCK_SIZE in
      mult_row val_a next_b carry
        (add_block cur_product (low_block block_product))
  end.

(** Outer loop of [Bnum_mult] over the blocks of [a]. *)
Fixpoint mult_loop (cur_block_a : list Z) (b : Bnum) (shift : Z)
    (product : Bnum) : Bnum :=
  match cur_block_a with
  | [] => product
  | va :: next_a =>
      let cur_product := Bnum_create 0 in
      let cur_product := shift_loop (Z.to_nat shift) 0 shift cur_product in
      let cur_product := mult_row va (blocks b) 0 cur_product in
      let product := Bnum_sum product cur_product in
      mult_loop next_a b (shift + 1) product
  end.

Definition Bnum_mult (a b : Bnum) : Bnum :=
  mult_loop (blocks a) b 0 (Bnum_create 0).

(** ** Exponentiation *)

(** [for (int i = 0; i < n; i++) result = Bnum_mult(result, a)]. *)
Fixpoint pow_loop (fuel : nat) (i n : Z) (a result : Bnum) : Bnum :=
  match fuel with
  | O => result
  | S fuel' =>
      if i <? n then pow_loop fuel' (i + 1) n a (Bnum_mult result a)
      else result
  end.

Definition Bnum_pow (a : Bnum) (n : Z) : Bnum :=
  pow_loop (Z.to_nat n) 0 n a (Bnum_create 1).

(** ** Values and well-formedness *)

(** The number a digit list stands for: the sum of digit i times 2^(32 i). *)
Fixpoint value_of (l : list Z) : Z :=
  match l with
  | [] => 0
  | d :: l' => d + 2 ^ 32 * value_of l'
  end.

Definition value (a : Bnum) : Z := value_of (blocks a).

(** The cached count agrees with the chain. *)
Definition count_ok (a : Bnum) : Prop :=
  num_blocks a = Z.of_nat (length (blocks a)).

(** Every block holds a [uint32_t]. *)
Definition digits_ok (l : list Z) : Prop :=
  Forall (fun d => 0 <= d < 2 ^ 32) l.

Definition wf (a : Bnum) : Prop := count_ok a /\ digits_ok (blocks a).

(** Canonical form: the most significant block, if any, is not zero. *)
Definition canonical (a : Bnum) : Prop :=
  wf a /\ last (blocks a) <> Some 0.

(** ** The doubly linked representation *)

(** The same functions over the C structs: a store of [Block] and [Bnum]
    cells at addresses, [malloc] and [free], and pointers that may be NULL.
    A computation that dereferences NULL or an address that is not
    allocated, or whose loop exceeds the fuel, has no result. *)
Module Mem.

(** [Block *]: NULL or the address of a cell. *)
Abbreviation ptr := (option positive) (only parsing).

Record Block : Type := mkBlock {
  val : Z;
  next : ptr;
  prev : ptr
}.

Record Bnum : Type := mkBnum {
  num_blocks : Z;
  least_significant : ptr;
  most_significant : ptr
}.

Inductive cell : Type :=
| Cblock (b : Block)
| Cbnum (n : Bnum).

Abbreviation heap := (gmap positive cell) (only parsing).

Definition M (A : Type) : Type := heap -> option (A * heap).

Definition ret {A : Type} (a : A) : M A := fun h => Some (a, h).

Definition bind {A B : Type} (m : M A) (k : A -> M B) : M B :=
  fun h => match m h with
           | Some (a, h') => k a h'
           | None => None
           end.

Definition crash {A : Type} : M A := fun _ => None.

Notation "'let*' x ':=' m 'in' k" := (bind m (fun x => k))
  (at level 10, x name, m at level 100, k at level 200).

(** [malloc]: an address that is not in use, holding [init] (the code
    assigns every field before it reads one). *)
Definition malloc (init : cell) : M positive :=
  fun h => let p := fresh (dom h) in Some (p, <[p := init]> h).

(** [free]: the cell must be allocated; [free(NULL)] does nothing. *)
Definition free (p : ptr) : M unit :=
  fun h => match p with
           | None => Some (tt, h)
           | Some l => match h !! l with
                       | Some _ => Some (tt, delete l h)
                       | None => None
                       end
           end.

(** [*p] for a [Block *] and for a [Bnum *]; a field assignment reads the
    cell and writes it back with the field changed. *)
Definition get_block (p : ptr) : M Block :=
  fun h => match p with
           | Some l => match h !! l with
                       | Some (Cblock b) => Some (b, h)
                       | _ => None
                       end
           | None => None
           end.

Definition set_block (p : ptr) (f : Block -> Block) : M unit :=
  let* b := get_block p in
  fun h => match p with
           | Some l => Some (tt, <[l := Cblock (f b)]> h)
           | None => None
           end.

Definition get_bnum (p : positive) : M Bnum :=
  fun h => match h !! p with
           | Some (Cbnum n) => Some (n, h)
           | _ => None
           end.

Definition set_bnum (p : positive) (f : Bnum -> Bnum) : M unit :=
  let* n := get_bnum p in
  fun h => Some (tt, <[p := Cbnum (f n)]> h).

(** Field assignments. *)
Definition with_val (v : Z) (b : Block) : Block := mkBlock v (next b) (prev b).
Definition with_next (p : ptr) (b : Block) : Block := mkBlock (val b) p (prev b).
Definition with_prev (p : ptr) (b : Block) : Block := mkBlock (val b) (next b) p.
Definition with_count (c : Z) (n : Bnum) : Bnum :=
  mkBnum c (least_significant n) (most_significant n).
Definition with_least (p : ptr) (n : Bnum) : Bnum :=
  mkBnum (num_blocks n) p (most_significant n).
Definition with_most (p : ptr) (n : Bnum) : Bnum :=
  mkBnum (num_blocks n) (least_significant n) p.

(** [add_block]: a new block is linked after [most_significant], or becomes
    both ends of an empty chain; then [num_blocks++]. *)
Definition add_block (big_num : positive) (v : Z) : M unit :=
  let* cur_block := malloc (Cblock (mkBlock 0 None None)) in
  let* _ := set_block (Some cur_block) (with_val v) in
  let* _ := set_block (Some cur_block) (with_next None) in
  let* _ := set_block (Some cur_block) (with_prev None) in
  let* n := get_bnum big_num in
  let* _ :=
    match least_significant n with
    | None =>
        let* _ := set_bnum big_num (with_least (Some cur_block)) in
        set_bnum big_num (with_most (Some cur_block))
    | Some _ =>
        let* _ := set_block (most_significant n)
                    (with_next (Some cur_block)) in
        let* _ := set_block (Some cur_block)
                    (with_prev (most_significant n)) in
        set_bnum big_num (with_most (Some cur_block))
    end in
  set_bnum big_num (fun n => with_count (num_blocks n + 1) n).

(** The loops take fuel, one unit per test of the guard. *)
Fixpoint create_loop (fuel : nat) (num : Z) (big_num : positive) : M unit :=
  match fuel with
  | O => crash
  | S fuel' =>
      if 0 <? num
      then let* _ := add_block big_num (low_block num) in
           create_loop fuel' (to_uint64 (Z.shiftr num BLOCK_SIZE)) big_num
      else ret tt
  end.

Definition Bnum_create (fuel : nat) (num : Z) : M positive :=
  let* big_num := malloc (Cbnum (mkBnum 0 None None)) in
  let* _ := set_bnum big_num (with_count 0) in
  let* _ := set_bnum big_num (with_least None) in
  let* _ := set_bnum big_num (with_most None) in
  if num =? 0 then ret big_num
  else let* _ := create_loop fuel num big_num in
       ret big_num.

(** [Bnum_destroy]: every block along [next] is freed after its [next]
    field has been read, then the [Bnum] itself. *)
Fixpoint destroy_loop (fuel : nat) (cur : ptr) : M unit :=
  match fuel with
  | O => crash
  | S fuel' =>
      match cur with
      | None => ret tt
      | Some _ =>
          let prev := cur in
          let* b := get_block cur in
          let cur := next b in
          let* _ := free prev in
          destroy_loop fuel' cur
      end
  end.

Definition Bnum_destroy (fuel : nat) (big_num : positive) : M unit :=
  let* n := get_bnum big_num in
  let* _ := destroy_loop fuel (least_significant n) in
  free (Some big_num).

(** The comparisons only read the store. *)
Fixpoint eq_loop (fuel : nat) (cur_block_a cur_block_b : ptr) : M bool :=
  match fuel with
  | O => crash
  | S fuel' =>
      match cur_block_a, cur_block_b with
      | Some _, Some _ =>
          let* ba := get_block cur_block_a in
          let* bb := get_block cur_block_b in
          if negb (val ba =? val bb) then ret false
          else eq_loop fuel' (next ba) (next bb)
      | None, None => ret true
      | _, _ => ret false
      end
  end.

Definition Bnum_eq (fuel : nat) (a b : positive) : M bool :=
  let* na := get_bnum a in
  let* nb := get_bnum b in
  eq_loop fuel (least_significant na) (least_significant nb).

Definition Bnum_ne (fuel : nat) (a b : positive) : M bool :=
  let* r := Bnum_eq fuel a b in ret (negb r).

Fixpoint le_loop (fuel : nat) (cur_block_a cur_block_b : ptr) : M bool :=
  match fuel with
  | O => crash
  | S fuel' =>
      match cur_block_a, cur_block_b with
      | Some _, Some _ =>
          let* ba := get_block cur_block_a in
          let* bb := get_block cur_block_b in
          if negb (val ba =? val bb) then ret (val ba <? val bb)
          else le_loop fuel' (prev ba) (prev bb)
      | _, _ => ret true
      end
  end.

Definition Bnum_le (fuel : nat) (a b : positive) : M bool :=
  let* na := get_bnum a in
  let* nb := get_bnum b in
  if negb (num_blocks na =? num_blocks nb)
  then ret (num_blocks na <? num_blocks nb)
  else le_loop fuel (most_significant na) (most_significant nb).

Fixpoint ge_loop (fuel : nat) (cur_block_a cur_block_b : ptr) : M bool :=
  match fuel with
  | O => crash
  | S fuel' =>
      match cur_block_a, cur_block_b with
      | Some _, Some _ =>
          let* ba := get_block cur_block_a in
          let* bb := get_block cur_block_b in
          if negb (val ba =? val bb) then ret (val ba >? val bb)
          else ge_loop fuel' (prev ba) (prev bb)
      | _, _ => ret true
      end
  end.

Definition Bnum_ge (fuel : nat) (a b : positive) : M bool :=
  let* na := get_bnum a in
  let* nb := get_bnum b in
  if negb (num_blocks na =? num_blocks nb)
  then ret (num_blocks na >? num_blocks nb)
  else ge_loop fuel (most_significant na) (most_significant nb).

Definition Bnum_lt (fuel : nat) (a b : positive) : M bool :=
  let* r := Bnum_ge fuel a b in ret (negb r).

Definition Bnum_gt (fuel : nat) (a b : positive) : M bool :=
  let* r := Bnum_le fuel a b in ret (negb r).

(** [Bnum_sum]: the second loop, then the first loop followed by the choice
    of the operand that is left; there is no step for a carry after them. *)
Fixpoint sum_rest (fuel : nat) (cur_block : ptr) (carry : Z) (sum : positive)
  : M unit :=
  match fuel with
  | O => crash
  | S fuel' =>
      match cur_block with
      | None => ret tt
      | Some _ =>
          let* b := get_block cur_block in
          let block_sum := to_uint64 (val b + carry) in
          let carry := Z.shiftr block_sum BLOCK_SIZE in
          let* _ := add_block sum (low_block block_sum) in
          let* b := get_block cur_block in
          sum_rest fuel' (next b) carry sum
      end
  end.

Fixpoint sum_both (fuel : nat) (cur_block_a cur_block_b : ptr) (carry : Z)
    (sum : positive) : M unit :=
  match fuel with
  | O => crash
  | S fuel' =>
      match cur_block_a, cur_block_b with
      | Some _, Some _ =>
          let* ba := get_block cur_block_a in
          let* bb := get_block cur_block_b in
          let block_sum := to_uint64 (val ba + val bb + carry) in
          let carry := Z.shiftr block_sum BLOCK_SIZE in
          let* _ := add_block sum (low_block block_sum) in
          let* ba := get_block cur_block_a in
          let* bb := get_block cur_block_b in
          sum_both fuel' (next ba) (next bb) carry sum
      | _, _ =>
          let cur_block :=
            match cur_block_a with Some _ => cur_block_a | None => cur_block_b end in
          sum_rest fuel cur_block carry sum
      end
  end.

Definition Bnum_sum (fuel : nat) (a b : positive) : M positive :=
  let* sum := Bnum_create fuel 0 in
  let* na := get_bnum a in
  let* nb := get_bnum b in
  let* _ := sum_both fuel (least_significant na) (least_significant nb) 0 sum in
  ret sum.

(** [Bnum_mult]: the shift zeros, one row of block products with its
    final carry, and the outer loop, which adds the row to the running
    product and releases the old product and the row. *)
Fixpoint shift_loop (fuel : nat) (i shift : Z) (cur_product : positive)
  : M unit :=
  match fuel with
  | O => crash
  | S fuel' =>
      if i <? shift
      then let* _ := add_block cur_product (to_uint32 0) in
           shift_loop fuel' (i + 1) shift cur_product
      else ret tt
  end.

Fixpoint mult_row (fuel : nat) (cur_block_a cur_block_b : ptr) (carry : Z)
    (cur_product : positive) : M unit :=
  match fuel with
  | O => crash
  | S fuel' =>
      match cur_block_b with
      | None =>
          if negb (carry =? 0) then add_block cur_product (to_uint32 carry)
          else ret tt
      | Some _ =>
          let* ba := get_block cur_block_a in
          let* bb := get_block cur_block_b in
          let block_product := to_uint64 (val ba * val bb + carry) in
          let carry := Z.shiftr block_product BLOCK_SIZE in
          let* _ := add_block cur_product (low_block block_product) in
          let* bb := get_block cur_block_b in
          mult_row fuel' cur_block_a (next bb) carry cur_product
      end
  end.

Fixpoint mult_loop (fuel : nat) (cur_block_a : ptr) (b : positive) (shift : Z)
    (product : positive) : M positive :=
  match fuel with
  | O => crash
  | S fuel' =>
      match cur_block_a with
      | None => ret product
      | Some _ =>
          let* cur_product := Bnum_create fuel 0 in
          let* _ := shift_loop fuel 0 shift cur_product in
          let* nb := get_bnum b in
          let* _ := mult_row fuel cur_block_a (least_significant nb) 0
                      cur_product in
          let temp := product in
          let* product := Bnum_sum fuel temp cur_product in
          let* _ := Bnum_destroy fuel temp in
          let* _ := Bnum_destroy fuel cur_product in
          let* ba := get_block cur_block_a in
          mult_loop fuel' (next ba) b (shift + 1) product
      end
  end.

Definition Bnum_mult (fuel : nat) (a b : positive) : M positive :=
  let* product := Bnum_create fuel 0 in
  let* na := get_bnum a in
  mult_loop fuel (least_significant na) b 0 product.

(** [Bnum_pow]: each round multiplies and releases the old accumulator. *)
Fixpoint pow_loop (fuel : nat) (i n : Z) (a result : positive) : M positive :=
  match fuel with
  | O => crash
  | S fuel' =>
      if i <? n
      then let temp := result in
           let* result := Bnum_mult fuel temp a in
           let* _ := Bnum_destroy fuel temp in
           pow_loop fuel' (i + 1) n a result
      else ret result
  end.

Definition Bnum_pow (fuel : nat) (a : positive) (n : Z) : M positive :=
  let* result := Bnum_create fuel 1 in
  pow_loop fuel 0 n a result.

End Mem.

(** ** Reading the store *)

(** [seg_next h p vs]: from [p], following [next], the store [h] holds a
    chain of blocks with the digits [vs], ended by NULL. *)
Fixpoint seg_next (h : gmap positive Mem.cell) (p : option positive)
    (vs : list Z) : Prop :=
  match vs with
  | [] => p = None
  | v :: vs' =>
      exists l nx pv, p = Some l
        /\ h !! l = Some (Mem.Cblock (Mem.mkBlock v nx pv))
        /\ seg_next h nx vs'
  end.

(** The same along [prev]. *)
Fixpoint seg_prev (h : gmap positive Mem.cell) (p : option positive)
    (vs : list Z) : Prop :=
  match vs with
  | [] => p = None
  | v :: vs' =>
      exists l nx pv, p = Some l
        /\ h !! l = Some (Mem.Cblock (Mem.mkBlock v nx pv))
        /\ seg_prev h pv vs'
  end.

(** The block at position [i] of a chain at addresses [ps] with digits
    [vs]: its neighbours are the addresses before and after it. *)
Definition block_at (ps : list positive) (v : Z) (i : nat) : Mem.Block :=
  Mem.mkBlock v (ps !! S i) (match i with O => None | S j => ps !! j end).

(** [is_bnum h r ps vs]: in [h], [r] is a [Bnum] whose blocks are the cells
    at the distinct addresses [ps], least significant first, holding the
    digits [vs], linked both ways, with the count cached in [num_blocks]. *)
Definition is_bnum (h : gmap positive Mem.cell) (r : positive)
    (ps : list positive) (vs : list Z) : Prop :=
  h !! r = Some (Mem.Cbnum (Mem.mkBnum (Z.of_nat (length ps)) (head ps) (last ps)))
  /\ length ps = length vs
  /\ NoDup ps
  /\ forall (i : nat) (l : positive),
       ps !! i = Some l ->
       exists v, vs !! i = Some v
         /\ h !! l = Some (Mem.Cblock (block_at ps v i)).

(** [fresh_bnum h0 h r ps vs]: [h] extends [h0] without changing any cell of
    [h0], and holds at [r] a [Bnum] all of whose storage is outside [h0]. *)
Definition fresh_bnum (h0 h : gmap positive Mem.cell) (r : positive)
    (ps : list positive) (vs : list Z) : Prop :=
  is_bnum h r ps vs
  /\ h0 ⊆ h
  /\ h0 !! r = None
  /\ forall l : positive, l ∈ ps -> h0 !! l = None.

(** The list-level number with digits [vs]. *)
Definition of_digits (vs : list Z) : Bnum := mkBnum (Z.of_nat (length vs)) vs.

(** What a caller sees after an operation on [a] and [b] that returns [r]:
    every cell of the old store [h] is still there with its content, so the
    operands are as before; [r] is a [Bnum] with digits [vr] whose cells
    were not allocated in [h] and are none of the operands' cells. *)
Definition fresh_result (h h' : gmap positive Mem.cell) (a b : positive)
    (pa pb : list positive) (va vb : list Z) (r : positive) (vr : list Z)
  : Prop :=
  h ⊆ h'
  /\ is_bnum h' a pa va
  /\ is_bnum h' b pb vb
  /\ exists pr : list positive,
       is_bnum h' r pr vr
       /\ forall l : positive, l ∈ r :: pr ->
            h !! l = None /\ (l ∉ a :: pa) /\ (l ∉ b :: pb).

(** A store with the number 5 at address 1 (one block, at 2) and the
    number 0 at address 3. *)
Definition two_numbers : gmap positive Mem.cell :=
  <[1%positive := Mem.Cbnum (Mem.mkBnum 1 (Some 2%positive) (Some 2%positive))]>
    (<[2%positive := Mem.Cblock (Mem.mkBlock 5 None None)]>
       (<[3%positive := Mem.Cbnum (Mem.mkBnum 0 None None)]> ∅)).

(** ** Printing *)

(** The characters [printf("%032b", v)] writes for an unsigned [v]: the
    binary digits, most significant first, padded with zeros to 32. *)
Definition printf_032b (v : Z) : list ascii :=
  let width := Z.to_nat (Z.max 32 (Z.log2 v + 1)) in
  map (fun i : nat => if Z.testbit v (Z.of_nat i) then "1"%char else "0"%char)
      (rev (seq 0 width)).

(** The characters [printf("%d", n)] writes. *)
Definition printf_d (n : Z) : string := NilZero.string_of_int (Z.to_int n).

(** The loop of [Bnum_print], over the chain from [most_significant]
    along [prev]. *)
Fixpoint print_loop (cur : list Z) : list ascii :=
  match cur with
  | [] => []
  | v :: prev => printf_032b v ++ print_loop prev
  end.

(** [Bnum_print]: what the three [printf] calls send to stdout. *)
Definition Bnum_print (big_num : Bnum) : string :=
  String.string_of_list_ascii (print_loop (rev (blocks big_num)))
  +:+ " (blocks: " +:+ printf_d (num_blocks big_num) +:+ ")"
  +:+ String "010"%char EmptyString.

(** Reading a run of binary digits, most significant first. *)
Definition read_binary (cs : list ascii) : Z :=
  fold_left (fun acc c => 2 * acc + (if Ascii.eqb c "1"%char then 1 else 0))
    cs 0.

(** ** Stores that differ by one number *)

(** [exact_bnum h0 h r ps vs]: [h] is [h0] with, in addition, a [Bnum] at
    [r] with blocks at [ps] and digits [vs], and nothing else: outside the
    cells of that number the two stores agree. *)
Definition exact_bnum (h0 h : gmap positive Mem.cell) (r : positive)
    (ps : list positive) (vs : list Z) : Prop :=
  fresh_bnum h0 h r ps vs
  /\ forall l : positive, l ∉ r :: ps -> h !! l = h0 !! l.

(** * Properties *)

(** ** Machine arithmetic *)

Lemma low_block_mod (x : Z) : low_block x = x mod 2 ^ 32.
Proof.
  unfold low_block, to_uint32.
  change BLOCK_MASK with (Z.ones 32).
  rewrite Z.land_ones by lia.
  now rewrite !Z.mod_mod by lia.
Qed.

Lemma low_block_range (x : Z) : 0 <= low_block x < 2 ^ 32.
Proof. rewrite low_block_mod. apply Z.mod_pos_bound. lia. Qed.

Lemma shiftr_block (x : Z) : Z.shiftr x BLOCK_SIZE = x / 2 ^ 32.
Proof. unfold BLOCK_SIZE. now rewrite Z.shiftr_div_pow2 by lia. Qed.

Lemma to_uint64_small (x : Z) : 0 <= x < 2 ^ 64 -> to_uint64 x = x.
Proof. intros H. unfold to_uint64. now apply Z.mod_small. Qed.

Lemma to_uint32_small (x : Z) : 0 <= x < 2 ^ 32 -> to_uint32 x = x.
Proof. intros H. unfold to_uint32. now apply Z.mod_small. Qed.

(** ** Digit lists and their values *)

Lemma value_of_app (l : list Z) (d : Z) :
  value_of (l ++ [d]) = value_of l + d * 2 ^ (32 * Z.of_nat (length l)).
Proof.
  induction l as [|x l IH]; simpl value_of.
  - simpl. lia.
  - rewrite IH. change (length (x :: l)) with (S (length l)).
    replace (32 * Z.of_nat (S (length l))) with (32 + 32 * Z.of_nat (length l))
      by lia.
    rewrite Z.pow_add_r by lia. ring.
Qed.

Lemma value_of_bound (l : list Z) :
  digits_ok l -> 0 <= value_of l < 2 ^ (32 * Z.of_nat (length l)).
Proof.
  induction 1 as [|d l Hd _ IH]; simpl value_of.
  - simpl. lia.
  - change (length (d :: l)) with (S (length l)).
    replace (32 * Z.of_nat (S (length l))) with (32 + 32 * Z.of_nat (length l))
      by lia.
    rewrite Z.pow_add_r by lia.
    set (p := 2 ^ (32 * Z.of_nat (length l))) in *. nia.
Qed.

Lemma digits_ok_app (l : list Z) (d : Z) :
  digits_ok (l ++ [d]) <-> digits_ok l /\ 0 <= d < 2 ^ 32.
Proof.
  unfold digits_ok. rewrite Forall_app, Forall_singleton. tauto.
Qed.

Lemma last_snoc_Z (l : list Z) (d : Z) : last (l ++ [d]) = Some d.
Proof. apply last_snoc. Qed.

(** A canonical non-empty list of k digits is worth at least 2^(32 (k-1)). *)
Lemma value_of_lower (l : list Z) :
  digits_ok l -> last l <> Some 0 -> l <> [] ->
  2 ^ (32 * (Z.of_nat (length l) - 1)) <= value_of l.
Proof.
  destruct l as [|d l _] using rev_ind; [congruence|].
  intros [Hl Hd]%digits_ok_app Hlast _.
  rewrite last_snoc_Z in Hlast.
  rewrite value_of_app, length_app. simpl length.
  replace (Z.of_nat (length l + 1) - 1) with (Z.of_nat (length l)) by lia.
  pose proof (value_of_bound l Hl).
  assert (d <> 0) by congruence.
  set (p := 2 ^ (32 * Z.of_nat (length l))) in *. nia.
Qed.

(** ** Construction *)

Lemma create_loop_S (fuel : nat) (num : Z) (big_num : Bnum) :
  create_loop (S fuel) num big_num =
  if 0 <? num
  then create_loop fuel (to_uint64 (Z.shiftr num BLOCK_SIZE))
         (add_block big_num (low_block num))
  else big_num.
Proof. reflexivity. Qed.

(** A 64-bit value leaves the loop of [Bnum_create] through its guard after
    at most two rounds: more fuel than three changes nothing. *)
Lemma create_loop_fuel (fuel : nat) (num : Z) (big_num : Bnum) :
  0 <= num < 2 ^ 64 ->
  create_loop (3 + fuel) num big_num = create_loop 3 num big_num.
Proof.
  intros Hnum.
  change (3 + fuel)%nat with (S (S (S fuel))).
  rewrite !create_loop_S.
  destruct (0 <? num) eqn:H1; [|reflexivity].
  rewrite shiftr_block.
  assert (0 <= num / 2 ^ 32 < 2 ^ 32) as Hq.
  { split; [apply Z.div_pos; lia|apply Z.div_lt_upper_bound; lia]. }
  rewrite (to_uint64_small (num / 2 ^ 32)) by lia.
  destruct (0 <? num / 2 ^ 32) eqn:H2; [|reflexivity].
  rewrite shiftr_block.
  rewrite (Z.div_small (num / 2 ^ 32)) by lia.
  change (to_uint64 0) with 0.
  destruct fuel; reflexivity.
Qed.

Lemma Bnum_create_0 : Bnum_create 0 = mkBnum 0 [].
Proof. reflexivity. Qed.

Lemma Bnum_create_small (v : Z) :
  0 < v < 2 ^ 32 -> Bnum_create v = mkBnum 1 [v].
Proof.
  intros Hv. unfold Bnum_create.
  destruct (Z.eqb_spec v 0) as [->|_]; [lia|].
  change 64%nat with (3 + 61)%nat.
  rewrite create_loop_fuel by lia.
  rewrite !create_loop_S.
  destruct (Z.ltb_spec 0 v); [|lia].
  rewrite shiftr_block, (Z.div_small v) by lia.
  change (to_uint64 0) with 0. simpl (0 <? 0).
  unfold add_block; simpl.
  now rewrite low_block_mod, Z.mod_small by lia.
Qed.

Lemma Bnum_create_large (v : Z) :
  2 ^ 32 <= v < 2 ^ 64 ->
  Bnum_create v = mkBnum 2 [v mod 2 ^ 32; v / 2 ^ 32].
Proof.
  intros Hv. unfold Bnum_create.
  destruct (Z.eqb_spec v 0) as [->|_]; [lia|].
  change 64%nat with (3 + 61)%nat.
  rewrite create_loop_fuel by lia.
  rewrite !create_loop_S.
  destruct (Z.ltb_spec 0 v); [|lia].
  rewrite shiftr_block.
  assert (0 < v / 2 ^ 32 < 2 ^ 32) as Hq.
  { split; [apply Z.div_str_pos; lia|apply Z.div_lt_upper_bound; lia]. }
  rewrite (to_uint64_small (v / 2 ^ 32)) by lia.
  destruct (Z.ltb_spec 0 (v / 2 ^ 32)); [|lia].
  rewrite shiftr_block, (Z.div_small (v / 2 ^ 32)) by lia.
  change (to_uint64 0) with 0. simpl (0 <? 0).
  unfold add_block; simpl.
  now rewrite !low_block_mod, (Z.mod_small (v / 2 ^ 32)) by lia.
Qed.

(** The digits [Bnum_create] leaves: nothing for 0, [v] itself below 2^32,
    the low and the high half otherwise; canonical, and worth [v]. *)
Lemma Bnum_create_digits (v : Z) :
  0 <= v < 2 ^ 64 ->
  blocks (Bnum_create v) =
    (if v =? 0 then []
     else if v <? 2 ^ 32 then [v]
     else [v mod 2 ^ 32; v / 2 ^ 32])
  /\ canonical (Bnum_create v)
  /\ value (Bnum_create v) = v.
Proof.
  intros Hv.
  destruct (Z.eqb_spec v 0) as [->|Hne].
  - rewrite Bnum_create_0. unfold canonical, wf, count_ok, digits_ok, value.
    simpl. repeat split; try constructor; congruence.
  - destruct (Z.ltb_spec v (2 ^ 32)) as [Hlt|Hge].
    + rewrite Bnum_create_small by lia.
      unfold canonical, wf, count_ok, digits_ok, value. simpl.
      repeat split; try lia.
      * repeat constructor; lia.
      * intros [=]. lia.
    + rewrite Bnum_create_large by lia.
      assert (0 < v / 2 ^ 32 < 2 ^ 32) as Hq.
      { split; [apply Z.div_str_pos; lia|apply Z.div_lt_upper_bound; lia]. }
      pose proof (Z.mod_pos_bound v (2 ^ 32) ltac:(lia)) as Hm.
      unfold canonical, wf, count_ok, digits_ok, value. simpl.
      repeat split; try lia.
      * repeat constructor; lia.
      * intros [=]. lia.
      * pose proof (Z.div_mod v (2 ^ 32) ltac:(lia)). lia.
Qed.


(** ** Comparisons *)

Lemma eq_loop_spec (la lb : list Z) : eq_loop la lb = true <-> la = lb.
Proof.
  revert lb. induction la as [|va la IH]; intros [|vb lb]; simpl;
    try (split; congruence).
  destruct (Z.eqb_spec va vb) as [->|Hne]; simpl.
  - rewrite IH. split; congruence.
  - split; congruence.
Qed.

Lemma eq_loop_length (la lb : list Z) :
  length la <> length lb -> eq_loop la lb = false.
Proof.
  intros Hlen. destruct (eq_loop la lb) eqn:E; [|reflexivity].
  apply eq_loop_spec in E. congruence.
Qed.

Lemma ge_loop_le_loop (la lb : list Z) : ge_loop la lb = le_loop lb la.
Proof.
  revert lb. induction la as [|va la IH]; intros [|vb lb]; simpl; trivial.
  rewrite (Z.eqb_sym vb va), Z.gtb_ltb.
  destruct (va =? vb); simpl; auto.
Qed.

(** On chains of one length the two scans agree exactly on equal chains,
    and one of them always succeeds. *)
Lemma le_loop_total (la lb : list Z) :
  le_loop la lb = true \/ le_loop lb la = true.
Proof.
  revert lb. induction la as [|va la IH]; intros [|vb lb]; simpl; auto.
  rewrite (Z.eqb_sym vb va).
  destruct (Z.eqb_spec va vb) as [->|Hne]; simpl; auto.
  destruct (Z.ltb_spec va vb), (Z.ltb_spec vb va); auto; lia.
Qed.

Lemma le_loop_antisym (la lb : list Z) :
  length la = length lb ->
  le_loop la lb = true -> le_loop lb la = true -> la = lb.
Proof.
  revert lb. induction la as [|va la IH]; intros [|vb lb]; simpl;
    try discriminate; trivial.
  intros [= Hlen]. rewrite (Z.eqb_sym vb va).
  destruct (Z.eqb_spec va vb) as [->|Hne]; simpl.
  - intros H1 H2. f_equal. now apply IH.
  - intros H1%Z.ltb_lt H2%Z.ltb_lt. lia.
Qed.

Lemma le_loop_refl (l : list Z) : le_loop l l = true.
Proof. induction l as [|v l IH]; simpl; trivial. now rewrite Z.eqb_refl. Qed.

(** The scan is decided by the first position, from the top, at which the
    two chains differ. *)
Lemma le_loop_first_diff (top ra rb : list Z) (da db : Z) :
  da <> db ->
  le_loop (top ++ da :: ra) (top ++ db :: rb) = (da <? db).
Proof.
  intros Hne. induction top as [|v top IH]; simpl.
  - destruct (Z.eqb_spec da db); [contradiction|reflexivity].
  - now rewrite Z.eqb_refl.
Qed.

(** Scanning from the most significant digit compares the values. *)
Lemma le_loop_value (la lb : list Z) :
  length la = length lb -> digits_ok la -> digits_ok lb ->
  (le_loop (rev la) (rev lb) = true <-> value_of la <= value_of lb).
Proof.
  revert lb. induction la as [|da la IH] using rev_ind;
    intros lb; destruct lb as [|db lb _] using rev_ind;
    rewrite ?length_app; simpl length; try lia.
  - simpl. intros _ _ _. split; [lia|trivial].
  - intros Hlen [Ha Hda]%digits_ok_app [Hb Hdb]%digits_ok_app.
    assert (length la = length lb) as Hlen' by lia.
    rewrite !rev_unit, !value_of_app, Hlen'. simpl le_loop.
    pose proof (value_of_bound la Ha) as Ba.
    pose proof (value_of_bound lb Hb) as Bb.
    rewrite Hlen' in Ba.
    set (p := 2 ^ (32 * Z.of_nat (length lb))) in *.
    destruct (Z.eqb_spec da db) as [->|Hne]; simpl.
    + rewrite (IH lb Hlen' Ha Hb). lia.
    + rewrite Z.ltb_lt. nia.
Qed.

(** With canonical digits, fewer blocks means a smaller value. *)
Lemma shorter_is_smaller (la lb : list Z) :
  digits_ok la -> digits_ok lb -> last lb <> Some 0 ->
  (length la < length lb)%nat -> value_of la < value_of lb.
Proof.
  intros Ha Hb Hlast Hlen.
  pose proof (value_of_bound la Ha) as Ba.
  assert (lb <> []) as Hnil by (intros ->; simpl in Hlen; lia).
  pose proof (value_of_lower lb Hb Hlast Hnil) as Bb.
  assert (2 ^ (32 * Z.of_nat (length la))
          <= 2 ^ (32 * (Z.of_nat (length lb) - 1))).
  { apply Z.pow_le_mono_r; lia. }
  lia.
Qed.

Lemma Bnum_le_value (a b : Bnum) :
  canonical a -> canonical b ->
  (Bnum_le a b = true <-> value a <= value b).
Proof.
  intros [[Ca Da] La] [[Cb Db] Lb]. unfold Bnum_le, value.
  red in Ca, Cb. rewrite Ca, Cb.
  destruct (Z.eqb_spec (Z.of_nat (length (blocks a)))
              (Z.of_nat (length (blocks b)))) as [Heq|Hne]; simpl.
  - apply le_loop_value; trivial. lia.
  - rewrite Z.ltb_lt.
    destruct (Nat.lt_total (length (blocks a)) (length (blocks b)))
      as [Hlt|[Heq|Hgt]]; [| lia |].
    + pose proof (shorter_is_smaller _ _ Da Db Lb Hlt). lia.
    + pose proof (shorter_is_smaller _ _ Db Da La Hgt). lia.
Qed.

Lemma Bnum_ge_le (a b : Bnum) : Bnum_ge a b = Bnum_le b a.
Proof.
  unfold Bnum_ge, Bnum_le.
  rewrite (Z.eqb_sym (num_blocks b)), Z.gtb_ltb, ge_loop_le_loop.
  reflexivity.
Qed.

Lemma Bnum_le_count_lt (a b : Bnum) :
  num_blocks a < num_blocks b -> Bnum_le a b = true /\ Bnum_ge a b = false.
Proof.
  intros Hlt. unfold Bnum_le, Bnum_ge.
  destruct (Z.eqb_spec (num_blocks a) (num_blocks b)); [lia|]. simpl.
  split; [apply Z.ltb_lt; lia|]. rewrite Z.gtb_ltb. apply Z.ltb_ge. lia.
Qed.

Lemma Bnum_le_first_diff (a b : Bnum) (low_a low_b top : list Z) (da db : Z) :
  num_blocks a = num_blocks b ->
  blocks a = low_a ++ da :: top -> blocks b = low_b ++ db :: top ->
  da <> db ->
  Bnum_le a b = (da <? db) /\ Bnum_ge a b = (da >? db).
Proof.
  intros Hn Ha Hb Hne.
  assert (forall l d, rev (l ++ d :: top) = rev top ++ d :: rev l) as Hrev.
  { intros l d. rewrite rev_app_distr. simpl. now rewrite <- app_assoc. }
  rewrite Bnum_ge_le. unfold Bnum_le.
  rewrite <- Hn, Z.eqb_refl, Ha, Hb, !Hrev. simpl.
  rewrite !le_loop_first_diff by congruence.
  now rewrite Z.gtb_ltb.
Qed.

(** C4.  On canonical operands [Bnum_le] and [Bnum_ge] decide the order of
    the values.  The operand with fewer blocks is the strictly smaller one,
    whatever the digits; with equal counts the most significant position at
    which the digits differ gives the answer, and equal chains have equal
    values and satisfy both comparisons. *)
Theorem Bnum_le_ge_correct (a b : Bnum) :
  canonical a -> canonical b ->
  (Bnum_le a b = true <-> value a <= value b)
  /\ (Bnum_ge a b = true <-> value a >= value b)
  /\ (num_blocks a < num_blocks b ->
      value a < value b /\ Bnum_le a b = true /\ Bnum_ge a b = false)
  /\ (forall (low_a low_b top : list Z) (da db : Z),
      num_blocks a = num_blocks b ->
      blocks a = low_a ++ da :: top -> blocks b = low_b ++ db :: top ->
      da <> db ->
      Bnum_le a b = (da <? db) /\ Bnum_ge a b = (da >? db)
      /\ (da < db <-> value a < value b))
  /\ (blocks a = blocks b ->
      value a = value b /\ Bnum_le a b = true /\ Bnum_ge a b = true).
Proof.
  intros Ha Hb.
  pose proof (Bnum_le_value a b Ha Hb) as Hle.
  pose proof (Bnum_le_value b a Hb Ha) as Hge.
  rewrite <- Bnum_ge_le in Hge.
  repeat split.
  - apply Hle.
  - apply Hle.
  - intros H. apply Hge in H. lia.
  - intros H. apply Hge. lia.
  - destruct (Bnum_le_count_lt a b H) as [_ H2].
    destruct (Z.lt_ge_cases (value a) (value b)) as [|Hv]; trivial.
    assert (Bnum_ge a b = true) by (apply Hge; lia). congruence.
  - now apply Bnum_le_count_lt.
  - now apply Bnum_le_count_lt.
  - eapply Bnum_le_first_diff; eauto.
  - eapply Bnum_le_first_diff; eauto.
  - intros Hlt.
    destruct (Bnum_le_first_diff a b _ _ _ _ _ H H0 H1 H2) as [_ E].
    destruct (Z.lt_ge_cases (value a) (value b)) as [|Hv]; trivial.
    assert (Bnum_ge a b = true) as E' by (apply Hge; lia).
    rewrite E, Z.gtb_ltb in E'. apply Z.ltb_lt in E'. lia.
  - intros Hlt.
    destruct (Bnum_le_first_diff a b _ _ _ _ _ H H0 H1 H2) as [E _].
    assert (Bnum_le a b = true) as E' by (apply Hle; lia).
    rewrite E in E'. apply Z.ltb_lt in E'. lia.
  - unfold value. congruence.
  - apply Hle. unfold value. rewrite H. lia.
  - apply Hge. unfold value. rewrite H. lia.
Qed.

Lemma Bnum_le_ge_correct_witness :
  (Bnum_le (mkBnum 2 [7; 4294967295]) (mkBnum 2 [9; 3]) = true <->
   value (mkBnum 2 [7; 4294967295]) <= value (mkBnum 2 [9; 3]))
  /\ (Bnum_ge (mkBnum 2 [7; 4294967295]) (mkBnum 2 [9; 3]) = true <->
      value (mkBnum 2 [7; 4294967295]) >= value (mkBnum 2 [9; 3])).
Proof.
  assert (canonical (mkBnum 2 [7; 4294967295])) as Ha.
  { unfold canonical, wf, count_ok, digits_ok. simpl.
    repeat split; [repeat constructor; lia | intros [=]]. }
  assert (canonical (mkBnum 2 [9; 3])) as Hb.
  { unfold canonical, wf, count_ok, digits_ok. simpl.
    repeat split; [repeat constructor; lia | intros [=]]. }
  destruct (Bnum_le_ge_correct _ _ Ha Hb) as (H1 & H2 & _).
  exact (conj H1 H2).
Defined.

(** ** The six comparisons together *)

Lemma Bnum_eq_le_ge (a b : Bnum) :
  count_ok a -> count_ok b ->
  Bnum_eq a b = Bnum_le a b && Bnum_ge a b.
Proof.
  intros Ca Cb. rewrite Bnum_ge_le. unfold Bnum_eq, Bnum_le.
  red in Ca, Cb. rewrite Ca, Cb, (Z.eqb_sym (Z.of_nat (length (blocks b)))).
  destruct (Z.eqb_spec (Z.of_nat (length (blocks a)))
              (Z.of_nat (length (blocks b)))) as [Heq|Hne]; simpl.
  - destruct (le_loop (rev (blocks a)) (rev (blocks b))) eqn:E1;
      destruct (le_loop (rev (blocks b)) (rev (blocks a))) eqn:E2; simpl.
    + apply eq_loop_spec.
      assert (rev (blocks a) = rev (blocks b)) as Hrev.
      { apply le_loop_antisym; trivial. rewrite !length_rev. lia. }
      apply (f_equal (@rev Z)) in Hrev. now rewrite !rev_involutive in Hrev.
    + destruct (eq_loop (blocks a) (blocks b)) eqn:E; trivial.
      apply eq_loop_spec in E. rewrite E, le_loop_refl in E2. discriminate.
    + destruct (eq_loop (blocks a) (blocks b)) eqn:E; trivial.
      apply eq_loop_spec in E. rewrite E, le_loop_refl in E1. discriminate.
    + destruct (eq_loop (blocks a) (blocks b)) eqn:E; trivial.
      apply eq_loop_spec in E. rewrite E, le_loop_refl in E1. discriminate.
  - rewrite eq_loop_length by lia.
    destruct (Z.ltb_spec (Z.of_nat (length (blocks a)))
                (Z.of_nat (length (blocks b))));
      destruct (Z.ltb_spec (Z.of_nat (length (blocks b)))
                  (Z.of_nat (length (blocks a)))); simpl; trivial; lia.
Qed.

Lemma Bnum_le_or_ge (a b : Bnum) : Bnum_le a b || Bnum_ge a b = true.
Proof.
  rewrite Bnum_ge_le. unfold Bnum_le.
  rewrite (Z.eqb_sym (num_blocks b)).
  destruct (Z.eqb_spec (num_blocks a) (num_blocks b)) as [Heq|Hne]; simpl.
  - destruct (le_loop_total (rev (blocks a)) (rev (blocks b))) as [->| ->];
      trivial. apply orb_true_r.
  - destruct (Z.ltb_spec (num_blocks a) (num_blocks b));
      destruct (Z.ltb_spec (num_blocks b) (num_blocks a)); simpl; trivial; lia.
Qed.

(** C5.  [Bnum_lt] is the negation of [Bnum_ge] and [Bnum_gt] that of
    [Bnum_le]; of [a < b], [a == b], [a > b] exactly one answers true; and
    [a <= b] answers true exactly when [a < b] or [a == b] does. *)
Theorem comparisons_consistent (a b : Bnum) :
  count_ok a -> count_ok b ->
  Bnum_lt a b = negb (Bnum_ge a b)
  /\ Bnum_gt a b = negb (Bnum_le a b)
  /\ ((Bnum_lt a b = true /\ Bnum_eq a b = false /\ Bnum_gt a b = false)
      \/ (Bnum_lt a b = false /\ Bnum_eq a b = true /\ Bnum_gt a b = false)
      \/ (Bnum_lt a b = false /\ Bnum_eq a b = false /\ Bnum_gt a b = true))
  /\ (Bnum_le a b = true <-> Bnum_lt a b = true \/ Bnum_eq a b = true).
Proof.
  intros Ca Cb.
  pose proof (Bnum_eq_le_ge a b Ca Cb) as Heq.
  pose proof (Bnum_le_or_ge a b) as Hor.
  unfold Bnum_lt, Bnum_gt.
  destruct (Bnum_le a b), (Bnum_ge a b), (Bnum_eq a b);
    simpl in *; try discriminate; intuition congruence.
Qed.

Lemma comparisons_consistent_witness :
  Bnum_lt (mkBnum 1 [5]) (mkBnum 2 [0; 1])
  = negb (Bnum_ge (mkBnum 1 [5]) (mkBnum 2 [0; 1]))
  /\ Bnum_gt (mkBnum 1 [5]) (mkBnum 2 [0; 1])
     = negb (Bnum_le (mkBnum 1 [5]) (mkBnum 2 [0; 1])).
Proof.
  destruct (comparisons_consistent (mkBnum 1 [5]) (mkBnum 2 [0; 1]))
    as (H1 & H2 & _); [reflexivity | reflexivity |].
  exact (conj H1 H2).
Defined.

(** ** Addition: block count *)

Lemma sum_rest_count (l : list Z) (carry : Z) (sum : Bnum) :
  num_blocks (sum_rest l carry sum) = num_blocks sum + Z.of_nat (length l)
  /\ length (blocks (sum_rest l carry sum))
     = (length (blocks sum) + length l)%nat.
Proof.
  revert carry sum. induction l as [|v l IH]; intros carry sum; simpl.
  - split; lia.
  - destruct (IH (Z.shiftr (to_uint64 (v + carry)) BLOCK_SIZE)
                (add_block sum (low_block (to_uint64 (v + carry)))))
      as [-> ->].
    simpl. rewrite length_app. simpl. split; lia.
Qed.

Lemma sum_both_count (la lb : list Z) (carry : Z) (sum : Bnum) :
  num_blocks (sum_both la lb carry sum)
  = num_blocks sum + Z.of_nat (Nat.max (length la) (length lb))
  /\ length (blocks (sum_both la lb carry sum))
     = (length (blocks sum) + Nat.max (length la) (length lb))%nat.
Proof.
  revert lb carry sum.
  induction la as [|va la IH]; intros [|vb lb] carry sum.
  - simpl. split; lia.
  - change (sum_both [] (vb :: lb) carry sum)
      with (sum_rest (vb :: lb) carry sum).
    apply sum_rest_count.
  - change (sum_both (va :: la) [] carry sum)
      with (sum_rest (va :: la) carry sum).
    rewrite Nat.max_0_r. apply sum_rest_count.
  - simpl sum_both.
    destruct (IH lb (Z.shiftr (to_uint64 (va + vb + carry)) BLOCK_SIZE)
                (add_block sum (low_block (to_uint64 (va + vb + carry)))))
      as [-> ->].
    simpl. rewrite length_app. simpl. split; lia.
Qed.

(** C10.  The sum has exactly as many blocks as the longer operand: one
    block is emitted per position and no block is added for a carry out of
    the last position. *)
Theorem Bnum_sum_count (a b : Bnum) :
  count_ok a -> count_ok b ->
  num_blocks (Bnum_sum a b) = Z.max (num_blocks a) (num_blocks b)
  /\ length (blocks (Bnum_sum a b))
     = Nat.max (length (blocks a)) (length (blocks b))
  /\ count_ok (Bnum_sum a b).
Proof.
  intros Ca Cb. red in Ca, Cb. unfold Bnum_sum, count_ok.
  destruct (sum_both_count (blocks a) (blocks b) 0 (Bnum_create 0))
    as [-> ->].
  rewrite Bnum_create_0, Ca, Cb. simpl. lia.
Qed.

Lemma Bnum_sum_count_witness :
  num_blocks (Bnum_sum (Bnum_create 4294967295) (Bnum_create 1)) = 1.
Proof.
  destruct (Bnum_sum_count (Bnum_create 4294967295) (Bnum_create 1))
    as (H & _); [reflexivity | reflexivity |].
  exact H.
Defined.

(** ** Addition: value *)

Lemma carry_step (x : Z) :
  0 <= x < 2 ^ 33 ->
  to_uint64 x = x /\ 0 <= Z.shiftr (to_uint64 x) BLOCK_SIZE <= 1.
Proof.
  intros Hx. rewrite to_uint64_small by lia. split; trivial.
  rewrite shiftr_block. split.
  - apply Z.div_pos; lia.
  - assert (x / 2 ^ 32 < 2) by (apply Z.div_lt_upper_bound; lia). lia.
Qed.

Lemma pow32_S (n : nat) :
  2 ^ (32 * Z.of_nat (S n)) = 2 ^ 32 * 2 ^ (32 * Z.of_nat n).
Proof.
  replace (32 * Z.of_nat (S n)) with (32 + 32 * Z.of_nat n) by lia.
  apply Z.pow_add_r; lia.
Qed.

Lemma pow32_pos (n : nat) : 0 < 2 ^ (32 * Z.of_nat n).
Proof. apply Z.pow_pos_nonneg; lia. Qed.

(** One position of a carry chain: the digit kept and the carry passed on
    rebuild the sum modulo the remaining width. *)
Lemma mod_digit_step (t x p : Z) :
  0 < p ->
  (t + 2 ^ 32 * x) mod (2 ^ 32 * p)
  = t mod 2 ^ 32 + 2 ^ 32 * ((x + t / 2 ^ 32) mod p).
Proof.
  intros Hp. rewrite Z.rem_mul_r by lia.
  rewrite (Z.mul_comm (2 ^ 32) x), Z.mod_add, Z.div_add by lia.
  now rewrite (Z.add_comm (t / 2 ^ 32)).
Qed.

Lemma sum_rest_value (l : list Z) (carry : Z) (sum : Bnum) :
  digits_ok l -> 0 <= carry <= 1 ->
  value (sum_rest l carry sum)
  = value sum + 2 ^ (32 * Z.of_nat (length (blocks sum)))
                * ((value_of l + carry) mod 2 ^ (32 * Z.of_nat (length l))).
Proof.
  intros Hl. revert carry sum.
  induction Hl as [|v l Hv Hl IH]; intros carry sum Hc.
  - simpl. rewrite Z.mod_1_r. lia.
  - simpl sum_rest.
    destruct (carry_step (v + carry) ltac:(lia)) as [E Hc'].
    rewrite IH by exact Hc'. rewrite E. clear IH.
    unfold value, add_block. simpl blocks.
    rewrite value_of_app, length_app. simpl length.
    rewrite low_block_mod, shiftr_block.
    replace (length (blocks sum) + 1)%nat with (S (length (blocks sum)))
      by lia.
    rewrite !pow32_S. simpl value_of.
    replace (v + 2 ^ 32 * value_of l + carry)
      with ((v + carry) + 2 ^ 32 * value_of l) by ring.
    rewrite mod_digit_step by apply pow32_pos. ring.
Qed.

Lemma sum_both_value (la lb : list Z) (carry : Z) (sum : Bnum) :
  digits_ok la -> digits_ok lb -> 0 <= carry <= 1 ->
  value (sum_both la lb carry sum)
  = value sum
    + 2 ^ (32 * Z.of_nat (length (blocks sum)))
      * ((value_of la + value_of lb + carry)
         mod 2 ^ (32 * Z.of_nat (Nat.max (length la) (length lb)))).
Proof.
  intros Ha. revert lb carry sum.
  induction Ha as [|va la Hva Ha IH]; intros lb carry sum Hb Hc.
  - replace (sum_both [] lb carry sum) with (sum_rest lb carry sum)
      by (destruct lb; reflexivity).
    rewrite sum_rest_value by trivial. simpl. reflexivity.
  - destruct Hb as [|vb lb Hvb Hb].
    + change (sum_both (va :: la) [] carry sum)
        with (sum_rest (va :: la) carry sum).
      rewrite sum_rest_value by (trivial; constructor; trivial).
      rewrite Nat.max_0_r. simpl value_of. now rewrite Z.add_0_r.
    + simpl sum_both.
      destruct (carry_step (va + vb + carry) ltac:(lia)) as [E Hc'].
      rewrite IH by (trivial; exact Hc'). rewrite E. clear IH.
      unfold value, add_block. simpl blocks.
      rewrite value_of_app, length_app. simpl length.
      rewrite low_block_mod, shiftr_block.
      replace (length (blocks sum) + 1)%nat with (S (length (blocks sum)))
        by lia.
      change (Nat.max (S (length la)) (S (length lb)))
        with (S (Nat.max (length la) (length lb))).
      rewrite !pow32_S. simpl value_of.
      replace (va + 2 ^ 32 * value_of la + (vb + 2 ^ 32 * value_of lb) + carry)
        with ((va + vb + carry) + 2 ^ 32 * (value_of la + value_of lb))
        by ring.
      rewrite mod_digit_step by apply pow32_pos. ring.
Qed.

(** What [Bnum_sum] computes: the sum of the values reduced modulo the
    width of the longer operand. *)
Lemma Bnum_sum_value (a b : Bnum) :
  digits_ok (blocks a) -> digits_ok (blocks b) ->
  value (Bnum_sum a b)
  = (value a + value b)
    mod 2 ^ (32 * Z.of_nat (Nat.max (length (blocks a)) (length (blocks b)))).
Proof.
  intros Ha Hb. unfold Bnum_sum.
  rewrite sum_both_value by (trivial; lia).
  rewrite Bnum_create_0. unfold value. simpl. rewrite Z.add_0_r.
  destruct (_ mod _); reflexivity.
Qed.

(** The defect of [Bnum_sum]: the carry out of the last position is dropped,
    so the value is the true sum only when that sum fits the longer
    operand's width. *)
Lemma Bnum_sum_exact_iff (a b : Bnum) :
  digits_ok (blocks a) -> digits_ok (blocks b) ->
  (value (Bnum_sum a b) = value a + value b <->
   value a + value b
   < 2 ^ (32 * Z.of_nat (Nat.max (length (blocks a)) (length (blocks b))))).
Proof.
  intros Ha Hb. rewrite Bnum_sum_value by trivial.
  pose proof (value_of_bound _ Ha). pose proof (value_of_bound _ Hb).
  set (p := 2 ^ (32 * Z.of_nat (Nat.max _ _))).
  assert (0 < p) by apply pow32_pos.
  unfold value in *. split.
  - intros E. rewrite <- E. apply Z.mod_pos_bound. lia.
  - intros Hlt. apply Z.mod_small. lia.
Qed.

(** C1.  At [2^32 - 1] plus [1] the code returns the single block [0]:
    the final carry is not appended, the count stays 1 and the value is 0,
    where the sum of the operands' values is 2^32. *)
Theorem Bnum_sum_drops_final_carry :
  Bnum_sum (Bnum_create (2 ^ 32 - 1)) (Bnum_create 1) = mkBnum 1 [0]
  /\ value (Bnum_sum (Bnum_create (2 ^ 32 - 1)) (Bnum_create 1)) = 0
  /\ value (Bnum_create (2 ^ 32 - 1)) + value (Bnum_create 1) = 2 ^ 32
  /\ blocks (Bnum_sum (Bnum_create (2 ^ 32 - 1)) (Bnum_create 1)) <> [0; 1].
Proof. vm_compute. repeat split; congruence. Qed.

(** ** Multiplication and exponentiation at concrete inputs *)

(** C2.  The square of [2^32 - 1] comes out right, but
    [(2^33 - 1) * (2^32 - 1)] does not: folding the second partial product
    into the running total overflows the top block and [Bnum_sum] drops the
    carry, so two blocks are returned where the product needs three. *)
Theorem Bnum_mult_loses_carry :
  value (Bnum_mult (Bnum_create (2 ^ 32 - 1)) (Bnum_create (2 ^ 32 - 1)))
  = (2 ^ 32 - 1) * (2 ^ 32 - 1)
  /\ Bnum_mult (Bnum_create (2 ^ 33 - 1)) (Bnum_create (2 ^ 32 - 1))
     = mkBnum 2 [1; 4294967293]
  /\ value (Bnum_mult (Bnum_create (2 ^ 33 - 1)) (Bnum_create (2 ^ 32 - 1)))
     <> value (Bnum_create (2 ^ 33 - 1)) * value (Bnum_create (2 ^ 32 - 1)).
Proof. vm_compute. repeat split; congruence. Qed.

(** C3.  Results with a zero block on top: the sum of [2^32 - 1] and [1] is
    the single block [0], and so is the product of [2^32] and [0] (a shifted
    empty partial product); both stand for zero with a count of 1.  Such a
    zero is not [Bnum_eq] to the zero of [Bnum_create], and is not below
    it for [Bnum_le]. *)
Theorem zero_top_block_produced :
  canonical (Bnum_create (2 ^ 32 - 1)) /\ canonical (Bnum_create 1)
  /\ blocks (Bnum_sum (Bnum_create (2 ^ 32 - 1)) (Bnum_create 1)) = [0]
  /\ ~ canonical (Bnum_sum (Bnum_create (2 ^ 32 - 1)) (Bnum_create 1))
  /\ canonical (Bnum_create (2 ^ 32)) /\ canonical (Bnum_create 0)
  /\ blocks (Bnum_mult (Bnum_create (2 ^ 32)) (Bnum_create 0)) = [0]
  /\ ~ canonical (Bnum_mult (Bnum_create (2 ^ 32)) (Bnum_create 0))
  /\ value (Bnum_mult (Bnum_create (2 ^ 32)) (Bnum_create 0))
     = value (Bnum_create 0)
  /\ Bnum_eq (Bnum_mult (Bnum_create (2 ^ 32)) (Bnum_create 0))
       (Bnum_create 0) = false
  /\ Bnum_le (Bnum_mult (Bnum_create (2 ^ 32)) (Bnum_create 0))
       (Bnum_create 0) = false.
Proof.
  repeat split;
    try (apply Bnum_create_digits; lia);
    try (intros [_ H]; apply H); reflexivity.
Qed.

Lemma pow_loop_exit (fuel : nat) (i n : Z) (a result : Bnum) :
  n <= i -> pow_loop fuel i n a result = result.
Proof.
  intros H. destruct fuel; simpl; trivial.
  destruct (Z.ltb_spec i n); [lia|reflexivity].
Qed.

(** The loop of [Bnum_pow] multiplies the accumulator by [a] once per value
    of the counter below [n]; fuel beyond that number is not used. *)
Lemma pow_loop_iter (k : nat) (extra : nat) (i n : Z) (a result : Bnum) :
  Z.to_nat (n - i) = k ->
  pow_loop (k + extra) i n a result
  = Nat.iter k (fun r => Bnum_mult r a) result.
Proof.
  revert i result. induction k as [|k IH]; intros i result Hk.
  - simpl. apply pow_loop_exit. lia.
  - change (S k + extra)%nat with (S (k + extra)). simpl pow_loop.
    destruct (Z.ltb_spec i n); [|lia].
    rewrite IH by lia. now rewrite Nat.iter_succ_r.
Qed.

Lemma Bnum_pow_iter (a : Bnum) (n : Z) :
  Bnum_pow a n
  = Nat.iter (Z.to_nat n) (fun r => Bnum_mult r a) (Bnum_create 1).
Proof.
  unfold Bnum_pow.
  rewrite <- (Nat.add_0_r (Z.to_nat n)) at 1.
  apply pow_loop_iter. f_equal. lia.
Qed.

(** C7.  For [a = 2 + (2^31 - 1) * 2^32], a 64-bit value, the third power
    and the product of the first and second powers are different numbers:
    [Bnum_pow a 3] is not [a^3], because a carry is dropped by [Bnum_sum]
    inside [Bnum_mult]. *)
Theorem Bnum_pow_add_fails :
  canonical (Bnum_create 9223372032559808514)
  /\ value (Bnum_pow (Bnum_create 9223372032559808514) (1 + 2))
     <> value (Bnum_mult (Bnum_pow (Bnum_create 9223372032559808514) 1)
                 (Bnum_pow (Bnum_create 9223372032559808514) 2))
  /\ value (Bnum_pow (Bnum_create 9223372032559808514) 3)
     <> 9223372032559808514 ^ 3.
Proof.
  split; [apply Bnum_create_digits; lia|].
  vm_compute. split; congruence.
Qed.

(** With [n <= 0] the loop of [Bnum_pow] is not entered, whatever the
    fuel, and the result is the number made by [Bnum_create 1]. *)
Lemma Bnum_pow_le_0 (a : Bnum) (n : Z) :
  n <= 0 ->
  Bnum_pow a n = Bnum_create 1
  /\ Bnum_pow a n = mkBnum 1 [1]
  /\ value (Bnum_pow a n) = 1
  /\ forall fuel : nat, pow_loop fuel 0 n a (Bnum_create 1) = Bnum_create 1.
Proof.
  intros Hn.
  assert (forall fuel, pow_loop fuel 0 n a (Bnum_create 1) = Bnum_create 1)
    as H by (intros fuel; now apply pow_loop_exit).
  unfold Bnum_pow. rewrite H. repeat split; trivial.
Qed.


(** ** The store: running the primitives *)

Lemma bind_eq {A B : Type} (m : Mem.M A) (k : A -> Mem.M B)
    (h h' : gmap positive Mem.cell) (a : A) :
  m h = Some (a, h') -> Mem.bind m k h = k a h'.
Proof. intros E. unfold Mem.bind. now rewrite E. Qed.

Lemma get_block_eq (h : gmap positive Mem.cell) (l : positive) (b : Mem.Block) :
  h !! l = Some (Mem.Cblock b) -> Mem.get_block (Some l) h = Some (b, h).
Proof. intros E. unfold Mem.get_block. now rewrite E. Qed.

Lemma set_block_eq (h : gmap positive Mem.cell) (l : positive) (b : Mem.Block)
    (f : Mem.Block -> Mem.Block) :
  h !! l = Some (Mem.Cblock b) ->
  Mem.set_block (Some l) f h = Some (tt, <[l := Mem.Cblock (f b)]> h).
Proof.
  intros E. unfold Mem.set_block.
  now rewrite (bind_eq _ _ _ _ _ (get_block_eq _ _ _ E)).
Qed.

Lemma get_bnum_eq (h : gmap positive Mem.cell) (r : positive) (n : Mem.Bnum) :
  h !! r = Some (Mem.Cbnum n) -> Mem.get_bnum r h = Some (n, h).
Proof. intros E. unfold Mem.get_bnum. now rewrite E. Qed.

Lemma set_bnum_eq (h : gmap positive Mem.cell) (r : positive) (n : Mem.Bnum)
    (f : Mem.Bnum -> Mem.Bnum) :
  h !! r = Some (Mem.Cbnum n) ->
  Mem.set_bnum r f h = Some (tt, <[r := Mem.Cbnum (f n)]> h).
Proof.
  intros E. unfold Mem.set_bnum.
  now rewrite (bind_eq _ _ _ _ _ (get_bnum_eq _ _ _ E)).
Qed.

Lemma malloc_eq (h : gmap positive Mem.cell) (init : Mem.cell) :
  Mem.malloc init h = Some (fresh (dom h), <[fresh (dom h) := init]> h)
  /\ h !! fresh (dom h) = None.
Proof.
  split; [reflexivity|]. apply not_elem_of_dom, is_fresh.
Qed.

Lemma free_eq (h : gmap positive Mem.cell) (l : positive) (c : Mem.cell) :
  h !! l = Some c -> Mem.free (Some l) h = Some (tt, delete l h).
Proof. intros E. unfold Mem.free. now rewrite E. Qed.

(** Run the first computation of a sequence with a known result. *)
Ltac mstep E := rewrite (bind_eq _ _ _ _ _ E); cbv beta.

(** What [add_block] leaves in the store, when the chain is empty and when
    [m] is its last block. *)
Lemma add_block_empty (h : gmap positive Mem.cell) (r : positive) (c0 : Z)
    (v : Z) :
  h !! r = Some (Mem.Cbnum (Mem.mkBnum c0 None None)) ->
  Mem.add_block r v h
  = Some (tt, <[r := Mem.Cbnum (Mem.mkBnum (c0 + 1) (Some (fresh (dom h)))
                                    (Some (fresh (dom h))))]>
                (<[fresh (dom h) := Mem.Cblock (Mem.mkBlock v None None)]> h)).
Proof.
  intros Hr. destruct (malloc_eq h (Mem.Cblock (Mem.mkBlock 0 None None)))
    as [Em Hc].
  set (c := fresh (dom h)) in *.
  assert (c <> r) as Hcr by congruence.
  unfold Mem.add_block. mstep Em.
  erewrite bind_eq; [|apply set_block_eq, lookup_insert_eq].
  erewrite bind_eq; [|apply set_block_eq, lookup_insert_eq].
  erewrite bind_eq; [|apply set_block_eq, lookup_insert_eq].
  rewrite !insert_insert_eq.
  erewrite bind_eq;
    [|apply get_bnum_eq; rewrite lookup_insert_ne by done; exact Hr].
  simpl.
  erewrite bind_eq.
  2:{ erewrite bind_eq;
        [|apply set_bnum_eq; rewrite lookup_insert_ne by done; exact Hr].
      apply set_bnum_eq, lookup_insert_eq. }
  erewrite set_bnum_eq by apply lookup_insert_eq.
  now rewrite !insert_insert_eq.
Qed.

Lemma add_block_last (h : gmap positive Mem.cell) (r f m : positive)
    (c0 : Z) (bm : Mem.Block) (v : Z) :
  h !! r = Some (Mem.Cbnum (Mem.mkBnum c0 (Some f) (Some m))) ->
  h !! m = Some (Mem.Cblock bm) ->
  Mem.add_block r v h
  = Some (tt, <[r := Mem.Cbnum (Mem.mkBnum (c0 + 1) (Some f)
                                    (Some (fresh (dom h))))]>
                (<[fresh (dom h) := Mem.Cblock (Mem.mkBlock v None (Some m))]>
                   (<[m := Mem.Cblock (Mem.with_next (Some (fresh (dom h))) bm)]>
                      h))).
Proof.
  intros Hr Hm. destruct (malloc_eq h (Mem.Cblock (Mem.mkBlock 0 None None)))
    as [Em Hc].
  set (c := fresh (dom h)) in *.
  assert (c <> r) as Hcr by congruence.
  assert (c <> m) as Hcm by congruence.
  assert (m <> r) as Hmr by congruence.
  unfold Mem.add_block. mstep Em.
  erewrite bind_eq; [|apply set_block_eq, lookup_insert_eq].
  erewrite bind_eq; [|apply set_block_eq, lookup_insert_eq].
  erewrite bind_eq; [|apply set_block_eq, lookup_insert_eq].
  rewrite !insert_insert_eq.
  erewrite bind_eq;
    [|apply get_bnum_eq; rewrite lookup_insert_ne by done; exact Hr].
  simpl.
  erewrite bind_eq.
  2:{ erewrite bind_eq;
        [|apply set_block_eq; rewrite lookup_insert_ne by done; exact Hm].
      erewrite bind_eq.
      2:{ apply set_block_eq. rewrite lookup_insert_ne by done.
          apply lookup_insert_eq. }
      apply set_bnum_eq. rewrite !lookup_insert_ne by done. exact Hr. }
  erewrite set_bnum_eq by apply lookup_insert_eq.
  rewrite !insert_insert_eq. simpl.
  do 2 f_equal. f_equal.
  rewrite (insert_insert_ne _ c m) by done.
  rewrite insert_insert_eq.
  now rewrite (insert_insert_ne _ m c) by done.
Qed.

(** ** Chains in the store *)

Lemma seg_next_weaken (h h' : gmap positive Mem.cell) (p : option positive)
    (vs : list Z) :
  h ⊆ h' -> seg_next h p vs -> seg_next h' p vs.
Proof.
  intros Hsub. revert p. induction vs as [|v vs IH]; intros p; simpl; trivial.
  intros (l & nx & pv & -> & Hl & Hseg).
  exists l, nx, pv. repeat split; auto. eapply lookup_weaken; eauto.
Qed.

Lemma seg_prev_weaken (h h' : gmap positive Mem.cell) (p : option positive)
    (vs : list Z) :
  h ⊆ h' -> seg_prev h p vs -> seg_prev h' p vs.
Proof.
  intros Hsub. revert p. induction vs as [|v vs IH]; intros p; simpl; trivial.
  intros (l & nx & pv & -> & Hl & Hseg).
  exists l, nx, pv. repeat split; auto. eapply lookup_weaken; eauto.
Qed.

(** A [Bnum] only depends on its own cells. *)
Lemma is_bnum_agree (h h' : gmap positive Mem.cell) (r : positive)
    (ps : list positive) (vs : list Z) :
  is_bnum h r ps vs ->
  h' !! r = h !! r ->
  (forall l : positive, l ∈ ps -> h' !! l = h !! l) ->
  is_bnum h' r ps vs.
Proof.
  intros (Hr & Hlen & Hnd & Hblk) Er Eps.
  repeat split; trivial; [congruence|].
  intros i l Hi. destruct (Hblk i l Hi) as (v & Hv & Hl).
  exists v. split; trivial. rewrite Eps; trivial.
  eapply list_elem_of_lookup_2; eauto.
Qed.

Lemma is_bnum_weaken (h h' : gmap positive Mem.cell) (r : positive)
    (ps : list positive) (vs : list Z) :
  is_bnum h r ps vs -> h ⊆ h' -> is_bnum h' r ps vs.
Proof.
  intros (Hr & Hlen & Hnd & Hblk) Hsub.
  repeat split; trivial; [eapply lookup_weaken; eauto|].
  intros i l Hi. destruct (Hblk i l Hi) as (v & Hv & Hl).
  exists v. split; trivial. eapply lookup_weaken; eauto.
Qed.

Lemma is_bnum_block (h : gmap positive Mem.cell) (r : positive)
    (ps : list positive) (vs : list Z) (l : positive) :
  is_bnum h r ps vs -> l ∈ ps -> exists b, h !! l = Some (Mem.Cblock b).
Proof.
  intros (_ & _ & _ & Hblk) [i Hi]%list_elem_of_lookup_1.
  destruct (Hblk i l Hi) as (v & _ & Hl). eauto.
Qed.

(** Walking [next] from position [i] reads the digits from [i] on. *)
Lemma is_bnum_seg_from (h : gmap positive Mem.cell) (r : positive)
    (ps : list positive) (vs : list Z) :
  is_bnum h r ps vs ->
  forall (k i : nat), length ps = (i + k)%nat ->
    seg_next h (ps !! i) (drop i vs).
Proof.
  intros (Hr & Hlen & Hnd & Hblk). induction k as [|k IH]; intros i Hi.
  - rewrite drop_ge by lia. simpl. apply lookup_ge_None. lia.
  - destruct (lookup_lt_is_Some_2 ps i ltac:(lia)) as [l Hl].
    destruct (Hblk i l Hl) as (v & Hv & Hc).
    rewrite (drop_S _ _ _ Hv), Hl. simpl.
    exists l, (ps !! S i), (match i with O => None | S j => ps !! j end).
    repeat split; trivial. apply IH. lia.
Qed.

Lemma is_bnum_seg_next (h : gmap positive Mem.cell) (r : positive)
    (ps : list positive) (vs : list Z) :
  is_bnum h r ps vs -> seg_next h (head ps) vs.
Proof.
  intros H. rewrite <- (drop_0 vs), head_lookup.
  eapply is_bnum_seg_from; eauto.
Qed.

(** Walking [prev] from below position [i] reads the digits under [i],
    top first. *)
Lemma is_bnum_seg_upto (h : gmap positive Mem.cell) (r : positive)
    (ps : list positive) (vs : list Z) :
  is_bnum h r ps vs ->
  forall i : nat, (i <= length ps)%nat ->
    seg_prev h (match i with O => None | S j => ps !! j end)
      (rev (take i vs)).
Proof.
  intros (Hr & Hlen & Hnd & Hblk). induction i as [|i IH]; intros Hi.
  - reflexivity.
  - destruct (lookup_lt_is_Some_2 ps i ltac:(lia)) as [l Hl].
    destruct (Hblk i l Hl) as (v & Hv & Hc).
    rewrite (take_S_r _ _ _ Hv), rev_unit, Hl. simpl.
    exists l, (ps !! S i), (match i with O => None | S j => ps !! j end).
    repeat split; trivial. apply IH. lia.
Qed.

Lemma is_bnum_seg_prev (h : gmap positive Mem.cell) (r : positive)
    (ps : list positive) (vs : list Z) :
  is_bnum h r ps vs -> seg_prev h (last ps) (rev vs).
Proof.
  intros H. pose proof (is_bnum_seg_upto _ _ _ _ H (length ps) (le_n _)) as S.
  destruct H as (_ & Hlen & _).
  rewrite take_ge in S by lia. rewrite last_lookup.
  destruct (length ps) eqn:E; [|exact S].
  apply nil_length_inv in E. now subst ps.
Qed.

Lemma block_at_app_lt (ps : list positive) (c : positive) (v : Z) (i : nat) :
  (S i < length ps)%nat -> block_at (ps ++ [c]) v i = block_at ps v i.
Proof.
  intros Hi. unfold block_at. f_equal.
  - apply lookup_app_l. lia.
  - destruct i; trivial. apply lookup_app_l. lia.
Qed.

Lemma block_at_app_last (ps : list positive) (c : positive) (v : Z) (i : nat) :
  S i = length ps ->
  block_at (ps ++ [c]) v i = Mem.with_next (Some c) (block_at ps v i).
Proof.
  intros Hi. unfold block_at, Mem.with_next. simpl. f_equal.
  - rewrite lookup_app_r by lia. now replace (S i - length ps)%nat with O by lia.
  - destruct i; trivial. apply lookup_app_l. lia.
Qed.

Lemma block_at_app_new (ps : list positive) (c : positive) (v : Z) :
  block_at (ps ++ [c]) v (length ps) = Mem.mkBlock v None (last ps).
Proof.
  unfold block_at. f_equal.
  - apply lookup_ge_None. rewrite length_app. simpl. lia.
  - rewrite last_lookup. destruct (length ps) eqn:E.
    + apply nil_length_inv in E. now subst ps.
    + simpl. apply lookup_app_l. lia.
Qed.

(** [add_block] on a [Bnum] whose storage is outside [h0]: the chain grows
    by one block at a new address, and no cell of [h0] is written. *)
Lemma add_block_fresh (h0 h : gmap positive Mem.cell) (r : positive)
    (ps : list positive) (vs : list Z) (v : Z) :
  fresh_bnum h0 h r ps vs ->
  exists (c : positive) (h' : gmap positive Mem.cell),
    Mem.add_block r v h = Some (tt, h')
    /\ fresh_bnum h0 h' r (ps ++ [c]) (vs ++ [v]).
Proof.
  intros (Hb & Hsub & H0r & H0ps).
  pose proof Hb as (Hr & Hlen & Hnd & Hblk).
  destruct (malloc_eq h (Mem.Cblock (Mem.mkBlock 0 None None))) as [_ Hc].
  set (c := fresh (dom h)) in *.
  assert (c <> r) as Hcr by congruence.
  assert (forall l, l ∈ ps -> l <> c /\ l <> r) as Hps.
  { intros l Hl. destruct (is_bnum_block _ _ _ _ l Hb Hl) as [b Hlb].
    split; congruence. }
  assert (h0 !! c = None) as H0c by (eapply lookup_weaken_None; eauto).
  exists c.
  destruct ps as [|m ps _] using rev_ind.
  - (* empty chain *)
    destruct vs; [|discriminate]. simpl in Hr.
    eexists. split; [apply (add_block_empty _ _ _ _ Hr)|].
    fold c. repeat split.
    + now rewrite lookup_insert_eq.
    + apply NoDup_singleton.
    + intros [|i] l; [|discriminate]. intros [= <-].
      exists v. split; trivial.
      rewrite lookup_insert_ne, lookup_insert_eq by done. reflexivity.
    + apply map_subseteq_spec. intros i x Hi.
      rewrite !lookup_insert_ne by congruence.
      eapply lookup_weaken; eauto.
    + trivial.
    + intros l ->%list_elem_of_singleton. trivial.
  - (* [m] is the last block *)
    assert (m ∈ ps ++ [m]) as Hm by (apply elem_of_app; right; constructor).
    destruct (Hps m Hm) as [Hmc Hmr].
    assert ((ps ++ [m]) !! length ps = Some m) as Hlm.
    { rewrite lookup_app_r by lia. now rewrite Nat.sub_diag. }
    destruct (Hblk _ _ Hlm) as (vm & Hvm & Hcm).
    rewrite last_snoc in Hr.
    assert (exists f, head (ps ++ [m]) = Some f) as [f Hf].
    { destruct ps; simpl; eauto. }
    rewrite Hf in Hr.
    eexists. split; [apply (add_block_last _ _ _ _ _ _ _ Hr Hcm)|].
    fold c. repeat split.
    + rewrite lookup_insert_eq. do 3 f_equal.
      * rewrite !length_app. simpl. lia.
      * rewrite <- Hf. destruct ps; reflexivity.
      * now rewrite last_snoc.
    + rewrite !length_app in *. simpl in *. lia.
    + apply NoDup_app. repeat split; trivial.
      * intros l Hl ->%list_elem_of_singleton. now destruct (Hps c Hl).
      * apply NoDup_singleton.
    + intros i l Hi.
      destruct (Nat.lt_ge_cases i (length (ps ++ [m]))) as [Hlt|Hge].
      * rewrite lookup_app_l in Hi by trivial.
        destruct (Hblk _ _ Hi) as (vi & Hvi & Hci).
        assert (l ∈ ps ++ [m]) as Hl by (eapply list_elem_of_lookup_2; eauto).
        destruct (Hps l Hl) as [Hlc Hlr].
        exists vi. split; [apply lookup_app_l_Some; trivial|].
        rewrite !lookup_insert_ne by congruence.
        destruct (decide (l = m)) as [->|Hne].
        -- assert (i = length ps) as -> by (eapply NoDup_lookup; eauto).
           rewrite lookup_insert_eq, (block_at_app_last (ps ++ [m]) c).
           ++ congruence.
           ++ rewrite length_app. simpl. lia.
        -- rewrite lookup_insert_ne by congruence.
           rewrite block_at_app_lt; trivial.
           rewrite length_app in *. simpl in *.
           destruct (decide (i = length ps)) as [->|]; [congruence|lia].
      * assert (i = length (ps ++ [m])) as ->.
        { apply lookup_lt_Some in Hi. rewrite length_app in Hi. simpl in Hi.
          lia. }
        rewrite lookup_app_r, Nat.sub_diag in Hi by lia.
        injection Hi as <-.
        exists v. split.
        -- rewrite lookup_app_r by lia. rewrite Hlen, Nat.sub_diag. reflexivity.
        -- rewrite lookup_insert_ne, lookup_insert_eq by congruence.
           now rewrite block_at_app_new, last_snoc.
    + apply map_subseteq_spec. intros i x Hi.
      assert (i <> r) by congruence.
      assert (i <> c) by congruence.
      assert (i <> m) by (intros ->; rewrite (H0ps m Hm) in Hi; discriminate).
      rewrite !lookup_insert_ne by congruence.
      eapply lookup_weaken; eauto.
    + trivial.
    + intros l [Hl| ->%list_elem_of_singleton]%elem_of_app; auto.
Qed.

(** ** Construction in the store *)

Lemma create_loop_mem (h0 : gmap positive Mem.cell) (r : positive) (k : nat) :
  forall (fuel fuel_p : nat) (num : Z) (big_num : Bnum)
         (h : gmap positive Mem.cell) (ps : list positive),
    0 <= num < 2 ^ (32 * Z.of_nat k) ->
    (k < fuel)%nat -> (k < fuel_p)%nat ->
    fresh_bnum h0 h r ps (blocks big_num) ->
    exists (h' : gmap positive Mem.cell) (ps' : list positive),
      Mem.create_loop fuel num r h = Some (tt, h')
      /\ fresh_bnum h0 h' r ps' (blocks (create_loop fuel_p num big_num)).
Proof.
  induction k as [|k IH]; intros fuel fuel_p num big_num h ps Hnum Hf Hfp Hb;
    (destruct fuel as [|fuel]; [lia|]);
    (destruct fuel_p as [|fuel_p]; [lia|]); simpl.
  - simpl in Hnum. destruct (Z.ltb_spec 0 num); [lia|]. eauto.
  - destruct (Z.ltb_spec 0 num); [|eauto].
    destruct (add_block_fresh _ _ _ _ _ (low_block num) Hb)
      as (c & h1 & E1 & Hb1).
    mstep E1.
    apply (IH fuel fuel_p _ (add_block big_num (low_block num)) h1 (ps ++ [c]));
      trivial; try lia.
    rewrite shiftr_block. rewrite pow32_S in Hnum.
    assert (0 <= num / 2 ^ 32 < 2 ^ (32 * Z.of_nat k)) as Hq.
    { split; [apply Z.div_pos; lia|apply Z.div_lt_upper_bound; lia]. }
    pose proof (pow32_pos k).
    assert (2 ^ (32 * Z.of_nat k) <= 2 ^ 64 \/ 2 ^ 64 < 2 ^ (32 * Z.of_nat k))
      as [Hle|Hgt] by lia.
    + rewrite to_uint64_small by lia. lia.
    + pose proof (Z.mod_pos_bound (num / 2 ^ 32) (2 ^ 64) ltac:(lia)).
      unfold to_uint64. lia.
Qed.

Lemma Bnum_create_mem (h : gmap positive Mem.cell) (fuel : nat) (num : Z) :
  0 <= num < 2 ^ 64 -> (2 < fuel)%nat ->
  exists (r : positive) (h' : gmap positive Mem.cell) (ps : list positive),
    Mem.Bnum_create fuel num h = Some (r, h')
    /\ fresh_bnum h h' r ps (blocks (Bnum_create num)).
Proof.
  intros Hnum Hfuel.
  destruct (malloc_eq h (Mem.Cbnum (Mem.mkBnum 0 None None))) as [Em Hr].
  set (r := fresh (dom h)) in *.
  unfold Mem.Bnum_create. mstep Em.
  erewrite bind_eq; [|apply set_bnum_eq, lookup_insert_eq].
  erewrite bind_eq; [|apply set_bnum_eq, lookup_insert_eq].
  erewrite bind_eq; [|apply set_bnum_eq, lookup_insert_eq].
  rewrite !insert_insert_eq. simpl.
  assert (fresh_bnum h (<[r := Mem.Cbnum (Mem.mkBnum 0 None None)]> h) r [] [])
    as Hb.
  { repeat split.
    - apply lookup_insert_eq.
    - apply NoDup_nil_2.
    - intros i l [=].
    - now apply insert_subseteq.
    - trivial.
    - intros l Hl. inversion Hl. }
  unfold Bnum_create. destruct (Z.eqb_spec num 0) as [->|Hne].
  - exists r. eexists. exists []. split; [reflexivity|exact Hb].
  - destruct (create_loop_mem h r 2 fuel 64 num (mkBnum 0 []) _ []
                ltac:(simpl; lia) ltac:(lia) ltac:(lia) Hb)
      as (h' & ps' & E & Hb').
    mstep E. exists r, h', ps'. split; [reflexivity|exact Hb'].
Qed.

(** With a zero argument [Bnum_create] never enters its loop. *)
Lemma Bnum_create_mem_0 (h : gmap positive Mem.cell) (fuel : nat) :
  exists (r : positive) (h' : gmap positive Mem.cell),
    Mem.Bnum_create fuel 0 h = Some (r, h')
    /\ fresh_bnum h h' r [] [].
Proof.
  destruct (malloc_eq h (Mem.Cbnum (Mem.mkBnum 0 None None))) as [Em Hr].
  set (r := fresh (dom h)) in *.
  unfold Mem.Bnum_create. mstep Em.
  erewrite bind_eq; [|apply set_bnum_eq, lookup_insert_eq].
  erewrite bind_eq; [|apply set_bnum_eq, lookup_insert_eq].
  erewrite bind_eq; [|apply set_bnum_eq, lookup_insert_eq].
  rewrite !insert_insert_eq. simpl.
  exists r. eexists. split; [reflexivity|].
  repeat split.
  - apply lookup_insert_eq.
  - apply NoDup_nil_2.
  - intros i l [=].
  - now apply insert_subseteq.
  - trivial.
  - intros l Hl. inversion Hl.
Qed.

(** ** Comparisons in the store *)

Lemma eq_loop_mem (h : gmap positive Mem.cell) (va : list Z) :
  forall (vb : list Z) (fuel : nat) (ca cb : option positive),
    seg_next h ca va -> seg_next h cb vb ->
    (length va < fuel)%nat ->
    Mem.eq_loop fuel ca cb h = Some (eq_loop va vb, h).
Proof.
  induction va as [|xa va IH]; intros vb fuel ca cb Ha Hb Hf;
    (destruct fuel as [|fuel]; [simpl in Hf; lia|]); simpl in Ha.
  - subst ca. destruct vb as [|xb vb]; simpl in Hb.
    + now subst cb.
    + destruct Hb as (l & nx & pv & -> & _). reflexivity.
  - destruct Ha as (la & nxa & pva & -> & Hla & Ha).
    destruct vb as [|xb vb]; simpl in Hb.
    + now subst cb.
    + destruct Hb as (lb & nxb & pvb & -> & Hlb & Hb).
      simpl Mem.eq_loop.
      mstep (get_block_eq _ _ _ Hla). mstep (get_block_eq _ _ _ Hlb).
      simpl. destruct (negb (xa =? xb)); [reflexivity|].
      apply IH; trivial. simpl in Hf. lia.
Qed.

Lemma le_loop_mem (h : gmap positive Mem.cell) (va : list Z) :
  forall (vb : list Z) (fuel : nat) (ca cb : option positive),
    seg_prev h ca va -> seg_prev h cb vb ->
    (length va < fuel)%nat ->
    Mem.le_loop fuel ca cb h = Some (le_loop va vb, h).
Proof.
  induction va as [|xa va IH]; intros vb fuel ca cb Ha Hb Hf;
    (destruct fuel as [|fuel]; [simpl in Hf; lia|]); simpl in Ha.
  - subst ca. reflexivity.
  - destruct Ha as (la & nxa & pva & -> & Hla & Ha).
    destruct vb as [|xb vb]; simpl in Hb.
    + now subst cb.
    + destruct Hb as (lb & nxb & pvb & -> & Hlb & Hb).
      simpl Mem.le_loop.
      mstep (get_block_eq _ _ _ Hla). mstep (get_block_eq _ _ _ Hlb).
      simpl. destruct (negb (xa =? xb)); [reflexivity|].
      apply IH; trivial. simpl in Hf. lia.
Qed.

Lemma ge_loop_mem (h : gmap positive Mem.cell) (va : list Z) :
  forall (vb : list Z) (fuel : nat) (ca cb : option positive),
    seg_prev h ca va -> seg_prev h cb vb ->
    (length va < fuel)%nat ->
    Mem.ge_loop fuel ca cb h = Some (ge_loop va vb, h).
Proof.
  induction va as [|xa va IH]; intros vb fuel ca cb Ha Hb Hf;
    (destruct fuel as [|fuel]; [simpl in Hf; lia|]); simpl in Ha.
  - subst ca. reflexivity.
  - destruct Ha as (la & nxa & pva & -> & Hla & Ha).
    destruct vb as [|xb vb]; simpl in Hb.
    + now subst cb.
    + destruct Hb as (lb & nxb & pvb & -> & Hlb & Hb).
      simpl Mem.ge_loop.
      mstep (get_block_eq _ _ _ Hla). mstep (get_block_eq _ _ _ Hlb).
      simpl. destruct (negb (xa =? xb)); [reflexivity|].
      apply IH; trivial. simpl in Hf. lia.
Qed.

Section Comparisons.
Variables (h : gmap positive Mem.cell) (a b : positive).
Variables (pa pb : list positive) (va vb : list Z).
Hypothesis Ha : is_bnum h a pa va.
Hypothesis Hb : is_bnum h b pb vb.
Variable fuel : nat.
Hypothesis Hfuel : (length va < fuel)%nat.

Lemma Bnum_eq_mem :
  Mem.Bnum_eq fuel a b h = Some (Bnum_eq (of_digits va) (of_digits vb), h).
Proof.
  unfold Mem.Bnum_eq.
  mstep (get_bnum_eq _ _ _ (proj1 Ha)). mstep (get_bnum_eq _ _ _ (proj1 Hb)).
  simpl. apply eq_loop_mem; eauto using is_bnum_seg_next.
Qed.

Lemma Bnum_ne_mem :
  Mem.Bnum_ne fuel a b h = Some (Bnum_ne (of_digits va) (of_digits vb), h).
Proof. unfold Mem.Bnum_ne. now mstep Bnum_eq_mem. Qed.

Lemma Bnum_le_mem :
  Mem.Bnum_le fuel a b h = Some (Bnum_le (of_digits va) (of_digits vb), h).
Proof.
  unfold Mem.Bnum_le, Bnum_le.
  mstep (get_bnum_eq _ _ _ (proj1 Ha)). mstep (get_bnum_eq _ _ _ (proj1 Hb)).
  destruct Ha as (_ & La & _), Hb as (_ & Lb & _).
  simpl. rewrite La, Lb.
  destruct (negb _); [reflexivity|].
  apply le_loop_mem; eauto using is_bnum_seg_prev.
  now rewrite length_rev.
Qed.

Lemma Bnum_ge_mem :
  Mem.Bnum_ge fuel a b h = Some (Bnum_ge (of_digits va) (of_digits vb), h).
Proof.
  unfold Mem.Bnum_ge, Bnum_ge.
  mstep (get_bnum_eq _ _ _ (proj1 Ha)). mstep (get_bnum_eq _ _ _ (proj1 Hb)).
  destruct Ha as (_ & La & _), Hb as (_ & Lb & _).
  simpl. rewrite La, Lb.
  destruct (negb _); [reflexivity|].
  apply ge_loop_mem; eauto using is_bnum_seg_prev.
  now rewrite length_rev.
Qed.

Lemma Bnum_lt_mem :
  Mem.Bnum_lt fuel a b h = Some (Bnum_lt (of_digits va) (of_digits vb), h).
Proof. unfold Mem.Bnum_lt. now mstep Bnum_ge_mem. Qed.

Lemma Bnum_gt_mem :
  Mem.Bnum_gt fuel a b h = Some (Bnum_gt (of_digits va) (of_digits vb), h).
Proof. unfold Mem.Bnum_gt. now mstep Bnum_le_mem. Qed.
End Comparisons.

(** ** Addition in the store *)

Lemma sum_rest_mem (h0 : gmap positive Mem.cell) (s : positive) (vs : list Z) :
  forall (fuel : nat) (cur : option positive) (carry : Z) (sum : Bnum)
         (h : gmap positive Mem.cell) (ps : list positive),
    seg_next h0 cur vs ->
    fresh_bnum h0 h s ps (blocks sum) ->
    (length vs < fuel)%nat ->
    exists (h' : gmap positive Mem.cell) (ps' : list positive),
      Mem.sum_rest fuel cur carry s h = Some (tt, h')
      /\ fresh_bnum h0 h' s ps' (blocks (sum_rest vs carry sum)).
Proof.
  induction vs as [|v vs IH]; intros fuel cur carry sum h ps Hseg Hb Hf;
    (destruct fuel as [|fuel]; [simpl in Hf; lia|]); simpl in Hseg.
  - subst cur. simpl. eauto.
  - destruct Hseg as (l & nx & pv & -> & Hl & Hseg).
    simpl Mem.sum_rest.
    assert (h !! l = Some (Mem.Cblock (Mem.mkBlock v nx pv))) as Hl1
      by (eapply lookup_weaken; [exact Hl|apply Hb]).
    mstep (get_block_eq _ _ _ Hl1). simpl Mem.val.
    destruct (add_block_fresh _ _ _ _ _
                (low_block (to_uint64 (v + carry))) Hb)
      as (c & h1 & E1 & Hb1).
    mstep E1.
    assert (h1 !! l = Some (Mem.Cblock (Mem.mkBlock v nx pv))) as Hl2
      by (eapply lookup_weaken; [exact Hl|apply Hb1]).
    mstep (get_block_eq _ _ _ Hl2). simpl Mem.next.
    apply (IH fuel nx _ (add_block sum (low_block (to_uint64 (v + carry))))
             h1 (ps ++ [c])); trivial.
    simpl in Hf. lia.
Qed.

Lemma sum_both_mem (h0 : gmap positive Mem.cell) (s : positive) (va : list Z) :
  forall (vb : list Z) (fuel : nat) (ca cb : option positive) (carry : Z)
         (sum : Bnum) (h : gmap positive Mem.cell) (ps : list positive),
    seg_next h0 ca va -> seg_next h0 cb vb ->
    fresh_bnum h0 h s ps (blocks sum) ->
    (Nat.max (length va) (length vb) < fuel)%nat ->
    exists (h' : gmap positive Mem.cell) (ps' : list positive),
      Mem.sum_both fuel ca cb carry s h = Some (tt, h')
      /\ fresh_bnum h0 h' s ps' (blocks (sum_both va vb carry sum)).
Proof.
  induction va as [|xa va IH];
    intros vb fuel ca cb carry sum h ps Ha Hb Hs Hf;
    (destruct fuel as [|fuel]; [lia|]).
  - simpl in Ha. subst ca.
    replace (sum_both [] vb carry sum) with (sum_rest vb carry sum)
      by (destruct vb; reflexivity).
    replace (Mem.sum_both (S fuel) None cb carry s h)
      with (Mem.sum_rest (S fuel) cb carry s h)
      by (destruct cb; reflexivity).
    eapply sum_rest_mem; eauto; simpl in Hf; lia.
  - destruct vb as [|xb vb].
    + simpl in Hb. subst cb.
      change (sum_both (xa :: va) [] carry sum)
        with (sum_rest (xa :: va) carry sum).
      replace (Mem.sum_both (S fuel) ca None carry s h)
        with (Mem.sum_rest (S fuel) ca carry s h)
        by (destruct ca; reflexivity).
      eapply sum_rest_mem; eauto; simpl in *; lia.
    + simpl in Ha, Hb.
      destruct Ha as (la & nxa & pva & -> & Hla & Ha).
      destruct Hb as (lb & nxb & pvb & -> & Hlb & Hb).
      simpl Mem.sum_both. simpl sum_both.
      assert (h0 ⊆ h) as Hsub by apply Hs.
      mstep (get_block_eq _ _ _ (lookup_weaken _ _ _ _ Hla Hsub)).
      mstep (get_block_eq _ _ _ (lookup_weaken _ _ _ _ Hlb Hsub)).
      simpl Mem.val.
      destruct (add_block_fresh _ _ _ _ _
                  (low_block (to_uint64 (xa + xb + carry))) Hs)
        as (c & h1 & E1 & Hs1).
      mstep E1.
      assert (h0 ⊆ h1) as Hsub1 by apply Hs1.
      mstep (get_block_eq _ _ _ (lookup_weaken _ _ _ _ Hla Hsub1)).
      mstep (get_block_eq _ _ _ (lookup_weaken _ _ _ _ Hlb Hsub1)).
      simpl Mem.next.
      apply (IH vb fuel nxa nxb _
               (add_block sum (low_block (to_uint64 (xa + xb + carry))))
               h1 (ps ++ [c])); trivial.
      simpl in Hf. lia.
Qed.

Lemma Bnum_sum_mem (h : gmap positive Mem.cell) (a b : positive)
    (pa pb : list positive) (va vb : list Z) (fuel : nat) :
  is_bnum h a pa va -> is_bnum h b pb vb ->
  (Nat.max (length va) (length vb) < fuel)%nat ->
  exists (r : positive) (h' : gmap positive Mem.cell) (pr : list positive),
    Mem.Bnum_sum fuel a b h = Some (r, h')
    /\ fresh_bnum h h' r pr (blocks (Bnum_sum (of_digits va) (of_digits vb))).
Proof.
  intros Ha Hb Hf.
  destruct (Bnum_create_mem_0 h fuel) as (s & h1 & E1 & Hs).
  unfold Mem.Bnum_sum. mstep E1.
  assert (h ⊆ h1) as Hsub by apply Hs.
  mstep (get_bnum_eq _ _ _ (lookup_weaken _ _ _ _ (proj1 Ha) Hsub)).
  mstep (get_bnum_eq _ _ _ (lookup_weaken _ _ _ _ (proj1 Hb) Hsub)).
  simpl.
  destruct (sum_both_mem h s va vb fuel (head pa) (head pb) 0 (Bnum_create 0)
              h1 []) as (h' & ps' & E & Hs');
    eauto using is_bnum_seg_next.
  mstep E. exists s, h', ps'. split; [reflexivity|exact Hs'].
Qed.

(** ** Release *)

Lemma is_bnum_alloc (h : gmap positive Mem.cell) (r : positive)
    (ps : list positive) (vs : list Z) (l : positive) :
  is_bnum h r ps vs -> l ∈ r :: ps -> is_Some (h !! l).
Proof.
  intros Hb [->|Hl]%elem_of_cons.
  - destruct Hb as (Hr & _). eauto.
  - destruct (is_bnum_block _ _ _ _ l Hb Hl). eauto.
Qed.

Lemma is_bnum_not_block (h : gmap positive Mem.cell) (r : positive)
    (ps : list positive) (vs : list Z) :
  is_bnum h r ps vs -> r ∉ ps.
Proof.
  intros Hb Hl. destruct (is_bnum_block _ _ _ _ r Hb Hl) as [b Hrb].
  destruct Hb as (Hr & _). congruence.
Qed.

Lemma destroy_loop_mem (h : gmap positive Mem.cell) (t : positive)
    (pt : list positive) (vt : list Z) :
  is_bnum h t pt vt ->
  forall (k i : nat) (hi : gmap positive Mem.cell) (fuel : nat),
    length pt = (i + k)%nat ->
    (forall l : positive, l ∉ take i pt -> hi !! l = h !! l) ->
    (k < fuel)%nat ->
    exists h' : gmap positive Mem.cell,
      Mem.destroy_loop fuel (pt !! i) hi = Some (tt, h')
      /\ forall l : positive, l ∉ pt -> h' !! l = h !! l.
Proof.
  intros Hb. pose proof Hb as (Hr & Hlen & Hnd & Hblk).
  induction k as [|k IH]; intros i hi fuel Hi Hsame Hf;
    (destruct fuel as [|fuel]; [lia|]).
  - rewrite (lookup_ge_None_2 pt i) by lia. simpl.
    exists hi. split; trivial. intros l Hl. apply Hsame.
    now rewrite take_ge by lia.
  - destruct (lookup_lt_is_Some_2 pt i ltac:(lia)) as [l Hl].
    destruct (Hblk i l Hl) as (v & Hv & Hc).
    assert (l ∉ take i pt) as Hnot.
    { intros [j Hj]%list_elem_of_lookup_1.
      pose proof (lookup_lt_Some _ _ _ Hj) as Hlt.
      rewrite length_take in Hlt.
      rewrite lookup_take_lt in Hj by lia.
      assert (j = i) by (eapply NoDup_lookup; eauto). lia. }
    rewrite Hl. simpl Mem.destroy_loop.
    assert (hi !! l = Some (Mem.Cblock (block_at pt v i))) as Hil
      by (rewrite Hsame; trivial).
    mstep (get_block_eq _ _ _ Hil).
    mstep (free_eq _ _ _ Hil). simpl Mem.next.
    apply IH; [lia| |lia].
    intros l' Hl'. rewrite (take_S_r _ _ _ Hl) in Hl'.
    rewrite lookup_delete_ne.
    + apply Hsame. intros Hin. apply Hl'. apply elem_of_app. now left.
    + intros ->. apply Hl'. apply elem_of_app. right. constructor.
Qed.

Lemma Bnum_destroy_mem (h : gmap positive Mem.cell) (t : positive)
    (pt : list positive) (vt : list Z) (fuel : nat) :
  is_bnum h t pt vt -> (length pt < fuel)%nat ->
  exists h' : gmap positive Mem.cell,
    Mem.Bnum_destroy fuel t h = Some (tt, h')
    /\ forall l : positive, l ∉ t :: pt -> h' !! l = h !! l.
Proof.
  intros Hb Hf. pose proof Hb as (Hr & _).
  unfold Mem.Bnum_destroy. mstep (get_bnum_eq _ _ _ Hr). simpl.
  destruct (destroy_loop_mem h t pt vt Hb (length pt) 0 h fuel)
    as (h1 & E1 & Hsame); trivial.
  rewrite <- head_lookup in E1. mstep E1.
  assert (h1 !! t = h !! t) as Ht
    by (apply Hsame; eapply is_bnum_not_block; eauto).
  rewrite Hr in Ht. rewrite (free_eq _ _ _ Ht).
  eexists. split; [reflexivity|].
  intros l Hl. rewrite lookup_delete_ne.
  - apply Hsame. intros Hin. apply Hl. now right.
  - intros ->. apply Hl. now left.
Qed.

(** ** Frames *)

Lemma fresh_bnum_none (h0 h : gmap positive Mem.cell) (r : positive)
    (pr : list positive) (vr : list Z) (l : positive) :
  fresh_bnum h0 h r pr vr -> l ∈ r :: pr -> h0 !! l = None.
Proof. intros (_ & _ & Hr & Hpr) [->|Hl]%elem_of_cons; auto. Qed.

(** Storage that is new since [h1] is apart from storage allocated in [h1]. *)
Lemma fresh_apart (h1 h2 : gmap positive Mem.cell) (r t : positive)
    (pr pt : list positive) (vr vt : list Z) (l : positive) :
  fresh_bnum h1 h2 r pr vr -> is_bnum h1 t pt vt ->
  l ∈ r :: pr -> l ∉ t :: pt.
Proof.
  intros Hf Ht Hl Hl'.
  pose proof (fresh_bnum_none _ _ _ _ _ _ Hf Hl) as Hn.
  destruct (is_bnum_alloc _ _ _ _ _ Ht Hl') as [x Hx]. congruence.
Qed.

Lemma fresh_bnum_base (h0 h1 h2 : gmap positive Mem.cell) (r : positive)
    (pr : list positive) (vr : list Z) :
  fresh_bnum h1 h2 r pr vr -> h0 ⊆ h1 -> fresh_bnum h0 h2 r pr vr.
Proof.
  intros (Hb & Hsub & Hr & Hpr) H01. split; [|split; [|split]]; trivial.
  - now transitivity h1.
  - eapply lookup_weaken_None; eauto.
  - intros l Hl. eapply lookup_weaken_None; eauto.
Qed.

Lemma is_bnum_frame (h h' : gmap positive Mem.cell) (r : positive)
    (pr : list positive) (vr : list Z) (X : list positive) :
  is_bnum h r pr vr ->
  (forall l : positive, l ∉ X -> h' !! l = h !! l) ->
  (forall l : positive, l ∈ r :: pr -> l ∉ X) ->
  is_bnum h' r pr vr.
Proof.
  intros Hb Hsame Hdis. eapply is_bnum_agree; eauto.
  - apply Hsame, Hdis. now left.
  - intros l Hl. apply Hsame, Hdis. now right.
Qed.

(** Releasing storage [X] that is not part of [h0] keeps a fresh [Bnum]
    that is apart from [X], and keeps [h0]. *)
Lemma fresh_bnum_frame (h0 h2 h3 : gmap positive Mem.cell) (r : positive)
    (pr : list positive) (vr : list Z) (X : list positive) :
  fresh_bnum h0 h2 r pr vr ->
  (forall l : positive, l ∈ X -> h0 !! l = None) ->
  (forall l : positive, l ∈ r :: pr -> l ∉ X) ->
  (forall l : positive, l ∉ X -> h3 !! l = h2 !! l) ->
  fresh_bnum h0 h3 r pr vr.
Proof.
  intros (Hb & Hsub & Hr & Hpr) HX Hdis Hsame.
  split; [|split; [|split]]; trivial.
  - eapply is_bnum_frame; eauto.
  - apply map_subseteq_spec. intros l x Hl.
    rewrite Hsame.
    + eapply lookup_weaken; eauto.
    + intros Hin. rewrite (HX l Hin) in Hl. discriminate.
Qed.

(** ** Multiplication in the store *)

Lemma shift_loop_mem (hb : gmap positive Mem.cell) (cp : positive) (k : nat) :
  forall (fuel fuel_p : nat) (i shift : Z) (cur : Bnum)
         (h : gmap positive Mem.cell) (ps : list positive),
    Z.to_nat (shift - i) = k -> (k < fuel)%nat -> (k <= fuel_p)%nat ->
    fresh_bnum hb h cp ps (blocks cur) ->
    exists (h' : gmap positive Mem.cell) (ps' : list positive),
      Mem.shift_loop fuel i shift cp h = Some (tt, h')
      /\ fresh_bnum hb h' cp ps' (blocks (shift_loop fuel_p i shift cur)).
Proof.
  induction k as [|k IH]; intros fuel fuel_p i shift cur h ps Hk Hf Hfp Hb;
    (destruct fuel as [|fuel]; [lia|]); simpl Mem.shift_loop.
  - destruct (Z.ltb_spec i shift); [lia|].
    exists h, ps. split; [reflexivity|].
    destruct fuel_p; simpl; trivial.
    destruct (Z.ltb_spec i shift); [lia|trivial].
  - destruct fuel_p as [|fuel_p]; [lia|]. simpl shift_loop.
    destruct (Z.ltb_spec i shift); [|lia].
    destruct (add_block_fresh _ _ _ _ _ (to_uint32 0) Hb)
      as (c & h1 & E1 & Hb1).
    mstep E1.
    apply (IH fuel fuel_p (i + 1) shift (add_block cur (to_uint32 0)) h1
             (ps ++ [c])); trivial; lia.
Qed.

Lemma mult_row_mem (hb : gmap positive Mem.cell) (cp la : positive)
    (ba : Mem.Block) (vs : list Z) :
  hb !! la = Some (Mem.Cblock ba) ->
  forall (fuel : nat) (cur_b : option positive) (carry : Z) (cur : Bnum)
         (h : gmap positive Mem.cell) (ps : list positive),
    seg_next hb cur_b vs ->
    fresh_bnum hb h cp ps (blocks cur) ->
    (length vs < fuel)%nat ->
    exists (h' : gmap positive Mem.cell) (ps' : list positive),
      Mem.mult_row fuel (Some la) cur_b carry cp h = Some (tt, h')
      /\ fresh_bnum hb h' cp ps'
           (blocks (mult_row (Mem.val ba) vs carry cur)).
Proof.
  intros Hla.
  induction vs as [|v vs IH]; intros fuel cur_b carry cur h ps Hseg Hb Hf;
    (destruct fuel as [|fuel]; [simpl in Hf; lia|]); simpl in Hseg.
  - subst cur_b. simpl.
    destruct (negb (carry =? 0)); [|eauto].
    destruct (add_block_fresh _ _ _ _ _ (to_uint32 carry) Hb)
      as (c & h1 & E1 & Hb1).
    eauto.
  - destruct Hseg as (l & nx & pv & -> & Hl & Hseg).
    simpl Mem.mult_row. simpl mult_row.
    assert (hb ⊆ h) as Hsub by apply Hb.
    mstep (get_block_eq _ _ _ (lookup_weaken _ _ _ _ Hla Hsub)).
    mstep (get_block_eq _ _ _ (lookup_weaken _ _ _ _ Hl Hsub)).
    simpl Mem.val.
    destruct (add_block_fresh _ _ _ _ _
                (low_block (to_uint64 (Mem.val ba * v + carry))) Hb)
      as (c & h1 & E1 & Hb1).
    mstep E1.
    assert (hb ⊆ h1) as Hsub1 by apply Hb1.
    mstep (get_block_eq _ _ _ (lookup_weaken _ _ _ _ Hl Hsub1)).
    simpl Mem.next.
    apply (IH fuel nx _
             (add_block cur (low_block (to_uint64 (Mem.val ba * v + carry))))
             h1 (ps ++ [c])); trivial.
    simpl in Hf. lia.
Qed.

Lemma mult_loop_step (fuel fuel' : nat) (la b : positive) (shift : Z)
    (product : positive) :
  fuel = S fuel' ->
  Mem.mult_loop fuel (Some la) b shift product
  = Mem.bind (Mem.Bnum_create fuel 0) (fun cur_product =>
    Mem.bind (Mem.shift_loop fuel 0 shift cur_product) (fun _ =>
    Mem.bind (Mem.get_bnum b) (fun nb =>
    Mem.bind (Mem.mult_row fuel (Some la) (Mem.least_significant nb) 0
                cur_product) (fun _ =>
    Mem.bind (Mem.Bnum_sum fuel product cur_product) (fun product' =>
    Mem.bind (Mem.Bnum_destroy fuel product) (fun _ =>
    Mem.bind (Mem.Bnum_destroy fuel cur_product) (fun _ =>
    Mem.bind (Mem.get_block (Some la)) (fun ba =>
    Mem.mult_loop fuel' (Mem.next ba) b (shift + 1) product')))))))).
Proof. intros ->. reflexivity. Qed.

Lemma mult_loop_mem (vb : list Z) (vsa : list Z) :
  forall (shift : Z) (prod : Bnum),
  exists f0 : nat, forall fuel : nat, (f0 <= fuel)%nat ->
    forall (h0 : gmap positive Mem.cell) (b : positive) (pb : list positive)
           (cur_a : option positive) (h : gmap positive Mem.cell)
           (product : positive) (pp : list positive),
      is_bnum h0 b pb vb ->
      seg_next h0 cur_a vsa ->
      fresh_bnum h0 h product pp (blocks prod) ->
      exists (r : positive) (h' : gmap positive Mem.cell) (pr : list positive),
        Mem.mult_loop fuel cur_a b shift product h = Some (r, h')
        /\ fresh_bnum h0 h' r pr
             (blocks (mult_loop vsa (of_digits vb) shift prod)).
Proof.
  induction vsa as [|va vsa IH]; intros shift prod.
  - exists 1%nat. intros fuel Hfuel h0 b pb cur_a h product pp Hb Hseg Hp.
    destruct fuel as [|fuel]; [lia|]. simpl in Hseg. subst cur_a.
    exists product, h, pp. split; [reflexivity|exact Hp].
  - set (shifted := shift_loop (Z.to_nat shift) 0 shift (Bnum_create 0)).
    set (curp := mult_row va vb 0 shifted).
    destruct (IH (shift + 1) (Bnum_sum prod curp)) as [f0' IH'].
    exists (S (f0' + Z.to_nat shift + length vb + length (blocks prod)
               + length (blocks curp))).
    intros fuel Hfuel h0 b pb cur_a h product pp Hb Hseg Hp.
    destruct fuel as [|fuel']; [lia|].
    remember (S fuel') as fuel eqn:Efuel.
    simpl in Hseg. destruct Hseg as (la & nx & pv & -> & Hla & Hseg).
    rewrite (mult_loop_step fuel fuel' _ _ _ _ Efuel).
    pose proof Hp as (Hpb & Hsub0 & _).
    (* the partial product *)
    destruct (Bnum_create_mem_0 h fuel) as (cp & h1 & E1 & Hc1).
    mstep E1.
    destruct (shift_loop_mem h cp (Z.to_nat shift) fuel (Z.to_nat shift)
                0 shift (Bnum_create 0) h1 [])
      as (h2 & ps2 & E2 & Hc2); trivial; try lia.
    mstep E2. fold shifted in Hc2.
    assert (h ⊆ h2) as Hsub2 by apply Hc2.
    assert (h0 ⊆ h2) as Hsub02 by (now transitivity h).
    mstep (get_bnum_eq _ _ _ (lookup_weaken _ _ _ _ (proj1 Hb) Hsub02)).
    cbn [Mem.least_significant].
    destruct (mult_row_mem h cp la _ vb (lookup_weaken _ _ _ _ Hla Hsub0)
                fuel (head pb) 0 shifted h2 ps2)
      as (h3 & ps3 & E3 & Hc3); trivial; try lia.
    { eapply seg_next_weaken; [exact Hsub0|].
      eapply is_bnum_seg_next; eauto. }
    mstep E3. cbn [Mem.val] in Hc3. fold curp in Hc3.
    pose proof Hc3 as (Hcb3 & Hsub3 & _).
    (* folded into the running total *)
    assert (is_bnum h3 product pp (blocks prod)) as Hpb3
      by (eapply is_bnum_weaken; eauto).
    destruct (Bnum_sum_mem h3 product cp pp ps3 _ _ fuel Hpb3 Hcb3)
      as (r & h4 & pr & E4 & Hr4); [lia|].
    mstep E4.
    change (Bnum_sum (of_digits (blocks prod)) (of_digits (blocks curp)))
      with (Bnum_sum prod curp) in Hr4.
    pose proof Hr4 as (Hrb4 & Hsub4 & _).
    (* the two releases *)
    assert (length pp = length (blocks prod)) as Lpp by apply Hpb.
    assert (length ps3 = length (blocks curp)) as Lps3 by apply Hcb3.
    destruct (Bnum_destroy_mem h4 product pp (blocks prod) fuel)
      as (h5 & E5 & Hsame5); [eapply is_bnum_weaken; eauto|lia|].
    mstep E5.
    assert (is_bnum h5 cp ps3 (blocks curp)) as Hcb5.
    { eapply is_bnum_frame; [eapply is_bnum_weaken; eauto|exact Hsame5|].
      intros l Hl. exact (fresh_apart _ _ _ _ _ _ _ _ l Hc3 Hpb Hl). }
    destruct (Bnum_destroy_mem h5 cp ps3 (blocks curp) fuel Hcb5)
      as (h6 & E6 & Hsame6); [lia|].
    mstep E6.
    assert (fresh_bnum h0 h5 r pr (blocks (Bnum_sum prod curp))) as Hr5.
    { eapply fresh_bnum_frame; [| | |exact Hsame5].
      - eapply fresh_bnum_base; [exact Hr4|]. now transitivity h.
      - intros l Hl. exact (fresh_bnum_none _ _ _ _ _ l Hp Hl).
      - intros l Hl. exact (fresh_apart _ _ _ _ _ _ _ _ l Hr4 Hpb3 Hl). }
    assert (fresh_bnum h0 h6 r pr (blocks (Bnum_sum prod curp))) as Hr6.
    { eapply fresh_bnum_frame; [exact Hr5| | |exact Hsame6].
      - intros l Hl. eapply lookup_weaken_None; [|exact Hsub0].
        exact (fresh_bnum_none _ _ _ _ _ l Hc3 Hl).
      - intros l Hl. exact (fresh_apart _ _ _ _ _ _ _ _ l Hr4 Hcb3 Hl). }
    assert (h0 ⊆ h6) as Hsub6 by apply Hr6.
    mstep (get_block_eq _ _ _ (lookup_weaken _ _ _ _ Hla Hsub6)).
    cbn [Mem.next].
    apply (IH' fuel' ltac:(lia) h0 b pb nx h6 r pr Hb Hseg Hr6).
Qed.


Lemma Bnum_mult_mem (va vb : list Z) :
  exists f0 : nat, forall fuel : nat, (f0 <= fuel)%nat ->
    forall (h : gmap positive Mem.cell) (a b : positive)
           (pa pb : list positive),
      is_bnum h a pa va -> is_bnum h b pb vb ->
      exists (r : positive) (h' : gmap positive Mem.cell) (pr : list positive),
        Mem.Bnum_mult fuel a b h = Some (r, h')
        /\ fresh_bnum h h' r pr
             (blocks (Bnum_mult (of_digits va) (of_digits vb))).
Proof.
  destruct (mult_loop_mem vb va 0 (Bnum_create 0)) as [f0 Hloop].
  exists f0. intros fuel Hfuel h a b pa pb Ha Hb.
  destruct (Bnum_create_mem_0 h fuel) as (product & h1 & E1 & Hp).
  unfold Mem.Bnum_mult. mstep E1.
  assert (h ⊆ h1) as Hsub by apply Hp.
  mstep (get_bnum_eq _ _ _ (lookup_weaken _ _ _ _ (proj1 Ha) Hsub)).
  cbn [Mem.least_significant].
  apply (Hloop fuel Hfuel h b pb (head pa) h1 product [] Hb); trivial.
  eapply is_bnum_seg_next; eauto.
Qed.

(** ** Exponentiation in the store *)

Lemma pow_loop_step (fuel fuel' : nat) (i n : Z) (a result : positive) :
  fuel = S fuel' ->
  Mem.pow_loop fuel i n a result
  = if i <? n
    then Mem.bind (Mem.Bnum_mult fuel result a) (fun result' =>
         Mem.bind (Mem.Bnum_destroy fuel result) (fun _ =>
         Mem.pow_loop fuel' (i + 1) n a result'))
    else Mem.ret result.
Proof. intros ->. reflexivity. Qed.

Lemma pow_loop_mem (va : list Z) (k : nat) :
  forall (i n : Z) (res : Bnum),
    Z.to_nat (n - i) = k ->
    exists f0 : nat, forall fuel : nat, (f0 <= fuel)%nat ->
      forall (h0 : gmap positive Mem.cell) (a : positive) (pa : list positive)
             (h : gmap positive Mem.cell) (result : positive)
             (pres : list positive),
        is_bnum h0 a pa va ->
        fresh_bnum h0 h result pres (blocks res) ->
        exists (r : positive) (h' : gmap positive Mem.cell)
               (pr : list positive),
          Mem.pow_loop fuel i n a result h = Some (r, h')
          /\ fresh_bnum h0 h' r pr
               (blocks (Nat.iter k (fun x => Bnum_mult x (of_digits va)) res)).
Proof.
  induction k as [|k IH]; intros i n res Hk.
  - exists 1%nat. intros fuel Hfuel h0 a pa h result pres Ha Hr.
    destruct fuel as [|fuel']; [lia|].
    rewrite (pow_loop_step _ fuel' _ _ _ _ eq_refl).
    destruct (Z.ltb_spec i n); [lia|].
    exists result, h, pres. split; [reflexivity|exact Hr].
  - destruct (Bnum_mult_mem (blocks res) va) as [fm Hmult].
    destruct (IH (i + 1) n (Bnum_mult res (of_digits va)) ltac:(lia))
      as [f0' IH'].
    exists (S (f0' + fm + length (blocks res))).
    intros fuel Hfuel h0 a pa h result pres Ha Hr.
    destruct fuel as [|fuel']; [lia|].
    remember (S fuel') as fuel eqn:Efuel.
    rewrite (pow_loop_step fuel fuel' _ _ _ _ Efuel).
    destruct (Z.ltb_spec i n); [|lia].
    pose proof Hr as (Hrb & Hsub0 & _).
    destruct (Hmult fuel ltac:(lia) h result a pres pa Hrb
                (is_bnum_weaken _ _ _ _ _ Ha Hsub0))
      as (r & h1 & pr & E1 & Hr1).
    mstep E1.
    change (Bnum_mult (of_digits (blocks res)) (of_digits va))
      with (Bnum_mult res (of_digits va)) in Hr1.
    pose proof Hr1 as (Hrb1 & Hsub1 & _).
    assert (length pres = length (blocks res)) as Lp by apply Hrb.
    destruct (Bnum_destroy_mem h1 result pres (blocks res) fuel)
      as (h2 & E2 & Hsame2); [eapply is_bnum_weaken; eauto|lia|].
    mstep E2.
    assert (fresh_bnum h0 h2 r pr (blocks (Bnum_mult res (of_digits va))))
      as Hr2.
    { eapply fresh_bnum_frame; [| | |exact Hsame2].
      - eapply fresh_bnum_base; [exact Hr1|exact Hsub0].
      - intros l Hl. exact (fresh_bnum_none _ _ _ _ _ l Hr Hl).
      - intros l Hl. exact (fresh_apart _ _ _ _ _ _ _ _ l Hr1 Hrb Hl). }
    rewrite Nat.iter_succ_r.
    apply (IH' fuel' ltac:(lia) h0 a pa h2 r pr Ha Hr2).
Qed.

Lemma Bnum_pow_mem (va : list Z) (n : Z) :
  exists f0 : nat, forall fuel : nat, (f0 <= fuel)%nat ->
    forall (h : gmap positive Mem.cell) (a : positive) (pa : list positive),
      is_bnum h a pa va ->
      exists (r : positive) (h' : gmap positive Mem.cell) (pr : list positive),
        Mem.Bnum_pow fuel a n h = Some (r, h')
        /\ fresh_bnum h h' r pr (blocks (Bnum_pow (of_digits va) n)).
Proof.
  destruct (pow_loop_mem va (Z.to_nat n) 0 n (Bnum_create 1) ltac:(f_equal; lia))
    as [f0 Hloop].
  exists (3 + f0)%nat. intros fuel Hfuel h a pa Ha.
  destruct (Bnum_create_mem h fuel 1 ltac:(lia) ltac:(lia))
    as (result & h1 & pres & E1 & Hr).
  unfold Mem.Bnum_pow. mstep E1.
  rewrite Bnum_pow_iter.
  apply (Hloop fuel ltac:(lia) h a pa h1 result pres Ha Hr).
Qed.

(** ** Construction and non-positive exponents, with the store *)

(** C6.  For every 64-bit value [v], [Bnum_create v] holds the base-2^32
    digits of [v], least significant first and without a zero on top:
    nothing for 0, [v] itself below 2^32, the low and the high half
    otherwise.  The result is canonical and its value read back from the
    digits is [v].  In the store the call always returns (three units of
    fuel are never used up): the new [Bnum] holds these digits and no cell
    allocated before is written. *)
Theorem Bnum_create_correct (v : Z) :
  0 <= v < 2 ^ 64 ->
  blocks (Bnum_create v) =
    (if v =? 0 then []
     else if v <? 2 ^ 32 then [v]
     else [v mod 2 ^ 32; v / 2 ^ 32])
  /\ canonical (Bnum_create v)
  /\ value (Bnum_create v) = v
  /\ forall (h : gmap positive Mem.cell) (fuel : nat), (2 < fuel)%nat ->
       exists (r : positive) (h' : gmap positive Mem.cell)
              (ps : list positive),
         Mem.Bnum_create fuel v h = Some (r, h')
         /\ fresh_bnum h h' r ps (blocks (Bnum_create v)).
Proof.
  intros Hv. destruct (Bnum_create_digits v Hv) as (Hd & Hc & Hval).
  repeat (split; [assumption|]).
  intros h fuel Hfuel. now apply Bnum_create_mem.
Qed.

Lemma Bnum_create_correct_witness :
  blocks (Bnum_create 4294967296) = [0; 1]
  /\ canonical (Bnum_create 4294967296)
  /\ value (Bnum_create 4294967296) = 4294967296.
Proof.
  destruct (Bnum_create_correct 4294967296) as (H1 & H2 & H3 & _); [lia|].
  exact (conj H1 (conj H2 H3)).
Defined.

(** C8.  With an exponent [n <= 0] the loop of [Bnum_pow] is not entered,
    whatever the fuel, and the result is the one-block number 1 made by
    [Bnum_create 1], for every [a], zero included.  In the store the call
    returns, with enough fuel, a new [Bnum] whose only digit is 1. *)
Theorem Bnum_pow_nonpositive (a : Bnum) (n : Z) :
  n <= 0 ->
  Bnum_pow a n = Bnum_create 1
  /\ Bnum_pow a n = mkBnum 1 [1]
  /\ value (Bnum_pow a n) = 1
  /\ (forall fuel : nat, pow_loop fuel 0 n a (Bnum_create 1) = Bnum_create 1)
  /\ exists f0 : nat, forall fuel : nat, (f0 <= fuel)%nat ->
       forall (h : gmap positive Mem.cell) (p : positive)
              (ps : list positive),
         is_bnum h p ps (blocks a) ->
         exists (r : positive) (h' : gmap positive Mem.cell)
                (pr : list positive),
           Mem.Bnum_pow fuel p n h = Some (r, h')
           /\ fresh_bnum h h' r pr [1].
Proof.
  intros Hn. destruct (Bnum_pow_le_0 a n Hn) as (H1 & H2 & H3 & H4).
  repeat (split; [assumption|]).
  destruct (Bnum_pow_mem (blocks a) n) as [f0 Hpow].
  exists f0. intros fuel Hfuel h p ps Hp.
  destruct (Hpow fuel Hfuel h p ps Hp) as (r & h' & pr & E & Hr).
  exists r, h', pr. split; [exact E|].
  destruct (Bnum_pow_le_0 (of_digits (blocks a)) n Hn) as (_ & E2 & _).
  now rewrite E2 in Hr.
Qed.

Lemma Bnum_pow_nonpositive_witness :
  Bnum_pow (Bnum_create 0) (-3) = mkBnum 1 [1].
Proof.
  destruct (Bnum_pow_nonpositive (Bnum_create 0) (-3)) as (_ & H & _);
    [lia | exact H].
Defined.

(** ** No operation touches its operands *)

Lemma fresh_result_intro (h h' : gmap positive Mem.cell) (a b r : positive)
    (pa pb pr : list positive) (va vb vr : list Z) :
  is_bnum h a pa va -> is_bnum h b pb vb ->
  fresh_bnum h h' r pr vr ->
  fresh_result h h' a b pa pb va vb r vr.
Proof.
  intros Ha Hb Hr. pose proof Hr as (Hrb & Hsub & _).
  split; [exact Hsub|].
  split; [eapply is_bnum_weaken; eauto|].
  split; [eapply is_bnum_weaken; eauto|].
  exists pr. split; [exact Hrb|].
  intros l Hl. split; [|split].
  - exact (fresh_bnum_none _ _ _ _ _ l Hr Hl).
  - exact (fresh_apart _ _ _ _ _ _ _ _ l Hr Ha Hl).
  - exact (fresh_apart _ _ _ _ _ _ _ _ l Hr Hb Hl).
Qed.

(** C9.  Let the store hold two numbers, at [a] and [b] (possibly the same).
    With enough fuel every operation returns.  The six comparisons give the
    answer of the list-level functions and leave the store as it was.
    [Bnum_sum], [Bnum_mult] and [Bnum_pow] return a [Bnum] all of whose
    cells were unallocated before the call, hence apart from the cells of
    [a] and [b]; every cell allocated before the call still has its content,
    so [a] and [b] keep their blocks, digits and counts. *)
Theorem operations_keep_operands (h : gmap positive Mem.cell) (a b : positive)
    (pa pb : list positive) (va vb : list Z) (n : Z) :
  is_bnum h a pa va -> is_bnum h b pb vb ->
  exists f0 : nat, forall fuel : nat, (f0 <= fuel)%nat ->
    Mem.Bnum_eq fuel a b h = Some (Bnum_eq (of_digits va) (of_digits vb), h)
    /\ Mem.Bnum_ne fuel a b h = Some (Bnum_ne (of_digits va) (of_digits vb), h)
    /\ Mem.Bnum_le fuel a b h = Some (Bnum_le (of_digits va) (of_digits vb), h)
    /\ Mem.Bnum_lt fuel a b h = Some (Bnum_lt (of_digits va) (of_digits vb), h)
    /\ Mem.Bnum_ge fuel a b h = Some (Bnum_ge (of_digits va) (of_digits vb), h)
    /\ Mem.Bnum_gt fuel a b h = Some (Bnum_gt (of_digits va) (of_digits vb), h)
    /\ (exists (r : positive) (h' : gmap positive Mem.cell),
          Mem.Bnum_sum fuel a b h = Some (r, h')
          /\ fresh_result h h' a b pa pb va vb r
               (blocks (Bnum_sum (of_digits va) (of_digits vb))))
    /\ (exists (r : positive) (h' : gmap positive Mem.cell),
          Mem.Bnum_mult fuel a b h = Some (r, h')
          /\ fresh_result h h' a b pa pb va vb r
               (blocks (Bnum_mult (of_digits va) (of_digits vb))))
    /\ (exists (r : positive) (h' : gmap positive Mem.cell),
          Mem.Bnum_pow fuel a n h = Some (r, h')
          /\ fresh_result h h' a b pa pb va vb r
               (blocks (Bnum_pow (of_digits va) n))).
Proof.
  intros Ha Hb.
  destruct (Bnum_mult_mem va vb) as [fm Hmult].
  destruct (Bnum_pow_mem va n) as [fp Hpow].
  exists (S (length va + length vb + fm + fp)).
  intros fuel Hfuel.
  assert (length va < fuel)%nat as Hlt by lia.
  split; [eapply Bnum_eq_mem; eauto|].
  split; [eapply Bnum_ne_mem; eauto|].
  split; [eapply Bnum_le_mem; eauto|].
  split; [eapply Bnum_lt_mem; eauto|].
  split; [eapply Bnum_ge_mem; eauto|].
  split; [eapply Bnum_gt_mem; eauto|].
  split; [|split].
  - destruct (Bnum_sum_mem h a b pa pb va vb fuel Ha Hb ltac:(lia))
      as (r & h' & pr & E & Hr).
    exists r, h'. split; [exact E|]. eapply fresh_result_intro; eauto.
  - destruct (Hmult fuel ltac:(lia) h a b pa pb Ha Hb)
      as (r & h' & pr & E & Hr).
    exists r, h'. split; [exact E|]. eapply fresh_result_intro; eauto.
  - destruct (Hpow fuel ltac:(lia) h a pa Ha) as (r & h' & pr & E & Hr).
    exists r, h'. split; [exact E|]. eapply fresh_result_intro; eauto.
Qed.

Lemma operations_keep_operands_witness :
  exists f0 : nat, forall fuel : nat, (f0 <= fuel)%nat ->
    exists (r : positive) (h' : gmap positive Mem.cell),
      Mem.Bnum_sum fuel 1%positive 3%positive two_numbers = Some (r, h')
      /\ fresh_result two_numbers h' 1%positive 3%positive
           [2%positive] [] [5] [] r [5].
Proof.
  assert (is_bnum two_numbers 1%positive [2%positive] [5]) as Ha.
  { split; [reflexivity|]. split; [reflexivity|].
    split; [apply NoDup_singleton|].
    intros [|i] l E; simpl in E; [|discriminate].
    injection E as <-. exists 5. split; reflexivity. }
  assert (is_bnum two_numbers 3%positive [] []) as Hb.
  { split; [reflexivity|]. split; [reflexivity|].
    split; [apply NoDup_nil_2|]. intros i l E. discriminate. }
  destruct (operations_keep_operands two_numbers 1%positive 3%positive
              [2%positive] [] [5] [] 0 Ha Hb) as [f0 H].
  exists f0. intros fuel Hfuel.
  destruct (H fuel Hfuel) as (_ & _ & _ & _ & _ & _ & Hsum & _).
  exact Hsum.
Defined.

(** * Further properties of the list-level functions *)

(** ** Equality and order *)




Lemma le_loop_trans (la : list Z) :
  forall lb lc : list Z,
    length la = length lb -> length lb = length lc ->
    le_loop la lb = true -> le_loop lb lc = true -> le_loop la lc = true.
Proof.
  induction la as [|xa la IH]; intros [|xb lb] [|xc lc]; simpl;
    try discriminate; trivial.
  intros [= Hab] [= Hbc].
  destruct (Z.eqb_spec xa xb) as [->|Hne1]; simpl.
  - destruct (Z.eqb_spec xb xc) as [->|Hne2]; simpl; trivial.
    now apply IH.
  - intros H1%Z.ltb_lt.
    destruct (Z.eqb_spec xb xc) as [->|Hne2]; simpl.
    + intros _. destruct (Z.eqb_spec xa xc); [lia|]. simpl.
      apply Z.ltb_lt. lia.
    + intros H2%Z.ltb_lt. destruct (Z.eqb_spec xa xc); [lia|]. simpl.
      apply Z.ltb_lt. lia.
Qed.

(** X2.  On operands whose count is their chain length, canonical or not,
    [Bnum_le] is a total preorder whose symmetric part is [Bnum_eq], and
    [Bnum_ge] is [Bnum_le] with the operands exchanged. *)
Theorem Bnum_le_total_preorder (a b c : Bnum) :
  count_ok a -> count_ok b -> count_ok c ->
  Bnum_le a a = true
  /\ (Bnum_le a b = true -> Bnum_le b c = true -> Bnum_le a c = true)
  /\ (Bnum_le a b = true -> Bnum_le b a = true -> Bnum_eq a b = true)
  /\ (Bnum_le a b = true \/ Bnum_le b a = true)
  /\ Bnum_ge a b = Bnum_le b a.
Proof.
  intros Ca Cb Cc. split; [|split; [|split; [|split]]].
  - unfold Bnum_le. rewrite Z.eqb_refl. simpl. apply le_loop_refl.
  - unfold Bnum_le. red in Ca, Cb, Cc. rewrite Ca, Cb, Cc.
    destruct (Z.eqb_spec (Z.of_nat (length (blocks a)))
                (Z.of_nat (length (blocks b)))) as [E1|N1];
      destruct (Z.eqb_spec (Z.of_nat (length (blocks b)))
                  (Z.of_nat (length (blocks c)))) as [E2|N2];
      destruct (Z.eqb_spec (Z.of_nat (length (blocks a)))
                  (Z.of_nat (length (blocks c)))) as [E3|N3];
      simpl; rewrite ?Z.ltb_lt; try lia.
    apply le_loop_trans; rewrite !length_rev; lia.
  - intros H1 H2. rewrite (Bnum_eq_le_ge a b Ca Cb), Bnum_ge_le, H1, H2.
    reflexivity.
  - pose proof (Bnum_le_or_ge a b) as H. rewrite Bnum_ge_le in H.
    destruct (Bnum_le a b); auto.
  - apply Bnum_ge_le.
Qed.

Lemma Bnum_le_total_preorder_witness :
  Bnum_le (mkBnum 1 [0]) (mkBnum 1 [0]) = true.
Proof.
  destruct (Bnum_le_total_preorder (mkBnum 1 [0]) (mkBnum 1 [0])
              (mkBnum 1 [0])) as (H & _); [reflexivity..|exact H].
Defined.

(** ** Well-formed results *)

Lemma add_block_wf (big_num : Bnum) (v : Z) :
  wf big_num -> 0 <= v < 2 ^ 32 -> wf (add_block big_num v).
Proof.
  intros [Hc Hd] Hv. split.
  - red in Hc |- *. simpl. rewrite length_app. simpl. lia.
  - simpl. apply digits_ok_app. auto.
Qed.

Lemma to_uint32_range (x : Z) : 0 <= to_uint32 x < 2 ^ 32.
Proof. apply Z.mod_pos_bound. lia. Qed.

Lemma wf_empty : wf (mkBnum 0 []).
Proof. split; [reflexivity|constructor]. Qed.

Lemma create_loop_wf (fuel : nat) :
  forall (num : Z) (big_num : Bnum),
    wf big_num -> wf (create_loop fuel num big_num).
Proof.
  induction fuel as [|fuel IH]; intros num big_num Hw; simpl; trivial.
  destruct (0 <? num); trivial.
  apply IH, add_block_wf; trivial. apply low_block_range.
Qed.

Lemma Bnum_create_wf (num : Z) : wf (Bnum_create num).
Proof.
  unfold Bnum_create. destruct (num =? 0); [apply wf_empty|].
  apply create_loop_wf, wf_empty.
Qed.

Lemma sum_rest_wf (l : list Z) :
  forall (carry : Z) (sum : Bnum), wf sum -> wf (sum_rest l carry sum).
Proof.
  induction l as [|v l IH]; intros carry sum Hw; simpl; trivial.
  apply IH, add_block_wf; trivial. apply low_block_range.
Qed.

Lemma sum_both_wf (la : list Z) :
  forall (lb : list Z) (carry : Z) (sum : Bnum),
    wf sum -> wf (sum_both la lb carry sum).
Proof.
  induction la as [|va la IH]; intros [|vb lb] carry sum Hw.
  - exact Hw.
  - now apply (sum_rest_wf (vb :: lb)).
  - now apply (sum_rest_wf (va :: la)).
  - simpl. apply IH, add_block_wf; trivial. apply low_block_range.
Qed.

Lemma Bnum_sum_wf (a b : Bnum) : wf (Bnum_sum a b).
Proof. apply sum_both_wf, Bnum_create_wf. Qed.

Lemma shift_loop_wf (fuel : nat) :
  forall (i shift : Z) (cur : Bnum), wf cur -> wf (shift_loop fuel i shift cur).
Proof.
  induction fuel as [|fuel IH]; intros i shift cur Hw; simpl; trivial.
  destruct (i <? shift); trivial.
  apply IH, add_block_wf; trivial. apply to_uint32_range.
Qed.

Lemma mult_row_wf (x : Z) (vs : list Z) :
  forall (carry : Z) (cur : Bnum), wf cur -> wf (mult_row x vs carry cur).
Proof.
  induction vs as [|v vs IH]; intros carry cur Hw; simpl.
  - destruct (negb (carry =? 0)); trivial.
    apply add_block_wf; trivial. apply to_uint32_range.
  - apply IH, add_block_wf; trivial. apply low_block_range.
Qed.

Lemma mult_loop_wf (la : list Z) :
  forall (b : Bnum) (shift : Z) (product : Bnum),
    wf product -> wf (mult_loop la b shift product).
Proof.
  induction la as [|va la IH]; intros b shift product Hw; simpl; trivial.
  apply IH, Bnum_sum_wf.
Qed.

Lemma Bnum_mult_wf (a b : Bnum) : wf (Bnum_mult a b).
Proof. apply mult_loop_wf, Bnum_create_wf. Qed.

(** X3.  Whatever the operands, every [Bnum] the library returns has a count
    equal to the length of its chain and only 32-bit digits. *)
Theorem results_well_formed (a b : Bnum) (v n : Z) :
  wf (Bnum_create v) /\ wf (Bnum_sum a b) /\ wf (Bnum_mult a b)
  /\ wf (Bnum_pow a n).
Proof.
  split; [apply Bnum_create_wf|]. split; [apply Bnum_sum_wf|].
  split; [apply Bnum_mult_wf|].
  rewrite Bnum_pow_iter. induction (Z.to_nat n) as [|k IH]; simpl.
  - apply Bnum_create_wf.
  - apply Bnum_mult_wf.
Qed.

(** ** Laws of addition *)

Lemma sum_both_comm (la : list Z) :
  forall (lb : list Z) (carry : Z) (sum : Bnum),
    sum_both la lb carry sum = sum_both lb la carry sum.
Proof.
  induction la as [|va la IH]; intros [|vb lb] carry sum; trivial.
  simpl. rewrite (Z.add_comm vb va). apply IH.
Qed.

(** X4.  [Bnum_sum] does not depend on the order of its operands: the two
    results are the same record, digit for digit. *)
Theorem Bnum_sum_comm (a b : Bnum) : Bnum_sum a b = Bnum_sum b a.
Proof. apply sum_both_comm. Qed.

(** Without a carry the second loop copies the rest of the operand. *)
Lemma sum_rest_copy (l : list Z) :
  forall sum : Bnum,
    digits_ok l ->
    sum_rest l 0 sum
    = mkBnum (num_blocks sum + Z.of_nat (length l)) (blocks sum ++ l).
Proof.
  induction l as [|v l IH]; intros sum Hl.
  - simpl. rewrite Z.add_0_r, app_nil_r. now destruct sum.
  - apply Forall_cons in Hl as [Hv Hl]. simpl sum_rest.
    rewrite Z.add_0_r, (to_uint64_small v) by lia.
    rewrite shiftr_block, (Z.div_small v) by lia.
    rewrite low_block_mod, (Z.mod_small v) by lia.
    rewrite IH by trivial. unfold add_block. simpl.
    rewrite <- app_assoc. simpl. f_equal. lia.
Qed.

Lemma Bnum_sum_zero_l (a : Bnum) :
  wf a -> Bnum_sum (Bnum_create 0) a = a.
Proof.
  intros [Hc Hd]. unfold Bnum_sum. rewrite Bnum_create_0. simpl blocks.
  replace (sum_both [] (blocks a) 0 (mkBnum 0 []))
    with (sum_rest (blocks a) 0 (mkBnum 0 []))
    by (destruct (blocks a); reflexivity).
  rewrite sum_rest_copy by trivial. simpl.
  red in Hc. rewrite <- Hc. now destruct a.
Qed.

(** X5.  Adding zero, on either side, returns the other operand. *)
Theorem Bnum_sum_zero (a : Bnum) :
  wf a ->
  Bnum_sum a (Bnum_create 0) = a /\ Bnum_sum (Bnum_create 0) a = a.
Proof.
  intros Hw. pose proof (Bnum_sum_zero_l a Hw) as H.
  split; [|exact H]. unfold Bnum_sum in *. now rewrite sum_both_comm.
Qed.

Lemma Bnum_sum_zero_witness :
  Bnum_sum (mkBnum 2 [7; 3]) (Bnum_create 0) = mkBnum 2 [7; 3].
Proof.
  destruct (Bnum_sum_zero (mkBnum 2 [7; 3])) as [H _]; [|exact H].
  split; [reflexivity|]. repeat constructor; lia.
Defined.

(** A digit list with a zero on top is worth less than its width minus one
    digit allows. *)
Lemma value_of_top_zero (l : list Z) :
  digits_ok l -> last l = Some 0 ->
  value_of l < 2 ^ (32 * (Z.of_nat (length l) - 1)).
Proof.
  destruct l as [|d l _] using rev_ind; [discriminate|].
  intros [Hl Hd]%digits_ok_app Hlast.
  rewrite last_snoc in Hlast. injection Hlast as ->.
  rewrite value_of_app, length_app. simpl length.
  replace (Z.of_nat (length l + 1) - 1) with (Z.of_nat (length l)) by lia.
  pose proof (value_of_bound l Hl). lia.
Qed.

(** X6.  The value of the sum is the sum of the values reduced modulo the width
    of the longer operand: either the exact sum, or the exact sum less
    that modulus when a carry left the last position. *)
Theorem Bnum_sum_modular (a b : Bnum) :
  digits_ok (blocks a) -> digits_ok (blocks b) ->
  value (Bnum_sum a b)
  = (value a + value b)
    mod 2 ^ (32 * Z.of_nat (Nat.max (length (blocks a)) (length (blocks b))))
  /\ (value (Bnum_sum a b) = value a + value b
      \/ value (Bnum_sum a b)
         = value a + value b
           - 2 ^ (32 * Z.of_nat (Nat.max (length (blocks a))
                                    (length (blocks b))))).
Proof.
  intros Ha Hb. split; [now apply Bnum_sum_value|].
  rewrite Bnum_sum_value by trivial.
  pose proof (value_of_bound _ Ha) as Ba.
  pose proof (value_of_bound _ Hb) as Bb.
  unfold value.
  set (m := Nat.max (length (blocks a)) (length (blocks b))).
  assert (2 ^ (32 * Z.of_nat (length (blocks a))) <= 2 ^ (32 * Z.of_nat m))
    by (apply Z.pow_le_mono_r; lia).
  assert (2 ^ (32 * Z.of_nat (length (blocks b))) <= 2 ^ (32 * Z.of_nat m))
    by (apply Z.pow_le_mono_r; lia).
  set (p := 2 ^ (32 * Z.of_nat m)) in *.
  destruct (Z.lt_ge_cases (value_of (blocks a) + value_of (blocks b)) p).
  - left. apply Z.mod_small. lia.
  - right.
    replace (value_of (blocks a) + value_of (blocks b))
      with ((value_of (blocks a) + value_of (blocks b) - p) + 1 * p) at 1
      by ring.
    rewrite Z.mod_add by lia. apply Z.mod_small. lia.
Qed.

Lemma Bnum_sum_modular_witness :
  value (Bnum_sum (mkBnum 1 [4294967295]) (mkBnum 1 [2]))
  = (value (mkBnum 1 [4294967295]) + value (mkBnum 1 [2])) mod 2 ^ 32.
Proof.
  destruct (Bnum_sum_modular (mkBnum 1 [4294967295]) (mkBnum 1 [2]))
    as [H _]; [repeat constructor; lia | repeat constructor; lia | exact H].
Defined.

(** X7.  When the sum of two canonical operands fits the width of the longer
    one, [Bnum_sum] is exact and its result is canonical. *)
Theorem Bnum_sum_fits (a b : Bnum) :
  canonical a -> canonical b ->
  value a + value b
  < 2 ^ (32 * Z.of_nat (Nat.max (length (blocks a)) (length (blocks b)))) ->
  value (Bnum_sum a b) = value a + value b /\ canonical (Bnum_sum a b).
Proof.
  intros [[Ca Da] La] [[Cb Db] Lb] Hfit.
  assert (value (Bnum_sum a b) = value a + value b) as Hv
    by (now apply Bnum_sum_exact_iff).
  split; [exact Hv|]. split; [apply Bnum_sum_wf|].
  intros Hlast.
  pose proof (Bnum_sum_wf a b) as [_ Ds].
  pose proof (value_of_top_zero _ Ds Hlast) as Htop.
  destruct (sum_both_count (blocks a) (blocks b) 0 (Bnum_create 0))
    as [_ Hlen].
  fold (Bnum_sum a b) in Hlen. rewrite Bnum_create_0 in Hlen.
  simpl in Hlen.
  assert (0 < length (blocks (Bnum_sum a b)))%nat as Hpos.
  { destruct (blocks (Bnum_sum a b)); [discriminate|simpl; lia]. }
  rewrite Hlen in Htop, Hpos.
  fold (value (Bnum_sum a b)) in Htop. rewrite Hv in Htop.
  pose proof (value_of_bound _ Da) as Ba.
  pose proof (value_of_bound _ Db) as Bb.
  unfold value in Htop.
  destruct (Nat.max_spec_le (length (blocks a)) (length (blocks b)))
    as [[Hle Hm]|[Hle Hm]]; rewrite Hm in Htop, Hpos.
  - assert (blocks b <> []) as Hnb
      by (intros E; rewrite E in Hpos; simpl in Hpos; lia).
    pose proof (value_of_lower _ Db Lb Hnb). lia.
  - assert (blocks a <> []) as Hna
      by (intros E; rewrite E in Hpos; simpl in Hpos; lia).
    pose proof (value_of_lower _ Da La Hna). lia.
Qed.

Lemma Bnum_sum_fits_witness :
  value (Bnum_sum (mkBnum 1 [5]) (mkBnum 2 [7; 3]))
  = value (mkBnum 1 [5]) + value (mkBnum 2 [7; 3])
  /\ canonical (Bnum_sum (mkBnum 1 [5]) (mkBnum 2 [7; 3])).
Proof.
  apply Bnum_sum_fits.
  - unfold canonical, wf, count_ok, digits_ok. simpl.
    repeat split; [repeat constructor; lia | intros [=]].
  - unfold canonical, wf, count_ok, digits_ok. simpl.
    repeat split; [repeat constructor; lia | intros [=]].
  - vm_compute. reflexivity.
Defined.

(** ** Laws of multiplication *)

Lemma shift_loop_blocks (k : nat) :
  forall (i shift : Z) (cur : Bnum),
    Z.to_nat (shift - i) = k ->
    shift_loop k i shift cur
    = mkBnum (num_blocks cur + Z.of_nat k) (blocks cur ++ replicate k 0).
Proof.
  induction k as [|k IH]; intros i shift cur Hk.
  - simpl. rewrite Z.add_0_r, app_nil_r. now destruct cur.
  - simpl shift_loop. destruct (Z.ltb_spec i shift); [|lia].
    rewrite IH by lia. unfold add_block. simpl blocks. simpl num_blocks.
    change (to_uint32 0) with 0.
    rewrite <- app_assoc. simpl. f_equal. lia.
Qed.

Lemma product_step (x v carry : Z) :
  0 <= x < 2 ^ 32 -> 0 <= v < 2 ^ 32 -> 0 <= carry < 2 ^ 32 ->
  to_uint64 (x * v + carry) = x * v + carry
  /\ 0 <= Z.shiftr (to_uint64 (x * v + carry)) BLOCK_SIZE < 2 ^ 32.
Proof.
  intros Hx Hv Hc.
  assert (0 <= x * v + carry < 2 ^ 64) as Hb by nia.
  rewrite to_uint64_small by exact Hb. split; trivial.
  rewrite shiftr_block. split.
  - apply Z.div_pos; lia.
  - apply Z.div_lt_upper_bound; lia.
Qed.

(** A row of block products is exact: with its last carry appended it is
    worth the digit times the operand, on top of what was there. *)
Lemma mult_row_value (x : Z) (vs : list Z) :
  0 <= x < 2 ^ 32 -> digits_ok vs ->
  forall (carry : Z) (cur : Bnum),
    0 <= carry < 2 ^ 32 ->
    value (mult_row x vs carry cur)
    = value cur
      + 2 ^ (32 * Z.of_nat (length (blocks cur))) * (x * value_of vs + carry).
Proof.
  intros Hx Hvs. induction Hvs as [|v vs Hv Hvs IH]; intros carry cur Hc.
  - simpl. destruct (Z.eqb_spec carry 0) as [->|Hne]; simpl.
    + lia.
    + unfold value, add_block. simpl blocks. rewrite value_of_app.
      rewrite to_uint32_small by lia. lia.
  - simpl mult_row.
    destruct (product_step x v carry Hx Hv Hc) as [E Hc'].
    rewrite IH by exact Hc'. rewrite E. clear IH.
    unfold value, add_block. simpl blocks.
    rewrite value_of_app, length_app. simpl length.
    rewrite low_block_mod, shiftr_block.
    replace (length (blocks cur) + 1)%nat with (S (length (blocks cur)))
      by lia.
    rewrite pow32_S. simpl value_of.
    pose proof (Z.div_mod (x * v + carry) (2 ^ 32) ltac:(lia)) as Hdm.
    set (q := (x * v + carry) / 2 ^ 32) in *.
    set (r := (x * v + carry) mod 2 ^ 32) in *.
    set (p := 2 ^ (32 * Z.of_nat (length (blocks cur)))).
    replace (x * (v + 2 ^ 32 * value_of vs))
      with (x * v + 2 ^ 32 * (x * value_of vs)) by ring.
    replace (x * v) with (2 ^ 32 * q + r - carry) by lia. ring.
Qed.

Lemma mult_loop_cons (va : Z) (la : list Z) (b : Bnum) (shift : Z)
    (product : Bnum) :
  mult_loop (va :: la) b shift product
  = mult_loop la b (shift + 1)
      (Bnum_sum product
         (mult_row va (blocks b) 0
            (shift_loop (Z.to_nat shift) 0 shift (Bnum_create 0)))).
Proof. reflexivity. Qed.

Lemma mult_loop_one_block (x : Z) (b : Bnum) :
  mult_loop [x] b 0 (Bnum_create 0)
  = Bnum_sum (Bnum_create 0) (mult_row x (blocks b) 0 (mkBnum 0 [])).
Proof. reflexivity. Qed.

(** X8.  With a one-block left operand there is a single partial product and
    nothing to fold: the product is exact. *)
Theorem Bnum_mult_one_block (a b : Bnum) (x : Z) :
  blocks a = [x] -> 0 <= x < 2 ^ 32 -> digits_ok (blocks b) ->
  value (Bnum_mult a b) = x * value b
  /\ value (Bnum_mult a b) = value a * value b.
Proof.
  intros Ea Hx Hb.
  assert (value (Bnum_mult a b) = x * value b) as H.
  { unfold Bnum_mult. rewrite Ea, mult_loop_one_block.
    rewrite Bnum_sum_zero_l by (apply mult_row_wf, wf_empty).
    rewrite mult_row_value by (trivial; lia).
    unfold value. simpl. lia. }
  split; [exact H|]. rewrite H. unfold value at 2. rewrite Ea. simpl. lia.
Qed.

Lemma Bnum_mult_one_block_witness :
  value (Bnum_mult (mkBnum 1 [4294967295]) (mkBnum 2 [4294967295; 1]))
  = 4294967295 * value (mkBnum 2 [4294967295; 1]).
Proof.
  destruct (Bnum_mult_one_block (mkBnum 1 [4294967295])
              (mkBnum 2 [4294967295; 1]) 4294967295) as [H _];
    [reflexivity | lia | repeat constructor; lia | exact H].
Defined.

Lemma mult_row_by_one (vs : list Z) :
  digits_ok vs ->
  forall cur : Bnum,
    mult_row 1 vs 0 cur
    = mkBnum (num_blocks cur + Z.of_nat (length vs)) (blocks cur ++ vs).
Proof.
  induction 1 as [|v vs Hv Hvs IH]; intros cur.
  - cbn [mult_row length]. change (negb (0 =? 0)) with false. cbv iota.
    rewrite Z.add_0_r, app_nil_r. now destruct cur.
  - cbn [mult_row].
    replace (1 * v + 0) with v by lia.
    rewrite (to_uint64_small v), shiftr_block, (Z.div_small v) by lia.
    rewrite low_block_mod, (Z.mod_small v) by lia.
    rewrite IH. unfold add_block. cbn [blocks num_blocks length].
    rewrite <- app_assoc. cbn [app]. f_equal. lia.
Qed.

(** A row against the one-block number 1 is the digit itself. *)
Lemma mult_row_digit_one (va : Z) (cur : Bnum) :
  0 <= va < 2 ^ 32 -> mult_row va [1] 0 cur = add_block cur va.
Proof.
  intros Hva. cbn [mult_row].
  replace (va * 1 + 0) with va by lia.
  rewrite (to_uint64_small va), shiftr_block, (Z.div_small va) by lia.
  rewrite low_block_mod, (Z.mod_small va) by lia.
  change (negb (0 =? 0)) with false. reflexivity.
Qed.

(** Pairing a chain with as many zeros adds nothing and passes no carry. *)
Lemma sum_both_zeros (p : list Z) :
  digits_ok p ->
  forall (r : list Z) (sum : Bnum),
    sum_both p (replicate (length p) 0 ++ r) 0 sum
    = sum_rest r 0
        (mkBnum (num_blocks sum + Z.of_nat (length p)) (blocks sum ++ p)).
Proof.
  induction 1 as [|v p Hv Hp IH]; intros r sum.
  - cbn [length replicate app]. rewrite Z.add_0_r, app_nil_r.
    destruct sum. destruct r; reflexivity.
  - cbn [length replicate app sum_both]. rewrite !Z.add_0_r.
    rewrite (to_uint64_small v), shiftr_block, (Z.div_small v) by lia.
    rewrite low_block_mod, (Z.mod_small v) by lia.
    rewrite IH. unfold add_block. cbn [blocks num_blocks].
    rewrite <- app_assoc. cbn [app]. do 2 f_equal. lia.
Qed.

(** Adding a chain of zeros with one more block on top appends the block. *)
Lemma Bnum_sum_append (p r : list Z) (n : Z) :
  digits_ok p -> digits_ok r ->
  Bnum_sum (of_digits p) (mkBnum n (replicate (length p) 0 ++ r))
  = of_digits (p ++ r).
Proof.
  intros Hp Hr. unfold Bnum_sum. rewrite Bnum_create_0.
  unfold of_digits at 1. cbn [blocks].
  rewrite sum_both_zeros, sum_rest_copy by trivial.
  cbn [blocks num_blocks app]. unfold of_digits. f_equal.
  rewrite length_app. lia.
Qed.

Lemma shifted_zeros (k : nat) :
  shift_loop (Z.to_nat (Z.of_nat k)) 0 (Z.of_nat k) (Bnum_create 0)
  = mkBnum (Z.of_nat k) (replicate k 0).
Proof.
  rewrite shift_loop_blocks by lia.
  rewrite Nat2Z.id, Bnum_create_0. reflexivity.
Qed.

Lemma mult_loop_by_one (la : list Z) :
  digits_ok la ->
  forall p : list Z,
    digits_ok p ->
    mult_loop la (Bnum_create 1) (Z.of_nat (length p)) (of_digits p)
    = of_digits (p ++ la).
Proof.
  induction 1 as [|va la Hva Hla IH]; intros p Hp.
  - cbn [mult_loop]. now rewrite app_nil_r.
  - rewrite mult_loop_cons, shifted_zeros.
    change (blocks (Bnum_create 1)) with [1].
    rewrite mult_row_digit_one by trivial.
    unfold add_block. cbn [blocks num_blocks].
    rewrite Bnum_sum_append by (trivial; repeat constructor; lia).
    replace (Z.of_nat (length p) + 1) with (Z.of_nat (length (p ++ [va])))
      by (rewrite length_app; cbn [length]; lia).
    rewrite IH by (apply digits_ok_app; auto).
    now rewrite <- app_assoc.
Qed.

Lemma of_digits_blocks (a : Bnum) : count_ok a -> of_digits (blocks a) = a.
Proof. intros Hc. red in Hc. unfold of_digits. rewrite <- Hc. now destruct a. Qed.

(** X9.  The number 1 made by [Bnum_create] is neutral on both sides. *)
Theorem Bnum_mult_one (a : Bnum) :
  wf a ->
  Bnum_mult (Bnum_create 1) a = a /\ Bnum_mult a (Bnum_create 1) = a.
Proof.
  intros Hw. pose proof Hw as [Hc Hd]. split.
  - unfold Bnum_mult. change (blocks (Bnum_create 1)) with [1].
    rewrite mult_loop_one_block, mult_row_by_one by trivial.
    cbn [blocks num_blocks app length].
    rewrite Bnum_sum_zero_l by (split; [reflexivity|exact Hd]).
    rewrite Z.add_0_l. now apply of_digits_blocks.
  - unfold Bnum_mult.
    change (Bnum_create 0) with (of_digits []).
    change 0 with (Z.of_nat (length (@nil Z))).
    rewrite (mult_loop_by_one (blocks a) Hd [] ltac:(constructor)).
    cbn [app]. now apply of_digits_blocks.
Qed.

Lemma Bnum_mult_one_witness :
  Bnum_mult (mkBnum 2 [7; 3]) (Bnum_create 1) = mkBnum 2 [7; 3].
Proof.
  destruct (Bnum_mult_one (mkBnum 2 [7; 3])) as [_ H]; [|exact H].
  split; [reflexivity|]. repeat constructor; lia.
Defined.

Lemma value_of_zeros (k : nat) : value_of (replicate k 0) = 0.
Proof. induction k as [|k IH]; cbn [replicate value_of]; [|rewrite IH]; lia. Qed.

Lemma replicate_snoc_0 (k : nat) :
  replicate (S k) 0 = replicate (length (replicate k 0)) 0 ++ [0].
Proof.
  rewrite length_replicate. change [0] with (replicate 1 0).
  rewrite <- replicate_add. f_equal. lia.
Qed.

Lemma mult_loop_by_zero (la : list Z) :
  forall k : nat,
    mult_loop la (Bnum_create 0) (Z.of_nat k) (of_digits (replicate (pred k) 0))
    = of_digits (replicate (pred (k + length la)) 0).
Proof.
  induction la as [|va la IH]; intros k.
  - cbn [mult_loop length]. now rewrite Nat.add_0_r.
  - rewrite mult_loop_cons, shifted_zeros.
    change (blocks (Bnum_create 0)) with (@nil Z). cbn [mult_row].
    change (negb (0 =? 0)) with false. cbv iota.
    replace (Bnum_sum (of_digits (replicate (pred k) 0))
               (mkBnum (Z.of_nat k) (replicate k 0)))
      with (of_digits (replicate (pred (S k)) 0)).
    + replace (Z.of_nat k + 1) with (Z.of_nat (S k)) by lia.
      rewrite IH. cbn [length]. do 2 f_equal. lia.
    + destruct k as [|j]; [reflexivity|]. cbn [pred].
      rewrite replicate_snoc_0.
      rewrite Bnum_sum_append
        by (try apply Forall_replicate; repeat constructor; lia).
      now rewrite length_replicate.
Qed.

(** X10.  Multiplying by the empty number: on the left the result is empty; on
    the right it is worth zero but consists of one zero block for every
    block of [a] after the first, whatever the digits of [a]. *)
Theorem Bnum_mult_zero (a : Bnum) :
  Bnum_mult (Bnum_create 0) a = Bnum_create 0
  /\ blocks (Bnum_mult a (Bnum_create 0))
     = replicate (pred (length (blocks a))) 0
  /\ value (Bnum_mult a (Bnum_create 0)) = 0.
Proof.
  split; [reflexivity|].
  assert (Bnum_mult a (Bnum_create 0)
          = of_digits (replicate (pred (length (blocks a))) 0)) as E.
  { unfold Bnum_mult.
    change (mult_loop (blocks a) (Bnum_create 0) 0 (Bnum_create 0))
      with (mult_loop (blocks a) (Bnum_create 0) (Z.of_nat 0)
              (of_digits (replicate (pred 0) 0))).
    apply mult_loop_by_zero. }
  rewrite E. split; [reflexivity|]. apply value_of_zeros.
Qed.

(** ** Block count of a product *)

Lemma mult_row_length (x : Z) (vs : list Z) :
  forall (carry : Z) (cur : Bnum),
    (length (blocks cur) + length vs
     <= length (blocks (mult_row x vs carry cur))
     <= length (blocks cur) + length vs + 1)%nat.
Proof.
  induction vs as [|v vs IH]; intros carry cur; simpl.
  - destruct (negb (carry =? 0)); simpl; rewrite ?length_app; simpl; lia.
  - specialize (IH (Z.shiftr (to_uint64 (x * v + carry)) BLOCK_SIZE)
                  (add_block cur (low_block (to_uint64 (x * v + carry))))).
    simpl in IH. rewrite length_app in IH. simpl in IH. lia.
Qed.

Lemma mult_loop_length (b : Bnum) (la : list Z) :
  forall (k : nat) (product : Bnum),
    (length (blocks product) <= k + length (blocks b))%nat ->
    (length (blocks (mult_loop la b (Z.of_nat k) product))
     <= k + length la + length (blocks b))%nat.
Proof.
  induction la as [|va la IH]; intros k product Hp.
  - simpl. lia.
  - rewrite mult_loop_cons.
    replace (Z.of_nat k + 1) with (Z.of_nat (S k)) by lia.
    set (row := mult_row va (blocks b) 0 _).
    assert (length (blocks row) <= k + length (blocks b) + 1)%nat as Hrow.
    { subst row. rewrite shifted_zeros.
      pose proof (mult_row_length va (blocks b) 0
                    (mkBnum (Z.of_nat k) (replicate k 0))) as H.
      cbn [blocks] in H. rewrite length_replicate in H. lia. }
    specialize (IH (S k) (Bnum_sum product row)).
    cbn [length]. etransitivity; [apply IH|lia].
    destruct (sum_both_count (blocks product) (blocks row) 0 (Bnum_create 0))
      as [_ Hlen].
    fold (Bnum_sum product row) in Hlen. rewrite Hlen, Bnum_create_0.
    cbn [blocks length]. lia.
Qed.

(** X11.  A product never has more blocks than its two operands together, and
    its count is the length of its chain. *)
Theorem Bnum_mult_count (a b : Bnum) :
  (length (blocks (Bnum_mult a b))
   <= length (blocks a) + length (blocks b))%nat
  /\ num_blocks (Bnum_mult a b) = Z.of_nat (length (blocks (Bnum_mult a b))).
Proof.
  split; [|apply Bnum_mult_wf].
  unfold Bnum_mult.
  apply (mult_loop_length b (blocks a) 0 (Bnum_create 0)).
  rewrite Bnum_create_0. simpl. lia.
Qed.

(** ** Powers *)

(** X12.  One more round of the loop is one more multiplication by [a]; the first
    power of a well-formed [a] is [a]. *)
Theorem Bnum_pow_succ (a : Bnum) (n : Z) :
  0 <= n ->
  Bnum_pow a (n + 1) = Bnum_mult (Bnum_pow a n) a
  /\ (wf a -> Bnum_pow a 1 = a).
Proof.
  intros Hn. split.
  - rewrite !Bnum_pow_iter.
    replace (Z.to_nat (n + 1)) with (S (Z.to_nat n)) by lia. reflexivity.
  - intros Hw. pose proof Hw as [Hc Hd].
    rewrite Bnum_pow_iter. change (Z.to_nat 1) with 1%nat. cbn [Nat.iter nat_rect].
    unfold Bnum_mult. change (blocks (Bnum_create 1)) with [1].
    rewrite mult_loop_one_block, mult_row_by_one by trivial.
    cbn [blocks num_blocks app length].
    rewrite Bnum_sum_zero_l by (split; [reflexivity|exact Hd]).
    rewrite Z.add_0_l. now apply of_digits_blocks.
Qed.

Lemma Bnum_pow_succ_witness :
  Bnum_pow (Bnum_create 3) (2 + 1)
  = Bnum_mult (Bnum_pow (Bnum_create 3) 2) (Bnum_create 3).
Proof.
  destruct (Bnum_pow_succ (Bnum_create 3) 2) as [H _]; [lia|exact H].
Defined.

(** ** Printing *)

Lemma rev_seq_S (n : nat) : rev (seq 0 (S n)) = n :: rev (seq 0 n).
Proof. rewrite seq_S, rev_app_distr. reflexivity. Qed.

Lemma bit_step (v : Z) (n : nat) :
  v mod 2 ^ Z.of_nat (S n)
  = v mod 2 ^ Z.of_nat n + 2 ^ Z.of_nat n * Z.b2z (Z.testbit v (Z.of_nat n)).
Proof.
  rewrite Z.testbit_spec' by lia.
  replace (Z.of_nat (S n)) with (Z.of_nat n + 1) by lia.
  rewrite Z.pow_add_r, Z.pow_1_r by lia.
  apply Z.rem_mul_r; [apply Z.pow_nonzero|]; lia.
Qed.

(** Reading back the [n] low bits, printed most significant first. *)
Lemma read_bits (v : Z) (n : nat) (acc : Z) :
  fold_left (fun acc c => 2 * acc + (if Ascii.eqb c "1"%char then 1 else 0))
    (map (fun i : nat =>
            if Z.testbit v (Z.of_nat i) then "1"%char else "0"%char)
         (rev (seq 0 n))) acc
  = acc * 2 ^ Z.of_nat n + v mod 2 ^ Z.of_nat n.
Proof.
  revert acc. induction n as [|n IH]; intros acc.
  - cbn [seq rev map fold_left]. rewrite Z.pow_0_r, Z.mod_1_r. lia.
  - rewrite rev_seq_S. cbn [map fold_left]. rewrite IH, bit_step.
    replace (Z.of_nat (S n)) with (Z.of_nat n + 1) by lia.
    rewrite Z.pow_add_r, Z.pow_1_r by lia.
    destruct (Z.testbit v (Z.of_nat n)); cbn [Z.b2z];
      [change (Ascii.eqb "1" "1") with true
      |change (Ascii.eqb "0" "1") with false]; lia.
Qed.

(** A 32-bit digit is printed as exactly 32 characters. *)
Lemma printf_032b_digit (v : Z) :
  0 <= v < 2 ^ 32 ->
  printf_032b v
  = map (fun i : nat =>
           if Z.testbit v (Z.of_nat i) then "1"%char else "0"%char)
        (rev (seq 0 32)).
Proof.
  intros Hv. unfold printf_032b.
  replace (Z.max 32 (Z.log2 v + 1)) with 32; [reflexivity|].
  destruct (Z.eq_dec v 0) as [->|Hne]; [reflexivity|].
  assert (Z.log2 v < 32) by (apply Z.log2_lt_pow2; lia). lia.
Qed.

Lemma print_loop_app (l1 l2 : list Z) :
  print_loop (l1 ++ l2) = print_loop l1 ++ print_loop l2.
Proof.
  induction l1 as [|v l1 IH]; cbn [app print_loop]; trivial.
  now rewrite IH, app_assoc.
Qed.

Lemma print_loop_reads_back (l : list Z) :
  digits_ok l ->
  length (print_loop (rev l)) = (32 * length l)%nat
  /\ read_binary (print_loop (rev l)) = value_of l
  /\ Forall (fun c => c = "0"%char \/ c = "1"%char) (print_loop (rev l)).
Proof.
  induction 1 as [|d l Hd Hl (IH1 & IH2 & IH3)].
  - repeat split. constructor.
  - cbn [rev]. rewrite print_loop_app. cbn [print_loop].
    rewrite app_nil_r, printf_032b_digit by trivial.
    split; [|split].
    + rewrite length_app, IH1, length_map, length_rev, length_seq.
      cbn [length]. lia.
    + unfold read_binary in *. rewrite fold_left_app, IH2, read_bits.
      change (Z.of_nat 32) with 32. rewrite Z.mod_small by lia.
      cbn [value_of]. lia.
    + apply Forall_app. split; trivial.
      apply Forall_forall. intros c [i [-> _]]%list_elem_of_fmap.
      destruct (Z.testbit d (Z.of_nat i)); auto.
Qed.

(** X13.  What [Bnum_print] writes: for each block, from the most significant
    down, exactly 32 characters [0] or [1], which read as one binary number
    are the value; then the cached count in decimal between
    [" (blocks: "] and [")"], and a newline. *)
Theorem Bnum_print_reads_back (a : Bnum) :
  digits_ok (blocks a) ->
  exists bits : list ascii,
    Bnum_print a
    = String.string_of_list_ascii bits
      +:+ " (blocks: " +:+ printf_d (num_blocks a) +:+ ")"
      +:+ String "010"%char EmptyString
    /\ length bits = (32 * length (blocks a))%nat
    /\ Forall (fun c => c = "0"%char \/ c = "1"%char) bits
    /\ read_binary bits = value a.
Proof.
  intros Hd. destruct (print_loop_reads_back _ Hd) as (H1 & H2 & H3).
  exists (print_loop (rev (blocks a))). repeat split; assumption.
Qed.

Lemma Bnum_print_reads_back_witness :
  exists bits : list ascii,
    Bnum_print (Bnum_create 4294967301)
    = String.string_of_list_ascii bits
      +:+ " (blocks: " +:+ printf_d 2 +:+ ")"
      +:+ String "010"%char EmptyString
    /\ length bits = 64%nat
    /\ Forall (fun c => c = "0"%char \/ c = "1"%char) bits
    /\ read_binary bits = 4294967301.
Proof.
  apply (Bnum_print_reads_back (Bnum_create 4294967301)).
  change (digits_ok [5; 1]). repeat constructor; lia.
Defined.

(** * Further properties of the store-level functions *)

(** ** Exact footprints *)

Lemma add_block_exact (h0 h : gmap positive Mem.cell) (r : positive)
    (ps : list positive) (vs : list Z) (v : Z) :
  exact_bnum h0 h r ps vs ->
  exists (c : positive) (h' : gmap positive Mem.cell),
    Mem.add_block r v h = Some (tt, h')
    /\ exact_bnum h0 h' r (ps ++ [c]) (vs ++ [v]).
Proof.
  intros [Hf Hex].
  destruct (add_block_fresh _ _ _ _ _ v Hf) as (c & h' & E & Hf').
  exists c, h'. split; [exact E|]. split; [exact Hf'|].
  pose proof Hf as ((Hr & Hlen & Hnd & Hblk) & _).
  pose proof Hf' as ((Hr' & _) & _).
  rewrite last_snoc in Hr'.
  intros l Hl.
  assert (l <> r /\ (l ∉ ps) /\ l <> c) as (Hlr & Hlps & Hlc).
  { repeat split; intros H; apply Hl.
    - subst. now left.
    - right. apply elem_of_app. now left.
    - subst. right. apply elem_of_app. right. constructor. }
  rewrite <- Hex by (intros [->|H]%elem_of_cons; auto).
  destruct ps as [|m ps _] using rev_ind.
  - simpl in Hr. rewrite (add_block_empty _ _ _ _ Hr) in E.
    injection E as <-.
    rewrite lookup_insert_eq in Hr'. injection Hr' as _ Hc.
    rewrite !lookup_insert_ne by congruence. reflexivity.
  - assert ((ps ++ [m]) !! length ps = Some m) as Hlm.
    { rewrite lookup_app_r by lia. now rewrite Nat.sub_diag. }
    destruct (Hblk _ _ Hlm) as (vm & _ & Hcm).
    rewrite last_snoc in Hr.
    assert (exists f, head (ps ++ [m]) = Some f) as [f Hf0]
      by (destruct ps; simpl; eauto).
    rewrite Hf0 in Hr.
    rewrite (add_block_last _ _ _ _ _ _ _ Hr Hcm) in E.
    injection E as <-.
    rewrite lookup_insert_eq in Hr'. injection Hr' as _ Hc.
    assert (l <> m).
    { intros ->. apply Hlps. apply elem_of_app. right. constructor. }
    rewrite !lookup_insert_ne by congruence. reflexivity.
Qed.

Lemma exact_bnum_empty (h : gmap positive Mem.cell) (r : positive) :
  h !! r = None ->
  exact_bnum h (<[r := Mem.Cbnum (Mem.mkBnum 0 None None)]> h) r [] [].
Proof.
  intros Hr. split.
  - split; [|split; [|split]].
    + split; [apply lookup_insert_eq|]. split; [reflexivity|].
      split; [apply NoDup_nil_2|]. intros i l [=].
    + now apply insert_subseteq.
    + exact Hr.
    + intros l Hl. inversion Hl.
  - intros l Hl. apply lookup_insert_ne. intros ->. apply Hl. now left.
Qed.

Lemma create_loop_exact (h0 : gmap positive Mem.cell) (r : positive) (k : nat) :
  forall (fuel fuel_p : nat) (num : Z) (big_num : Bnum)
         (h : gmap positive Mem.cell) (ps : list positive),
    0 <= num < 2 ^ (32 * Z.of_nat k) ->
    (k < fuel)%nat -> (k < fuel_p)%nat ->
    exact_bnum h0 h r ps (blocks big_num) ->
    exists (h' : gmap positive Mem.cell) (ps' : list positive),
      Mem.create_loop fuel num r h = Some (tt, h')
      /\ exact_bnum h0 h' r ps' (blocks (create_loop fuel_p num big_num)).
Proof.
  induction k as [|k IH]; intros fuel fuel_p num big_num h ps Hnum Hf Hfp Hb;
    (destruct fuel as [|fuel]; [lia|]);
    (destruct fuel_p as [|fuel_p]; [lia|]); simpl.
  - simpl in Hnum. destruct (Z.ltb_spec 0 num); [lia|]. eauto.
  - destruct (Z.ltb_spec 0 num); [|eauto].
    destruct (add_block_exact _ _ _ _ _ (low_block num) Hb)
      as (c & h1 & E1 & Hb1).
    mstep E1.
    apply (IH fuel fuel_p _ (add_block big_num (low_block num)) h1 (ps ++ [c]));
      trivial; try lia.
    rewrite shiftr_block. rewrite pow32_S in Hnum.
    assert (0 <= num / 2 ^ 32 < 2 ^ (32 * Z.of_nat k)) as Hq.
    { split; [apply Z.div_pos; lia|apply Z.div_lt_upper_bound; lia]. }
    pose proof (Z.mod_pos_bound (num / 2 ^ 32) (2 ^ 64) ltac:(lia)) as Hm.
    pose proof (Z.mod_le (num / 2 ^ 32) (2 ^ 64) ltac:(lia) ltac:(lia)).
    unfold to_uint64. lia.
Qed.

Lemma Bnum_create_exact (h : gmap positive Mem.cell) (fuel : nat) (num : Z) :
  0 <= num < 2 ^ 64 -> (2 < fuel)%nat ->
  exists (r : positive) (h' : gmap positive Mem.cell) (ps : list positive),
    Mem.Bnum_create fuel num h = Some (r, h')
    /\ exact_bnum h h' r ps (blocks (Bnum_create num)).
Proof.
  intros Hnum Hfuel.
  destruct (malloc_eq h (Mem.Cbnum (Mem.mkBnum 0 None None))) as [Em Hr].
  set (r := fresh (dom h)) in *.
  unfold Mem.Bnum_create. mstep Em.
  erewrite bind_eq; [|apply set_bnum_eq, lookup_insert_eq].
  erewrite bind_eq; [|apply set_bnum_eq, lookup_insert_eq].
  erewrite bind_eq; [|apply set_bnum_eq, lookup_insert_eq].
  rewrite !insert_insert_eq. cbn [Mem.with_count Mem.with_least Mem.with_most
    Mem.num_blocks Mem.least_significant Mem.most_significant].
  pose proof (exact_bnum_empty h r Hr) as Hb.
  unfold Bnum_create. destruct (Z.eqb_spec num 0) as [->|Hne].
  - exists r. eexists. exists []. split; [reflexivity|exact Hb].
  - destruct (create_loop_exact h r 2 fuel 64 num (mkBnum 0 []) _ []
                ltac:(change (32 * Z.of_nat 2) with 64; lia)
                ltac:(lia) ltac:(lia) Hb)
      as (h' & ps' & E & Hb').
    mstep E. exists r, h', ps'. split; [reflexivity|exact Hb'].
Qed.

Lemma Bnum_create_exact_0 (h : gmap positive Mem.cell) (fuel : nat) :
  exists (r : positive) (h' : gmap positive Mem.cell),
    Mem.Bnum_create fuel 0 h = Some (r, h')
    /\ exact_bnum h h' r [] [].
Proof.
  destruct (malloc_eq h (Mem.Cbnum (Mem.mkBnum 0 None None))) as [Em Hr].
  set (r := fresh (dom h)) in *.
  unfold Mem.Bnum_create. mstep Em.
  erewrite bind_eq; [|apply set_bnum_eq, lookup_insert_eq].
  erewrite bind_eq; [|apply set_bnum_eq, lookup_insert_eq].
  erewrite bind_eq; [|apply set_bnum_eq, lookup_insert_eq].
  rewrite !insert_insert_eq. cbn [Mem.with_count Mem.with_least Mem.with_most
    Mem.num_blocks Mem.least_significant Mem.most_significant].
  exists r. eexists. split; [reflexivity|]. now apply exact_bnum_empty.
Qed.

(** [Bnum_destroy] frees the cells of the number and no other cell. *)
Lemma destroy_loop_exact (h : gmap positive Mem.cell) (t : positive)
    (pt : list positive) (vt : list Z) :
  is_bnum h t pt vt ->
  forall (k i : nat) (hi : gmap positive Mem.cell) (fuel : nat),
    length pt = (i + k)%nat ->
    (forall l : positive, l ∈ take i pt -> hi !! l = None) ->
    (forall l : positive, l ∉ take i pt -> hi !! l = h !! l) ->
    (k < fuel)%nat ->
    exists h' : gmap positive Mem.cell,
      Mem.destroy_loop fuel (pt !! i) hi = Some (tt, h')
      /\ (forall l : positive, l ∈ pt -> h' !! l = None)
      /\ (forall l : positive, l ∉ pt -> h' !! l = h !! l).
Proof.
  intros Hb. pose proof Hb as (Hr & Hlen & Hnd & Hblk).
  induction k as [|k IH]; intros i hi fuel Hi Hgone Hsame Hf;
    (destruct fuel as [|fuel]; [lia|]).
  - rewrite (lookup_ge_None_2 pt i) by lia. cbn [Mem.destroy_loop].
    rewrite take_ge in Hgone, Hsame by lia.
    exists hi. repeat split; trivial.
  - destruct (lookup_lt_is_Some_2 pt i ltac:(lia)) as [l Hl].
    destruct (Hblk i l Hl) as (v & Hv & Hc).
    assert (l ∉ take i pt) as Hnot.
    { intros [j Hj]%list_elem_of_lookup_1.
      pose proof (lookup_lt_Some _ _ _ Hj) as Hlt.
      rewrite length_take in Hlt.
      rewrite lookup_take_lt in Hj by lia.
      assert (j = i) by (eapply NoDup_lookup; eauto). lia. }
    rewrite Hl. cbn [Mem.destroy_loop].
    assert (hi !! l = Some (Mem.Cblock (block_at pt v i))) as Hil
      by (rewrite Hsame; trivial).
    mstep (get_block_eq _ _ _ Hil).
    mstep (free_eq _ _ _ Hil). cbn [Mem.next block_at].
    apply IH; [lia| | |lia].
    + intros l' Hl'. rewrite (take_S_r _ _ _ Hl) in Hl'.
      apply elem_of_app in Hl' as [Hl'| ->%list_elem_of_singleton].
      * destruct (decide (l' = l)) as [->|Hne].
        -- apply lookup_delete_eq.
        -- rewrite lookup_delete_ne by congruence. now apply Hgone.
      * apply lookup_delete_eq.
    + intros l' Hl'. rewrite (take_S_r _ _ _ Hl) in Hl'.
      rewrite lookup_delete_ne.
      * apply Hsame. intros Hin. apply Hl'. apply elem_of_app. now left.
      * intros ->. apply Hl'. apply elem_of_app. right. constructor.
Qed.

Lemma Bnum_destroy_exact (h : gmap positive Mem.cell) (t : positive)
    (pt : list positive) (vt : list Z) (fuel : nat) :
  is_bnum h t pt vt -> (length pt < fuel)%nat ->
  exists h' : gmap positive Mem.cell,
    Mem.Bnum_destroy fuel t h = Some (tt, h')
    /\ (forall l : positive, l ∈ t :: pt -> h' !! l = None)
    /\ (forall l : positive, l ∉ t :: pt -> h' !! l = h !! l).
Proof.
  intros Hb Hf. pose proof Hb as (Hr & _).
  unfold Mem.Bnum_destroy. mstep (get_bnum_eq _ _ _ Hr).
  cbn [Mem.least_significant].
  destruct (destroy_loop_exact h t pt vt Hb (length pt) 0 h fuel)
    as (h1 & E1 & Hgone & Hsame); trivial.
  { intros l Hl. inversion Hl. }
  rewrite <- head_lookup in E1. mstep E1.
  assert (h1 !! t = h !! t) as Ht
    by (apply Hsame; eapply is_bnum_not_block; eauto).
  rewrite Hr in Ht. rewrite (free_eq _ _ _ Ht).
  eexists. split; [reflexivity|]. split.
  - intros l [->|Hl]%elem_of_cons; [apply lookup_delete_eq|].
    destruct (decide (l = t)) as [->|Hne]; [apply lookup_delete_eq|].
    rewrite lookup_delete_ne by congruence. now apply Hgone.
  - intros l Hl. rewrite lookup_delete_ne.
    + apply Hsame. intros Hin. apply Hl. now right.
    + intros ->. apply Hl. now left.
Qed.

Lemma sum_rest_exact (h0 : gmap positive Mem.cell) (s : positive) (vs : list Z) :
  forall (fuel : nat) (cur : option positive) (carry : Z) (sum : Bnum)
         (h : gmap positive Mem.cell) (ps : list positive),
    seg_next h0 cur vs ->
    exact_bnum h0 h s ps (blocks sum) ->
    (length vs < fuel)%nat ->
    exists (h' : gmap positive Mem.cell) (ps' : list positive),
      Mem.sum_rest fuel cur carry s h = Some (tt, h')
      /\ exact_bnum h0 h' s ps' (blocks (sum_rest vs carry sum)).
Proof.
  induction vs as [|v vs IH]; intros fuel cur carry sum h ps Hseg Hb Hf;
    (destruct fuel as [|fuel]; [cbn [length] in Hf; lia|]);
    cbn [seg_next] in Hseg.
  - subst cur. cbn [Mem.sum_rest sum_rest]. eauto.
  - destruct Hseg as (l & nx & pv & -> & Hl & Hseg).
    cbn [Mem.sum_rest sum_rest].
    assert (h0 ⊆ h) as Hsub by apply Hb.
    mstep (get_block_eq _ _ _ (lookup_weaken _ _ _ _ Hl Hsub)).
    cbn [Mem.val].
    destruct (add_block_exact _ _ _ _ _
                (low_block (to_uint64 (v + carry))) Hb)
      as (c & h1 & E1 & Hb1).
    mstep E1.
    assert (h0 ⊆ h1) as Hsub1 by apply Hb1.
    mstep (get_block_eq _ _ _ (lookup_weaken _ _ _ _ Hl Hsub1)).
    cbn [Mem.next].
    apply (IH fuel nx _ (add_block sum (low_block (to_uint64 (v + carry))))
             h1 (ps ++ [c])); trivial.
    cbn [length] in Hf. lia.
Qed.

Lemma sum_both_exact (h0 : gmap positive Mem.cell) (s : positive)
    (va : list Z) :
  forall (vb : list Z) (fuel : nat) (ca cb : option positive) (carry : Z)
         (sum : Bnum) (h : gmap positive Mem.cell) (ps : list positive),
    seg_next h0 ca va -> seg_next h0 cb vb ->
    exact_bnum h0 h s ps (blocks sum) ->
    (Nat.max (length va) (length vb) < fuel)%nat ->
    exists (h' : gmap positive Mem.cell) (ps' : list positive),
      Mem.sum_both fuel ca cb carry s h = Some (tt, h')
      /\ exact_bnum h0 h' s ps' (blocks (sum_both va vb carry sum)).
Proof.
  induction va as [|xa va IH];
    intros vb fuel ca cb carry sum h ps Ha Hb Hs Hf;
    (destruct fuel as [|fuel]; [lia|]).
  - cbn [seg_next] in Ha. subst ca.
    replace (sum_both [] vb carry sum) with (sum_rest vb carry sum)
      by (destruct vb; reflexivity).
    replace (Mem.sum_both (S fuel) None cb carry s h)
      with (Mem.sum_rest (S fuel) cb carry s h)
      by (destruct cb; reflexivity).
    eapply sum_rest_exact; eauto; cbn [length] in Hf; lia.
  - destruct vb as [|xb vb].
    + cbn [seg_next] in Hb. subst cb.
      change (sum_both (xa :: va) [] carry sum)
        with (sum_rest (xa :: va) carry sum).
      replace (Mem.sum_both (S fuel) ca None carry s h)
        with (Mem.sum_rest (S fuel) ca carry s h)
        by (destruct ca; reflexivity).
      eapply sum_rest_exact; eauto; cbn [length] in *; lia.
    + cbn [seg_next] in Ha, Hb.
      destruct Ha as (la & nxa & pva & -> & Hla & Ha).
      destruct Hb as (lb & nxb & pvb & -> & Hlb & Hb).
      cbn [Mem.sum_both sum_both].
      assert (h0 ⊆ h) as Hsub by apply Hs.
      mstep (get_block_eq _ _ _ (lookup_weaken _ _ _ _ Hla Hsub)).
      mstep (get_block_eq _ _ _ (lookup_weaken _ _ _ _ Hlb Hsub)).
      cbn [Mem.val].
      destruct (add_block_exact _ _ _ _ _
                  (low_block (to_uint64 (xa + xb + carry))) Hs)
        as (c & h1 & E1 & Hs1).
      mstep E1.
      assert (h0 ⊆ h1) as Hsub1 by apply Hs1.
      mstep (get_block_eq _ _ _ (lookup_weaken _ _ _ _ Hla Hsub1)).
      mstep (get_block_eq _ _ _ (lookup_weaken _ _ _ _ Hlb Hsub1)).
      cbn [Mem.next].
      apply (IH vb fuel nxa nxb _
               (add_block sum (low_block (to_uint64 (xa + xb + carry))))
               h1 (ps ++ [c])); trivial.
      cbn [length] in Hf. lia.
Qed.

Lemma Bnum_sum_exact (h : gmap positive Mem.cell) (a b : positive)
    (pa pb : list positive) (va vb : list Z) (fuel : nat) :
  is_bnum h a pa va -> is_bnum h b pb vb ->
  (Nat.max (length va) (length vb) < fuel)%nat ->
  exists (r : positive) (h' : gmap positive Mem.cell) (pr : list positive),
    Mem.Bnum_sum fuel a b h = Some (r, h')
    /\ exact_bnum h h' r pr (blocks (Bnum_sum (of_digits va) (of_digits vb))).
Proof.
  intros Ha Hb Hf.
  destruct (Bnum_create_exact_0 h fuel) as (s & h1 & E1 & Hs).
  unfold Mem.Bnum_sum. mstep E1.
  assert (h ⊆ h1) as Hsub by apply Hs.
  mstep (get_bnum_eq _ _ _ (lookup_weaken _ _ _ _ (proj1 Ha) Hsub)).
  mstep (get_bnum_eq _ _ _ (lookup_weaken _ _ _ _ (proj1 Hb) Hsub)).
  cbn [Mem.least_significant].
  destruct (sum_both_exact h s va vb fuel (head pa) (head pb) 0 (Bnum_create 0)
              h1 []) as (h' & ps' & E & Hs');
    eauto using is_bnum_seg_next.
  mstep E. exists s, h', ps'. split; [reflexivity|exact Hs'].
Qed.

Lemma shift_loop_exact (hb : gmap positive Mem.cell) (cp : positive) (k : nat) :
  forall (fuel fuel_p : nat) (i shift : Z) (cur : Bnum)
         (h : gmap positive Mem.cell) (ps : list positive),
    Z.to_nat (shift - i) = k -> (k < fuel)%nat -> (k <= fuel_p)%nat ->
    exact_bnum hb h cp ps (blocks cur) ->
    exists (h' : gmap positive Mem.cell) (ps' : list positive),
      Mem.shift_loop fuel i shift cp h = Some (tt, h')
      /\ exact_bnum hb h' cp ps' (blocks (shift_loop fuel_p i shift cur)).
Proof.
  induction k as [|k IH]; intros fuel fuel_p i shift cur h ps Hk Hf Hfp Hb;
    (destruct fuel as [|fuel]; [lia|]); cbn [Mem.shift_loop].
  - destruct (Z.ltb_spec i shift); [lia|].
    exists h, ps. split; [reflexivity|].
    destruct fuel_p; cbn [shift_loop]; trivial.
    destruct (Z.ltb_spec i shift); [lia|trivial].
  - destruct fuel_p as [|fuel_p]; [lia|]. cbn [shift_loop].
    destruct (Z.ltb_spec i shift); [|lia].
    destruct (add_block_exact _ _ _ _ _ (to_uint32 0) Hb)
      as (c & h1 & E1 & Hb1).
    mstep E1.
    apply (IH fuel fuel_p (i + 1) shift (add_block cur (to_uint32 0)) h1
             (ps ++ [c])); trivial; lia.
Qed.

Lemma mult_row_exact (hb : gmap positive Mem.cell) (cp la : positive)
    (ba : Mem.Block) (vs : list Z) :
  hb !! la = Some (Mem.Cblock ba) ->
  forall (fuel : nat) (cur_b : option positive) (carry : Z) (cur : Bnum)
         (h : gmap positive Mem.cell) (ps : list positive),
    seg_next hb cur_b vs ->
    exact_bnum hb h cp ps (blocks cur) ->
    (length vs < fuel)%nat ->
    exists (h' : gmap positive Mem.cell) (ps' : list positive),
      Mem.mult_row fuel (Some la) cur_b carry cp h = Some (tt, h')
      /\ exact_bnum hb h' cp ps'
           (blocks (mult_row (Mem.val ba) vs carry cur)).
Proof.
  intros Hla.
  induction vs as [|v vs IH]; intros fuel cur_b carry cur h ps Hseg Hb Hf;
    (destruct fuel as [|fuel]; [cbn [length] in Hf; lia|]);
    cbn [seg_next] in Hseg.
  - subst cur_b. cbn [Mem.mult_row mult_row].
    destruct (negb (carry =? 0)); [|eauto].
    destruct (add_block_exact _ _ _ _ _ (to_uint32 carry) Hb)
      as (c & h1 & E1 & Hb1).
    eauto.
  - destruct Hseg as (l & nx & pv & -> & Hl & Hseg).
    cbn [Mem.mult_row mult_row].
    assert (hb ⊆ h) as Hsub by apply Hb.
    mstep (get_block_eq _ _ _ (lookup_weaken _ _ _ _ Hla Hsub)).
    mstep (get_block_eq _ _ _ (lookup_weaken _ _ _ _ Hl Hsub)).
    cbn [Mem.val].
    destruct (add_block_exact _ _ _ _ _
                (low_block (to_uint64 (Mem.val ba * v + carry))) Hb)
      as (c & h1 & E1 & Hb1).
    mstep E1.
    assert (hb ⊆ h1) as Hsub1 by apply Hb1.
    mstep (get_block_eq _ _ _ (lookup_weaken _ _ _ _ Hl Hsub1)).
    cbn [Mem.next].
    apply (IH fuel nx _
             (add_block cur (low_block (to_uint64 (Mem.val ba * v + carry))))
             h1 (ps ++ [c])); trivial.
    cbn [length] in Hf. lia.
Qed.

(** A new number made from [h1], followed by the release of storage [X]
    that [h1] held beyond [h0], leaves [h0] plus the new number. *)
Lemma exact_after_release (h0 h1 h2 h3 : gmap positive Mem.cell)
    (r : positive) (pr : list positive) (vr : list Z) (X : list positive) :
  fresh_bnum h0 h3 r pr vr ->
  (forall l : positive, l ∉ r :: pr -> h2 !! l = h1 !! l) ->
  (forall l : positive, l ∈ X -> h3 !! l = None) ->
  (forall l : positive, l ∉ X -> h3 !! l = h2 !! l) ->
  (forall l : positive, l ∈ X -> h0 !! l = None) ->
  (forall l : positive, l ∉ X -> h1 !! l = h0 !! l) ->
  exact_bnum h0 h3 r pr vr.
Proof.
  intros Hf H21 Hgone H32 HX0 H10. split; [exact Hf|].
  intros l Hl. destruct (decide (l ∈ X)) as [Hin|Hout].
  - now rewrite Hgone, HX0.
  - now rewrite H32, H21, H10.
Qed.

Lemma mult_loop_exact (vb : list Z) (vsa : list Z) :
  forall (shift : Z) (prod : Bnum),
  exists f0 : nat, forall fuel : nat, (f0 <= fuel)%nat ->
    forall (h0 : gmap positive Mem.cell) (b : positive) (pb : list positive)
           (cur_a : option positive) (h : gmap positive Mem.cell)
           (product : positive) (pp : list positive),
      is_bnum h0 b pb vb ->
      seg_next h0 cur_a vsa ->
      exact_bnum h0 h product pp (blocks prod) ->
      exists (r : positive) (h' : gmap positive Mem.cell) (pr : list positive),
        Mem.mult_loop fuel cur_a b shift product h = Some (r, h')
        /\ exact_bnum h0 h' r pr
             (blocks (mult_loop vsa (of_digits vb) shift prod)).
Proof.
  induction vsa as [|va vsa IH]; intros shift prod.
  - exists 1%nat. intros fuel Hfuel h0 b pb cur_a h product pp Hb Hseg Hp.
    destruct fuel as [|fuel]; [lia|]. cbn [seg_next] in Hseg. subst cur_a.
    exists product, h, pp. split; [reflexivity|exact Hp].
  - set (shifted := shift_loop (Z.to_nat shift) 0 shift (Bnum_create 0)).
    set (curp := mult_row va vb 0 shifted).
    destruct (IH (shift + 1) (Bnum_sum prod curp)) as [f0' IH'].
    exists (S (f0' + Z.to_nat shift + length vb + length (blocks prod)
               + length (blocks curp))).
    intros fuel Hfuel h0 b pb cur_a h product pp Hb Hseg Hp.
    destruct fuel as [|fuel']; [lia|].
    remember (S fuel') as fuel eqn:Efuel.
    cbn [seg_next] in Hseg.
    destruct Hseg as (la & nx & pv & -> & Hla & Hseg).
    rewrite (mult_loop_step fuel fuel' _ _ _ _ Efuel).
    pose proof Hp as ((Hpb & Hsub0 & _) & Hpex).
    (* the partial product *)
    destruct (Bnum_create_exact_0 h fuel) as (cp & h1 & E1 & Hc1).
    mstep E1.
    destruct (shift_loop_exact h cp (Z.to_nat shift) fuel (Z.to_nat shift)
                0 shift (Bnum_create 0) h1 [])
      as (h2 & ps2 & E2 & Hc2); trivial; try lia.
    mstep E2. fold shifted in Hc2.
    assert (h ⊆ h2) as Hsub2 by apply Hc2.
    assert (h0 ⊆ h2) as Hsub02 by (now transitivity h).
    mstep (get_bnum_eq _ _ _ (lookup_weaken _ _ _ _ (proj1 Hb) Hsub02)).
    cbn [Mem.least_significant].
    destruct (mult_row_exact h cp la _ vb (lookup_weaken _ _ _ _ Hla Hsub0)
                fuel (head pb) 0 shifted h2 ps2)
      as (h3 & ps3 & E3 & Hc3); trivial; try lia.
    { eapply seg_next_weaken; [exact Hsub0|].
      eapply is_bnum_seg_next; eauto. }
    mstep E3. cbn [Mem.val] in Hc3. fold curp in Hc3.
    pose proof Hc3 as ((Hcb3 & Hsub3 & _) & Hcex).
    (* folded into the running total *)
    assert (is_bnum h3 product pp (blocks prod)) as Hpb3
      by (eapply is_bnum_weaken; eauto).
    destruct (Bnum_sum_exact h3 product cp pp ps3 _ _ fuel Hpb3 Hcb3)
      as (r & h4 & pr & E4 & Hr4); [lia|].
    mstep E4.
    change (Bnum_sum (of_digits (blocks prod)) (of_digits (blocks curp)))
      with (Bnum_sum prod curp) in Hr4.
    pose proof Hr4 as ((Hrb4 & Hsub4 & _) & Hrex).
    (* the two releases *)
    assert (length pp = length (blocks prod)) as Lpp by apply Hpb.
    assert (length ps3 = length (blocks curp)) as Lps3 by apply Hcb3.
    destruct (Bnum_destroy_exact h4 product pp (blocks prod) fuel)
      as (h5 & E5 & Hgone5 & Hsame5); [eapply is_bnum_weaken; eauto|lia|].
    mstep E5.
    assert (is_bnum h5 cp ps3 (blocks curp)) as Hcb5.
    { eapply is_bnum_frame; [eapply is_bnum_weaken; eauto|exact Hsame5|].
      intros l Hl. exact (fresh_apart _ _ _ _ _ _ _ _ l (proj1 Hc3) Hpb Hl). }
    destruct (Bnum_destroy_exact h5 cp ps3 (blocks curp) fuel Hcb5)
      as (h6 & E6 & Hgone6 & Hsame6); [lia|].
    mstep E6.
    assert (fresh_bnum h0 h5 r pr (blocks (Bnum_sum prod curp))) as Hr5.
    { eapply fresh_bnum_frame; [| | |exact Hsame5].
      - eapply fresh_bnum_base; [exact (proj1 Hr4)|]. now transitivity h.
      - intros l Hl. exact (fresh_bnum_none _ _ _ _ _ l (proj1 Hp) Hl).
      - intros l Hl.
        exact (fresh_apart _ _ _ _ _ _ _ _ l (proj1 Hr4) Hpb3 Hl). }
    assert (fresh_bnum h0 h6 r pr (blocks (Bnum_sum prod curp))) as Hr6.
    { eapply fresh_bnum_frame; [exact Hr5| | |exact Hsame6].
      - intros l Hl. eapply lookup_weaken_None; [|exact Hsub0].
        exact (fresh_bnum_none _ _ _ _ _ l (proj1 Hc3) Hl).
      - intros l Hl.
        exact (fresh_apart _ _ _ _ _ _ _ _ l (proj1 Hr4) Hcb3 Hl). }
    assert (exact_bnum h0 h6 r pr (blocks (Bnum_sum prod curp))) as Hx6.
    { apply (exact_after_release h0 h3 h4 h6 r pr _
               ((product :: pp) ++ (cp :: ps3))); trivial.
      - intros l [Hl|Hl]%elem_of_app.
        + destruct (decide (l ∈ cp :: ps3)) as [Hin|Hout];
            [now apply Hgone6|].
          rewrite Hsame6 by trivial. now apply Hgone5.
        + now apply Hgone6.
      - intros l Hl.
        rewrite Hsame6, Hsame5; trivial;
          intros Hin; apply Hl, elem_of_app; auto.
      - intros l [Hl|Hl]%elem_of_app.
        + exact (fresh_bnum_none _ _ _ _ _ l (proj1 Hp) Hl).
        + eapply lookup_weaken_None; [|exact Hsub0].
          exact (fresh_bnum_none _ _ _ _ _ l (proj1 Hc3) Hl).
      - intros l Hl.
        rewrite Hcex, Hpex; trivial;
          intros Hin; apply Hl, elem_of_app; auto. }
    assert (h0 ⊆ h6) as Hsub6 by apply Hr6.
    mstep (get_block_eq _ _ _ (lookup_weaken _ _ _ _ Hla Hsub6)).
    cbn [Mem.next].
    apply (IH' fuel' ltac:(lia) h0 b pb nx h6 r pr Hb Hseg Hx6).
Qed.

Lemma Bnum_mult_exact (va vb : list Z) :
  exists f0 : nat, forall fuel : nat, (f0 <= fuel)%nat ->
    forall (h : gmap positive Mem.cell) (a b : positive)
           (pa pb : list positive),
      is_bnum h a pa va -> is_bnum h b pb vb ->
      exists (r : positive) (h' : gmap positive Mem.cell) (pr : list positive),
        Mem.Bnum_mult fuel a b h = Some (r, h')
        /\ exact_bnum h h' r pr
             (blocks (Bnum_mult (of_digits va) (of_digits vb))).
Proof.
  destruct (mult_loop_exact vb va 0 (Bnum_create 0)) as [f0 Hloop].
  exists f0. intros fuel Hfuel h a b pa pb Ha Hb.
  destruct (Bnum_create_exact_0 h fuel) as (product & h1 & E1 & Hp).
  unfold Mem.Bnum_mult. mstep E1.
  assert (h ⊆ h1) as Hsub by apply Hp.
  mstep (get_bnum_eq _ _ _ (lookup_weaken _ _ _ _ (proj1 Ha) Hsub)).
  cbn [Mem.least_significant].
  apply (Hloop fuel Hfuel h b pb (head pa) h1 product [] Hb); trivial.
  eapply is_bnum_seg_next; eauto.
Qed.

Lemma pow_loop_exact (va : list Z) (k : nat) :
  forall (i n : Z) (res : Bnum),
    Z.to_nat (n - i) = k ->
    exists f0 : nat, forall fuel : nat, (f0 <= fuel)%nat ->
      forall (h0 : gmap positive Mem.cell) (a : positive) (pa : list positive)
             (h : gmap positive Mem.cell) (result : positive)
             (pres : list positive),
        is_bnum h0 a pa va ->
        exact_bnum h0 h result pres (blocks res) ->
        exists (r : positive) (h' : gmap positive Mem.cell)
               (pr : list positive),
          Mem.pow_loop fuel i n a result h = Some (r, h')
          /\ exact_bnum h0 h' r pr
               (blocks (Nat.iter k (fun x => Bnum_mult x (of_digits va)) res)).
Proof.
  induction k as [|k IH]; intros i n res Hk.
  - exists 1%nat. intros fuel Hfuel h0 a pa h result pres Ha Hr.
    destruct fuel as [|fuel']; [lia|].
    rewrite (pow_loop_step _ fuel' _ _ _ _ eq_refl).
    destruct (Z.ltb_spec i n); [lia|].
    exists result, h, pres. split; [reflexivity|exact Hr].
  - destruct (Bnum_mult_exact (blocks res) va) as [fm Hmult].
    destruct (IH (i + 1) n (Bnum_mult res (of_digits va)) ltac:(lia))
      as [f0' IH'].
    exists (S (f0' + fm + length (blocks res))).
    intros fuel Hfuel h0 a pa h result pres Ha Hr.
    destruct fuel as [|fuel']; [lia|].
    remember (S fuel') as fuel eqn:Efuel.
    rewrite (pow_loop_step fuel fuel' _ _ _ _ Efuel).
    destruct (Z.ltb_spec i n); [|lia].
    pose proof Hr as ((Hrb & Hsub0 & _) & Hrex).
    destruct (Hmult fuel ltac:(lia) h result a pres pa Hrb
                (is_bnum_weaken _ _ _ _ _ Ha Hsub0))
      as (r & h1 & pr & E1 & Hr1).
    mstep E1.
    change (Bnum_mult (of_digits (blocks res)) (of_digits va))
      with (Bnum_mult res (of_digits va)) in Hr1.
    pose proof Hr1 as ((Hrb1 & Hsub1 & _) & Hr1ex).
    assert (length pres = length (blocks res)) as Lp by apply Hrb.
    destruct (Bnum_destroy_exact h1 result pres (blocks res) fuel)
      as (h2 & E2 & Hgone2 & Hsame2); [eapply is_bnum_weaken; eauto|lia|].
    mstep E2.
    assert (fresh_bnum h0 h2 r pr (blocks (Bnum_mult res (of_digits va))))
      as Hr2.
    { eapply fresh_bnum_frame; [| | |exact Hsame2].
      - eapply fresh_bnum_base; [exact (proj1 Hr1)|exact Hsub0].
      - intros l Hl. exact (fresh_bnum_none _ _ _ _ _ l (proj1 Hr) Hl).
      - intros l Hl.
        exact (fresh_apart _ _ _ _ _ _ _ _ l (proj1 Hr1) Hrb Hl). }
    assert (exact_bnum h0 h2 r pr (blocks (Bnum_mult res (of_digits va))))
      as Hx2.
    { apply (exact_after_release h0 h h1 h2 r pr _ (result :: pres));
        trivial.
      intros l Hl. exact (fresh_bnum_none _ _ _ _ _ l (proj1 Hr) Hl). }
    rewrite Nat.iter_succ_r.
    apply (IH' fuel' ltac:(lia) h0 a pa h2 r pr Ha Hx2).
Qed.

Lemma Bnum_pow_exact (va : list Z) (n : Z) :
  exists f0 : nat, forall fuel : nat, (f0 <= fuel)%nat ->
    forall (h : gmap positive Mem.cell) (a : positive) (pa : list positive),
      is_bnum h a pa va ->
      exists (r : positive) (h' : gmap positive Mem.cell) (pr : list positive),
        Mem.Bnum_pow fuel a n h = Some (r, h')
        /\ exact_bnum h h' r pr (blocks (Bnum_pow (of_digits va) n)).
Proof.
  destruct (pow_loop_exact va (Z.to_nat n) 0 n (Bnum_create 1)
              ltac:(f_equal; lia)) as [f0 Hloop].
  exists (3 + f0)%nat. intros fuel Hfuel h a pa Ha.
  destruct (Bnum_create_exact h fuel 1 ltac:(lia) ltac:(lia))
    as (result & h1 & pres & E1 & Hr).
  unfold Mem.Bnum_pow. mstep E1.
  rewrite Bnum_pow_iter.
  apply (Hloop fuel ltac:(lia) h a pa h1 result pres Ha Hr).
Qed.

(** ** Release and garbage *)

(** Releasing the one number by which [h'] exceeds [h] gives [h] back. *)
Lemma release_restores (h h' : gmap positive Mem.cell) (r : positive)
    (pr : list positive) (vr : list Z) (fuel : nat) :
  exact_bnum h h' r pr vr -> (length pr < fuel)%nat ->
  Mem.Bnum_destroy fuel r h' = Some (tt, h).
Proof.
  intros [Hf Hex] Hfuel. pose proof Hf as (Hb & _).
  destruct (Bnum_destroy_exact h' r pr vr fuel Hb Hfuel)
    as (h2 & E & Hgone & Hsame).
  rewrite E. do 2 f_equal. apply map_eq. intros l.
  destruct (decide (l ∈ r :: pr)) as [Hin|Hout].
  - rewrite (Hgone l Hin). symmetry.
    exact (fresh_bnum_none _ _ _ _ _ l Hf Hin).
  - now rewrite Hsame, Hex.
Qed.

(** X14.  [Bnum_destroy] returns, given fuel beyond the number of blocks, and
    frees exactly the storage of its argument: the [Bnum] cell and every
    block of its chain are gone and every other cell keeps its content.  In
    particular another number in the store is still there. *)
Theorem Bnum_destroy_frees (h : gmap positive Mem.cell) (t : positive)
    (pt : list positive) (vt : list Z) (fuel : nat) :
  is_bnum h t pt vt -> (length pt < fuel)%nat ->
  exists h' : gmap positive Mem.cell,
    Mem.Bnum_destroy fuel t h = Some (tt, h')
    /\ (forall l : positive, l ∈ t :: pt -> h' !! l = None)
    /\ (forall l : positive, l ∉ t :: pt -> h' !! l = h !! l)
    /\ (forall (r : positive) (pr : list positive) (vr : list Z),
          is_bnum h r pr vr ->
          (forall l : positive, l ∈ r :: pr -> l ∉ t :: pt) ->
          is_bnum h' r pr vr).
Proof.
  intros Hb Hfuel.
  destruct (Bnum_destroy_exact h t pt vt fuel Hb Hfuel)
    as (h' & E & Hgone & Hsame).
  exists h'. repeat (split; [assumption|]).
  intros r pr vr Hr Hapart. eapply is_bnum_frame; eauto.
Qed.

Lemma Bnum_destroy_frees_witness :
  exists h' : gmap positive Mem.cell,
    Mem.Bnum_destroy 2 1%positive two_numbers = Some (tt, h')
    /\ (forall l : positive, l ∈ [1%positive; 2%positive] -> h' !! l = None).
Proof.
  assert (is_bnum two_numbers 1%positive [2%positive] [5]) as Ha.
  { split; [reflexivity|]. split; [reflexivity|].
    split; [apply NoDup_singleton|].
    intros [|i] l E; simpl in E; [|discriminate].
    injection E as <-. exists 5. split; reflexivity. }
  destruct (Bnum_destroy_frees two_numbers 1%positive [2%positive] [5] 2 Ha)
    as (h' & E & Hgone & _); [simpl; lia|].
  exists h'. split; [exact E|exact Hgone].
Defined.

Lemma Bnum_create_length (v : Z) :
  0 <= v < 2 ^ 64 -> (length (blocks (Bnum_create v)) <= 2)%nat.
Proof.
  intros Hv. destruct (Bnum_create_digits v Hv) as (E & _). rewrite E.
  destruct (v =? 0); [|destruct (v <? 2 ^ 32)]; cbn [length]; lia.
Qed.

(** X15.  Creating a number from a 64-bit value and releasing it leaves the
    store exactly as it was, whatever it held. *)
Theorem create_destroy_round_trip (h : gmap positive Mem.cell) (v : Z)
    (fuel : nat) :
  0 <= v < 2 ^ 64 -> (2 < fuel)%nat ->
  exists (r : positive) (h' : gmap positive Mem.cell),
    Mem.Bnum_create fuel v h = Some (r, h')
    /\ h !! r = None
    /\ Mem.Bnum_destroy fuel r h' = Some (tt, h).
Proof.
  intros Hv Hfuel.
  destruct (Bnum_create_exact h fuel v Hv Hfuel) as (r & h' & ps & E & Hx).
  pose proof Hx as ((Hb & _ & Hr & _) & _).
  exists r, h'. split; [exact E|]. split; [exact Hr|].
  eapply release_restores; [exact Hx|].
  assert (length ps = length (blocks (Bnum_create v))) as -> by apply Hb.
  pose proof (Bnum_create_length v Hv). lia.
Qed.

Lemma create_destroy_round_trip_witness :
  exists (r : positive) (h' : gmap positive Mem.cell),
    Mem.Bnum_create 3 4294967301 two_numbers = Some (r, h')
    /\ two_numbers !! r = None
    /\ Mem.Bnum_destroy 3 r h' = Some (tt, two_numbers).
Proof. apply create_destroy_round_trip; lia. Defined.

(** X16.  [Bnum_sum] allocates its result and nothing else: outside the cells of
    the result the store is as before the call, and releasing the result
    gives the old store back. *)
Theorem Bnum_sum_allocates_result_only (h : gmap positive Mem.cell)
    (a b : positive) (pa pb : list positive) (va vb : list Z) (fuel : nat) :
  is_bnum h a pa va -> is_bnum h b pb vb ->
  (Nat.max (length va) (length vb) < fuel)%nat ->
  exists (r : positive) (h' : gmap positive Mem.cell) (pr : list positive),
    Mem.Bnum_sum fuel a b h = Some (r, h')
    /\ is_bnum h' r pr (blocks (Bnum_sum (of_digits va) (of_digits vb)))
    /\ (forall l : positive, l ∉ r :: pr -> h' !! l = h !! l)
    /\ Mem.Bnum_destroy fuel r h' = Some (tt, h).
Proof.
  intros Ha Hb Hfuel.
  destruct (Bnum_sum_exact h a b pa pb va vb fuel Ha Hb Hfuel)
    as (r & h' & pr & E & Hx).
  pose proof Hx as ((Hrb & _) & Hex).
  exists r, h', pr. split; [exact E|]. split; [exact Hrb|].
  split; [exact Hex|].
  eapply release_restores; [exact Hx|].
  assert (length pr
          = length (blocks (Bnum_sum (of_digits va) (of_digits vb)))) as ->
    by apply Hrb.
  destruct (sum_both_count va vb 0 (Bnum_create 0)) as [_ Hlen].
  unfold Bnum_sum, of_digits. cbn [blocks]. rewrite Hlen, Bnum_create_0.
  cbn [blocks length]. lia.
Qed.

Lemma Bnum_sum_allocates_result_only_witness :
  exists (r : positive) (h' : gmap positive Mem.cell) (pr : list positive),
    Mem.Bnum_sum 2 1%positive 3%positive two_numbers = Some (r, h')
    /\ is_bnum h' r pr [5]
    /\ (forall l : positive, l ∉ r :: pr -> h' !! l = two_numbers !! l)
    /\ Mem.Bnum_destroy 2 r h' = Some (tt, two_numbers).
Proof.
  assert (is_bnum two_numbers 1%positive [2%positive] [5]) as Ha.
  { split; [reflexivity|]. split; [reflexivity|].
    split; [apply NoDup_singleton|].
    intros [|i] l E; simpl in E; [|discriminate].
    injection E as <-. exists 5. split; reflexivity. }
  assert (is_bnum two_numbers 3%positive [] []) as Hb.
  { split; [reflexivity|]. split; [reflexivity|].
    split; [apply NoDup_nil_2|]. intros i l E. discriminate. }
  apply (Bnum_sum_allocates_result_only two_numbers 1%positive 3%positive
           [2%positive] [] [5] [] 2 Ha Hb).
  simpl. lia.
Defined.

(** X17.  [Bnum_mult] releases every partial product and every intermediate
    total: with enough fuel it returns, outside the cells of the result the
    store is as before the call, and releasing the result gives the old
    store back. *)
Theorem Bnum_mult_releases_temporaries (h : gmap positive Mem.cell)
    (a b : positive) (pa pb : list positive) (va vb : list Z) :
  is_bnum h a pa va -> is_bnum h b pb vb ->
  exists f0 : nat, forall fuel : nat, (f0 <= fuel)%nat ->
    exists (r : positive) (h' : gmap positive Mem.cell) (pr : list positive),
      Mem.Bnum_mult fuel a b h = Some (r, h')
      /\ is_bnum h' r pr (blocks (Bnum_mult (of_digits va) (of_digits vb)))
      /\ (forall l : positive, l ∉ r :: pr -> h' !! l = h !! l)
      /\ Mem.Bnum_destroy fuel r h' = Some (tt, h).
Proof.
  intros Ha Hb. destruct (Bnum_mult_exact va vb) as [f0 Hmult].
  exists (S (f0 + length (blocks (Bnum_mult (of_digits va) (of_digits vb))))).
  intros fuel Hfuel.
  destruct (Hmult fuel ltac:(lia) h a b pa pb Ha Hb)
    as (r & h' & pr & E & Hx).
  pose proof Hx as ((Hrb & _) & Hex).
  exists r, h', pr. split; [exact E|]. split; [exact Hrb|].
  split; [exact Hex|].
  eapply release_restores; [exact Hx|].
  assert (length pr
          = length (blocks (Bnum_mult (of_digits va) (of_digits vb)))) as ->
    by apply Hrb.
  lia.
Qed.

Lemma Bnum_mult_releases_temporaries_witness :
  exists f0 : nat, forall fuel : nat, (f0 <= fuel)%nat ->
    exists (r : positive) (h' : gmap positive Mem.cell) (pr : list positive),
      Mem.Bnum_mult fuel 1%positive 1%positive two_numbers = Some (r, h')
      /\ is_bnum h' r pr [25]
      /\ (forall l : positive, l ∉ r :: pr -> h' !! l = two_numbers !! l)
      /\ Mem.Bnum_destroy fuel r h' = Some (tt, two_numbers).
Proof.
  assert (is_bnum two_numbers 1%positive [2%positive] [5]) as Ha.
  { split; [reflexivity|]. split; [reflexivity|].
    split; [apply NoDup_singleton|].
    intros [|i] l E; simpl in E; [|discriminate].
    injection E as <-. exists 5. split; reflexivity. }
  exact (Bnum_mult_releases_temporaries two_numbers 1%positive 1%positive
           [2%positive] [2%positive] [5] [5] Ha Ha).
Defined.

(** X18.  [Bnum_pow] releases every accumulator but the last: with enough fuel
    it returns, outside the cells of the result the store is as before the
    call, and releasing the result gives the old store back. *)
Theorem Bnum_pow_releases_temporaries (h : gmap positive Mem.cell)
    (a : positive) (pa : list positive) (va : list Z) (n : Z) :
  is_bnum h a pa va ->
  exists f0 : nat, forall fuel : nat, (f0 <= fuel)%nat ->
    exists (r : positive) (h' : gmap positive Mem.cell) (pr : list positive),
      Mem.Bnum_pow fuel a n h = Some (r, h')
      /\ is_bnum h' r pr (blocks (Bnum_pow (of_digits va) n))
      /\ (forall l : positive, l ∉ r :: pr -> h' !! l = h !! l)
      /\ Mem.Bnum_destroy fuel r h' = Some (tt, h).
Proof.
  intros Ha. destruct (Bnum_pow_exact va n) as [f0 Hpow].
  exists (S (f0 + length (blocks (Bnum_pow (of_digits va) n)))).
  intros fuel Hfuel.
  destruct (Hpow fuel ltac:(lia) h a pa Ha) as (r & h' & pr & E & Hx).
  pose proof Hx as ((Hrb & _) & Hex).
  exists r, h', pr. split; [exact E|]. split; [exact Hrb|].
  split; [exact Hex|].
  eapply release_restores; [exact Hx|].
  assert (length pr = length (blocks (Bnum_pow (of_digits va) n))) as ->
    by apply Hrb.
  lia.
Qed.

Lemma Bnum_pow_releases_temporaries_witness :
  exists f0 : nat, forall fuel : nat, (f0 <= fuel)%nat ->
    exists (r : positive) (h' : gmap positive Mem.cell) (pr : list positive),
      Mem.Bnum_pow fuel 1%positive 2 two_numbers = Some (r, h')
      /\ is_bnum h' r pr [25]
      /\ (forall l : positive, l ∉ r :: pr -> h' !! l = two_numbers !! l)
      /\ Mem.Bnum_destroy fuel r h' = Some (tt, two_numbers).
Proof.
  assert (is_bnum two_numbers 1%positive [2%positive] [5]) as Ha.
  { split; [reflexivity|]. split; [reflexivity|].
    split; [apply NoDup_singleton|].
    intros [|i] l E; simpl in E; [|discriminate].
    injection E as <-. exists 5. split; reflexivity. }
  exact (Bnum_pow_releases_temporaries two_numbers 1%positive
           [2%positive] [5] 2 Ha).
Defined.
